(** * simgrid-examples: master/worker job scheduler with simulated failures

    Shallow embedding of [simgrid_cluster_with_errors.cpp] and
    [simgrid_cluster_with_historical_errors.cpp].

    - C++ [double] is an interface [Double] with the instance [binary64]:
      Rocq's primitive IEEE 754 floats, what the compiled program computes.
      Properties that do not depend on the arithmetic are stated over the
      interface; properties of the numbers are stated and proved on
      [binary64].
    - C++ [int] is [Z].  The counters never exceed the number of jobs, so no
      wrap-around is involved there; the sum [total_weight] of the counts of
      a site wraps around as the [int] additions of the compiled program do.
    - [std::unordered_map<int,int>] is a [gmap Z Z], [std::map] and
      [std::unordered_map] keyed by strings are [gmap string _].
    - A named SimGrid mailbox is the FIFO sub-sequence, addressed to that
      name, of the list of messages put and not yet received.
    - [while] loops over doubles carry a fuel argument and return [None]
      when it runs out.
    - The engine's interleaving of the actors is a schedule, any list of
      actor names; properties of runs hold for every schedule. *)

From Stdlib Require Import ZArith Floats Ascii.
From stdpp Require Import gmap strings list fin_maps pretty.

Set Default Proof Using "Type".
Local Open Scope Z_scope.

(** ** The [double] interface *)

Class Double (T : Type) := {
  of_int : Z -> T;          (* static_cast<double>(int), and integral literals *)
  slice_literal : T;        (* the literal 0.1 *)
  dadd : T -> T -> T;
  dsub : T -> T -> T;
  dmul : T -> T -> T;
  ddiv : T -> T -> T;
  dlt : T -> T -> bool;     (* a < b *)
  dge : T -> T -> bool      (* a >= b *)
}.

(** IEEE 754 binary64, round to nearest even. *)
#[export] Instance binary64 : Double float := {
  of_int z :=
    if z <? 0 then PrimFloat.opp (PrimFloat.of_uint63 (Uint63.of_Z (- z)))
    else PrimFloat.of_uint63 (Uint63.of_Z z);
  slice_literal := 0x1.999999999999ap-4%float;
  dadd := PrimFloat.add;
  dsub := PrimFloat.sub;
  dmul := PrimFloat.mul;
  ddiv := PrimFloat.div;
  dlt := PrimFloat.ltb;
  dge a b := PrimFloat.leb b a
}.

(** [std::min(a, b)] is [(b < a) ? b : a]. *)
Definition dmin {T} `{Double T} (a b : T) : T := if dlt b a then b else a.

(** ** Data shared by the two programs *)

(** [struct Job]; the constructor sets [error_code] to 0. *)
Record Job (T : Type) := mkJob {
  name : string;
  load : T;
  error_code : Z
}.
Arguments mkJob {T} _ _ _.
Arguments name {T} _.
Arguments load {T} _.
Arguments error_code {T} _.

Definition new_Job {T} (n : string) (l : T) : Job T := mkJob n l 0.

Definition set_error_code {T} (job : Job T) (c : Z) : Job T :=
  mkJob (name job) (load job) c.

(** The globals [g_total_success] and [g_error_counts]. *)
Record Globals := mkGlobals {
  g_total_success : Z;
  g_error_counts : gmap Z Z
}.

Definition globals_init : Globals := mkGlobals 0 ∅.

(** The block under [lock_guard]: one job's outcome is counted. *)
Definition update_counters (code : Z) (g : Globals) : Globals :=
  if decide (code = 0) then
    mkGlobals (g_total_success g + 1) (g_error_counts g)
  else
    mkGlobals (g_total_success g)
              (<[code := default 0 (g_error_counts g !! code) + 1]> (g_error_counts g)).

(** What a worker logs through XBT_INFO / XBT_WARN inside its message loop. *)
Inductive Log (T : Type) :=
| WorkerExiting (w : string)
| WorkerReceived (w job : string) (l : T)
| WorkerAborting (w job : string)
| WorkerCompleted (w job : string) (elapsed : T)
| WorkerFinishedError (w job : string) (code : Z).
Arguments WorkerExiting {T} _.
Arguments WorkerReceived {T} _ _ _.
Arguments WorkerAborting {T} _ _.
Arguments WorkerCompleted {T} _ _ _.
Arguments WorkerFinishedError {T} _ _ _.

(** What one pass of the worker's [while (true)] body leaves behind:
    [continue] is false after [break]; [processed] is the job with its final
    error code and the elapsed time, absent for the termination message. *)
Record Iteration (T : Type) := mkIteration {
  continue : bool;
  globals : Globals;
  logs : list (Log T);
  processed : option (Job T * T)
}.
Arguments mkIteration {T} _ _ _ _.
Arguments continue {T} _.
Arguments globals {T} _.
Arguments logs {T} _.
Arguments processed {T} _.

(** ** simgrid_cluster_with_errors.cpp *)

Module Errors.
Section Worker.
Context {T : Type} `{Double T}.

(** The inner [while (elapsed < job->load)] loop of [worker]. *)
Fixpoint slice_loop (fuel : nat) (w : string) (job : Job T) (elapsed : T)
  : option (Job T * T * list (Log T)) :=
  match fuel with
  | O => None
  | S fuel' =>
    if dlt elapsed (load job) then
      if dge elapsed (of_int 10) then
        Some (set_error_code job (-1), elapsed, [WorkerAborting w (name job)])
      else
        let remaining := dsub (load job) elapsed in
        let sleep_time := dmin slice_literal remaining in
        slice_loop fuel' w job (dadd elapsed sleep_time)
    else Some (job, elapsed, [])
  end.

(** One pass of the body of [while (true)] in [worker], on the message
    [job] that [mbox->get<Job>()] returned. *)
Definition worker_iteration (fuel : nat) (w : string) (job : Job T) (g : Globals)
  : option (Iteration T) :=
  if decide (name job = "exit") then
    Some (mkIteration false g [WorkerExiting w] None)
  else
    match slice_loop fuel w job (of_int 0) with
    | None => None
    | Some (job', elapsed, warn) =>
      let report :=
        if decide (error_code job' = 0)
        then WorkerCompleted w (name job') elapsed
        else WorkerFinishedError w (name job') (error_code job') in
      Some (mkIteration true (update_counters (error_code job') g)
              ([WorkerReceived w (name job) (load job)] ++ warn ++ [report])
              (Some (job', elapsed)))
    end.
End Worker.
End Errors.

(** ** simgrid_cluster_with_historical_errors.cpp *)

Module Historical.
Section Worker.
Context {T : Type} `{Double T}.
Variable muted : bool.

Definition unless_muted (l : list (Log T)) : list (Log T) :=
  if muted then [] else l.

(** The inner [while (elapsed < job->load)] loop of [worker]. *)
Fixpoint slice_loop (fuel : nat) (w : string) (job : Job T) (elapsed : T)
  : option (Job T * T * list (Log T)) :=
  match fuel with
  | O => None
  | S fuel' =>
    if dlt elapsed (load job) then
      if dge elapsed (of_int 10) then
        Some (set_error_code job (-1), elapsed,
              unless_muted [WorkerAborting w (name job)])
      else
        let remaining := dsub (load job) elapsed in
        let sleep_time := dmin slice_literal remaining in
        slice_loop fuel' w job (dadd elapsed sleep_time)
    else Some (job, elapsed, [])
  end.

(** One pass of the body of [while (true)] in [worker]. *)
Definition worker_iteration (fuel : nat) (w : string) (job : Job T) (g : Globals)
  : option (Iteration T) :=
  if decide (name job = "exit") then
    Some (mkIteration false g (unless_muted [WorkerExiting w]) None)
  else
    match slice_loop fuel w job (of_int 0) with
    | None => None
    | Some (job', elapsed, warn) =>
      let report :=
        if decide (error_code job' = 0)
        then WorkerCompleted w (name job') elapsed
        else WorkerFinishedError w (name job') (error_code job') in
      Some (mkIteration true (update_counters (error_code job') g)
              (unless_muted [WorkerReceived w (name job) (load job)]
               ++ warn ++ unless_muted [report])
              (Some (job', elapsed)))
    end.
End Worker.
End Historical.

(** ** The dispatcher, common to both programs

    [master] performs a sequence of [Mailbox::by_name(worker_name)->put(job)]
    calls; each is recorded as the pair of the mailbox name and the message.
    [rand i] is what the [i]-th call of [rand()] returns; [RAND_MAX] is the
    C library's constant. *)

Definition to_string (i : nat) : string := pretty i.

Definition worker_name (i : nat) : string := "worker" +:+ to_string i.

Section Dispatcher.
Context {T : Type} `{Double T}.
Variable RAND_MAX : Z.
Variable rand : nat -> Z.
Variable MAX_WORKERS : nat.

(** [1.0 + (static_cast<double>(rand()) / RAND_MAX) * 14.0] *)
Definition job_time (r : Z) : T :=
  dadd (of_int 1) (dmul (ddiv (of_int r) (of_int RAND_MAX)) (of_int 14)).

(** Body of the first [for] loop of [master]. *)
Definition send_job (i : nat) : string * Job T :=
  let job := new_Job ("job" +:+ to_string i) (job_time (rand i)) in
  (worker_name (i mod MAX_WORKERS), job).

(** Body of the second [for] loop of [master]: the poison pill. *)
Definition send_termination (i : nat) : string * Job T :=
  let term_job := new_Job "exit" (of_int 0) in
  (worker_name i, term_job).

Definition master (num_jobs : Z) : list (string * Job T) :=
  map send_job (seq 0 (Z.to_nat num_jobs))
  ++ map send_termination (seq 0 MAX_WORKERS).
End Dispatcher.

(** ** The actors under the simulation engine

    A state of the simulation: the messages put and not yet received (in the
    order of the puts), the worker actors that have returned, the globals, the
    number of real jobs whose processing is complete, and the log.  A worker
    suspends in [mbox->get] and in [sleep_for]; while it sleeps it reads and
    writes only its own job and [elapsed], and it updates the globals once,
    under the lock, with no suspension point from the end of the slice loop
    on.  So one pass of its loop body is one step of the simulation, and the
    engine's choice of the actor to resume next is a schedule. *)

Record Sim (T : Type) := mkSim {
  pending : list (string * Job T);
  exited : gset string;
  shared : Globals;
  completed : nat;
  trace : list (Log T)
}.
Arguments mkSim {T} _ _ _ _ _.
Arguments pending {T} _.
Arguments exited {T} _.
Arguments shared {T} _.
Arguments completed {T} _.
Arguments trace {T} _.

(** [mbox->get<Job>()] on the mailbox named [w]: the oldest pending message
    addressed to [w], and what stays pending. *)
Fixpoint get {T} (w : string) (msgs : list (string * Job T))
  : option (Job T * list (string * Job T)) :=
  match msgs with
  | [] => None
  | (w', job) :: rest =>
    if decide (w' = w) then Some (job, rest)
    else match get w rest with
         | Some (job', rest') => Some (job', (w', job) :: rest')
         | None => None
         end
  end.

(** The messages waiting in the mailbox named [w], oldest first. *)
Definition inbox {T} (w : string) (msgs : list (string * Job T)) : list (Job T) :=
  map snd (filter (λ m, fst m = w) msgs).

Section Engine.
Context {T : Type}.
(** The worker's loop body, given the actor's name and the received job. *)
Variable iteration : string -> Job T -> Globals -> option (Iteration T).

(** The engine resumes the actor named [w].  A returned actor and an actor
    blocked in [get] on an empty mailbox leave the state as it is. *)
Definition resume (w : string) (s : Sim T) : option (Sim T) :=
  if decide (w ∈ exited s) then Some s
  else match get w (pending s) with
       | None => Some s
       | Some (job, rest) =>
         match iteration w job (shared s) with
         | None => None
         | Some it =>
           Some (mkSim rest
                   (if continue it then exited s else {[w]} ∪ exited s)
                   (globals it)
                   (if processed it is Some _ then S (completed s) else completed s)
                   (trace s ++ logs it))
         end
       end.

(** [e.run()] under a schedule: the order in which actors are resumed. *)
Fixpoint run (schedule : list string) (s : Sim T) : option (Sim T) :=
  match schedule with
  | [] => Some s
  | w :: schedule' =>
    match resume w s with
    | Some s' => run schedule' s'
    | None => None
    end
  end.

(** All [n] worker actors have returned. *)
Definition all_exited (n : nat) (s : Sim T) : bool :=
  forallb (λ i, bool_decide (worker_name i ∈ exited s)) (seq 0 n).

Definition boot (puts : list (string * Job T)) : Sim T :=
  mkSim puts ∅ globals_init 0 [].
End Engine.

(** ** The summary printed by [main] *)

Record Summary := mkSummary {
  total_jobs : Z;
  total_success : Z;
  total_failures : Z;
  failure_details : option (gmap Z Z)   (* printed only if [total_failures > 0] *)
}.

Definition summary (total_jobs : Z) (g : Globals) : Summary :=
  let total_success := g_total_success g in
  let total_failures := total_jobs - total_success in
  mkSummary total_jobs total_success total_failures
    (if 0 <? total_failures then Some (g_error_counts g) else None).

(** What [main] writes to standard output, as far as the claims go. *)
Inductive Output :=
| SiteNotFound (queue_name : string)
| SimulationSummary (s : Summary).

(** ** [main] of simgrid_cluster_with_errors.cpp *)

Module ErrorsMain.
Section Main.
Context {T : Type} `{Double T}.
Variable RAND_MAX : Z.
Variable rand : nat -> Z.
Variable fuel : nat.
Variable schedule : list string.

Definition MAX_WORKERS : nat := 10.
Definition num_jobs : Z := 20.

Definition main : option (list Output * Sim T) :=
  let s0 := boot (master RAND_MAX rand MAX_WORKERS num_jobs) in
  match run (Errors.worker_iteration fuel) schedule s0 with
  | None => None
  | Some s =>
    if all_exited MAX_WORKERS s then
      let total_jobs := 20 in
      Some ([SimulationSummary (summary total_jobs (shared s))], s)
    else None
  end.
End Main.
End ErrorsMain.

(** ** [main] of simgrid_cluster_with_historical_errors.cpp

    [main] is modelled from the point where the arguments are parsed and the
    JSON file is read: [j] is the parsed object, as the list that
    [j.items()] iterates over. *)

(** [int] arithmetic as the compiled program performs it: the result of an
    addition is reduced to the 32 bits of an [int], two's complement. *)
Definition wrap_int (z : Z) : Z := (z + 2147483648) mod 4294967296 - 2147483648.

(** [std::discrete_distribution<>(first, last)], by its definition in the C++
    standard: the probability of index [i] is [w_i / S], with [S] the sum of
    the weights; an empty range gives the single weight 1. *)
Definition discrete_distribution {T} `{Double T} (weights : list T) : list T :=
  match weights with
  | [] => [of_int 1]
  | _ => let S := foldl dadd (of_int 0) weights in
         map (λ w, ddiv w S) weights
  end.

Record Sampler (T : Type) := mkSampler {
  error_codes : gmap string Z;
  total_weight : Z;
  weights : list T;
  dist : list T
}.
Arguments mkSampler {T} _ _ _ _.
Arguments error_codes {T} _.
Arguments total_weight {T} _.
Arguments weights {T} _.
Arguments dist {T} _.

Module HistoricalMain.
Section Main.
Context {T : Type} `{Double T}.
Variable RAND_MAX : Z.
Variable rand : nat -> Z.
Variable muted : bool.
Variable fuel : nat.
Variable schedule : list string.

Definition MAX_WORKERS : nat := 20.

(** [dictionary[site_name][code] = count] for every item of [j]. *)
Definition build_dictionary (j : list (string * list (string * Z)))
  : gmap string (gmap string Z) :=
  foldl (λ dictionary '(site_name, codes),
           foldl (λ dictionary '(code, count),
                    <[site_name := <[code := count]> (default ∅ (dictionary !! site_name))]>
                      dictionary)
                 dictionary codes)
        ∅ j.

(** From "Extract error codes and counts for the target site" up to the
    construction of [dist].  The locals declared after it ([random_index],
    [error_code], [it], [errorCounts], ...) are initialised and never read. *)
Definition build_sampler (dictionary : gmap string (gmap string Z)) (queue_name : string)
  : Sampler T * list Output :=
  let '(error_codes, diagnostic) :=
    match dictionary !! queue_name with
    | Some codes =>
      (foldl (λ error_codes '(code, count), <[code := count]> error_codes)
             ∅ (map_to_list codes), [])
    | None => (∅, [SiteNotFound queue_name])
    end in
  let total_weight :=
    foldl (λ total_weight pair, wrap_int (total_weight + pair.2)) 0
          (map_to_list error_codes) in
  let weights := map (λ pair : string * Z, of_int pair.2) (map_to_list error_codes) in
  (mkSampler error_codes total_weight weights (discrete_distribution weights),
   diagnostic).

Definition main (j : list (string * list (string * Z))) (queue_name : string)
  (total_jobs : Z) : option (list Output * Sim T) :=
  let dictionary := build_dictionary j in
  let '(sampler, diagnostic) := build_sampler dictionary queue_name in
  let s0 := boot (master RAND_MAX rand MAX_WORKERS total_jobs) in
  match run (Historical.worker_iteration muted fuel) schedule s0 with
  | None => None
  | Some s =>
    if all_exited MAX_WORKERS s then
      Some (diagnostic ++ [SimulationSummary (summary total_jobs (shared s))], s)
    else None
  end.
End Main.
End HistoricalMain.

(** ** Command-line handling of simgrid_cluster_with_historical_errors.cpp *)

(** [std::stoi(str)], by its definition in the C++ standard: [strtol] in
    base 10 skips leading white space, reads an optional sign and the longest
    run of decimal digits, and ignores what follows; no digit at all is
    [std::invalid_argument], a value outside [int] is [std::out_of_range]. *)
Inductive stoi_result :=
| stoi_value (n : Z)
| stoi_invalid_argument
| stoi_out_of_range.

Definition INT_MIN : Z := -2147483648.
Definition INT_MAX : Z := 2147483647.

(** [isspace] in the "C" locale: space, \t, \n, \v, \f, \r. *)
Definition is_space (c : Ascii.ascii) : bool :=
  let n := Z.of_nat (Ascii.nat_of_ascii c) in (n =? 32) || ((9 <=? n) && (n <=? 13)).

Definition digit_value (c : Ascii.ascii) : option Z :=
  let n := Z.of_nat (Ascii.nat_of_ascii c) in
  if (48 <=? n) && (n <=? 57) then Some (n - 48) else None.

Fixpoint skip_spaces (s : string) : string :=
  match s with
  | String c rest => if is_space c then skip_spaces rest else s
  | EmptyString => s
  end.

(** The value of the longest run of digits at the front of [s], on top of
    the digits [seen] so far; [None] when there is no digit. *)
Fixpoint read_digits (seen : option Z) (s : string) : option Z :=
  match s with
  | String c rest =>
    match digit_value c with
    | Some d => read_digits (Some (10 * default 0 seen + d)) rest
    | None => seen
    end
  | EmptyString => seen
  end.

Definition stoi (str : string) : stoi_result :=
  let s := skip_spaces str in
  let '(negative, digits) :=
    match s with
    | String "-"%char rest => (true, rest)
    | String "+"%char rest => (false, rest)
    | _ => (false, s)
    end in
  match read_digits None digits with
  | None => stoi_invalid_argument
  | Some magnitude =>
    let n := if negative then - magnitude else magnitude in
    if (INT_MIN <=? n) && (n <=? INT_MAX) then stoi_value n else stoi_out_of_range
  end.

(** The options of [parseArguments] that take a value. *)
Definition takes_value (key : string) : Prop :=
  key = "--input" ∨ key = "--n" ∨ key = "--queue".

#[export] Instance takes_value_dec key : Decision (takes_value key).
Proof. unfold takes_value. apply _. Defined.

(** The [for] loop of [parseArguments] over [argv[i], argv[i+1], ...]:
    [muted] is the global flag, [args] the local [unordered_map]; the result
    is the flag and either the message of the [runtime_error] thrown or the
    map. *)
Fixpoint scan_arguments (tokens : list string) (muted : bool) (args : gmap string string)
  : bool * (string + gmap string string) :=
  match tokens with
  | [] => (muted, inr args)
  | key :: rest =>
    if decide (key = "--mute") then scan_arguments rest true args
    else if decide (takes_value key) then
      match rest with
      | [] => (muted, inl ("Error: Missing value for " +:+ key))
      | value :: rest' => scan_arguments rest' muted (<[key := value]> args)
      end
    else scan_arguments rest muted args
  end.

(** [parseArguments(argc, argv)]: the final value of the global [muted]
    (initially false), and the message of the exception thrown or the tuple
    [(input_file, n, queue_name)] returned. *)
Definition parseArguments (argv : list string) : bool * (string + (string * Z * string)) :=
  match scan_arguments (drop 1 argv) false ∅ with
  | (muted, inl message) => (muted, inl message)
  | (muted, inr args) =>
    match args !! "--input" with
    | None => (muted, inl "Error: Missing --input argument.")
    | Some input_file =>
      match args !! "--n" with
      | None => (muted, inl "Error: Missing --n argument.")
      | Some number =>
        match args !! "--queue" with
        | None => (muted, inl "Error: Missing --queue argument.")
        | Some queue_name =>
          match stoi number with
          | stoi_value n => (muted, inr (input_file, n, queue_name))
          | stoi_invalid_argument =>
            (muted, inl "Error: Invalid value for --n. It must be an integer.")
          | stoi_out_of_range => (muted, inl "Error: Value for --n is out of range.")
          end
        end
      end
    end
  end.

(** The start of [main], up to the end of the [try] block around
    [parseArguments]: the usage message and exit status 1, a parse error and
    [EXIT_FAILURE], or the three values the rest of [main] works with. *)
Inductive Startup :=
| PrintUsage
| ParseFailure (message : string)
| Arguments_parsed (input_file : string) (total_jobs : Z) (queue_name : string).

Definition main_startup (argv : list string) : bool * Startup :=
  if (Z.of_nat (length argv) <? 5) then (false, PrintUsage)
  else match parseArguments argv with
       | (muted, inl message) => (muted, ParseFailure message)
       | (muted, inr (input_file, n, queue_name)) =>
         (muted, Arguments_parsed input_file n queue_name)
       end.

(** ** Vocabulary of the properties *)

(** A pass of the loop body with its log emptied when [muted]. *)
Definition mute_logs {T} (muted : bool) (it : Iteration T) : Iteration T :=
  mkIteration (continue it) (globals it) (if muted then [] else logs it) (processed it).

(** [ceil(a / b)] for a positive [b]. *)
Definition ceil_div (a b : Z) : Z := (a + b - 1) / b.

(** The sum of all counts of an error histogram (or of a site's table). *)
Definition histogram_total `{Countable K} (m : gmap K Z) : Z :=
  map_fold (λ _ count total, count + total) 0 m.

(** The real jobs among the pending messages. *)
Definition real_jobs {T} (msgs : list (string * Job T)) : nat :=
  length (filter (λ m : string * Job T, name m.2 ≠ "exit") msgs).

(** What holds of every state of a run in which [N] real jobs were sent to a
    pool of [W] workers. *)
Record invariant {T} (N W : nat) (s : Sim T) : Prop := mkInvariant {
  inv_conservation :
    g_total_success (shared s) + histogram_total (g_error_counts (shared s))
    = Z.of_nat (completed s);
  inv_jobs : (completed s + real_jobs (pending s))%nat = N;
  inv_fresh : ∀ w job, (w, job) ∈ pending s → error_code job = 0;
  inv_codes : ∀ code count, g_error_counts (shared s) !! code = Some count → code = -1;
  inv_addressed : ∀ w job, (w, job) ∈ pending s → ∃ k, (k < W)%nat ∧ w = worker_name k;
  inv_sentinel_last : ∀ w l1 job l2,
    inbox w (pending s) = l1 ++ job :: l2 → name job = "exit" → l2 = [];
  inv_exited : ∀ w, w ∈ exited s → inbox w (pending s) = []
}.

(** A run of five jobs on the binary64 instance: each of the twenty workers
    is resumed twice. *)
Definition demo_rand (i : nat) : Z :=
  match i with
  | 0%nat => 0
  | 1%nat => 2147483647
  | 2%nat => 1000000000
  | _ => 1500000000
  end.

Definition demo_schedule : list string :=
  map worker_name (seq 0 20) ++ map worker_name (seq 0 20).

Definition demo_table : list (string * list (string * Z)) :=
  [("SITE_A", [("1099", 3); ("1305", 1); ("1150", 0)]); ("SITE_B", [("1201", 7)])].

Definition demo_main (queue_name : string) : option (list Output * Sim float) :=
  HistoricalMain.main 2147483647 demo_rand false 200 demo_schedule demo_table queue_name 5.

(** The error code a job leaves the slice loop with. *)
Definition job_outcome {T} `{Double T} (fuel : nat) (job : Job T) : option Z :=
  (λ r, error_code r.1.1) <$> Errors.slice_loop fuel "" job (of_int 0).

(** The counter that an outcome with error code [code] goes to. *)
Definition tally (code : Z) (g : Globals) : Z :=
  if decide (code = 0) then g_total_success g
  else default 0 (g_error_counts g !! code).

(** The real jobs among the messages whose outcome is [code]. *)
Definition outcomes {T} (outcome : Job T → option Z) (code : Z)
  (msgs : list (string * Job T)) : nat :=
  length (filter (λ m : string * Job T, name m.2 ≠ "exit" ∧ outcome m.2 = Some code) msgs).

(** What a state of a run keeps of the messages [puts] that were sent to a
    pool of [W] workers: each counter, with the outcomes still pending, makes
    up the outcomes of all the jobs sent; no counter is negative and a
    histogram entry exists only once counted; a worker that has not returned
    still has its sentinel coming. *)
Record ledger {T} (outcome : Job T → option Z) (puts : list (string * Job T)) (W : nat)
  (s : Sim T) : Prop := mkLedger {
  ledger_tally : ∀ code,
    tally code (shared s) + Z.of_nat (outcomes outcome code (pending s))
    = Z.of_nat (outcomes outcome code puts);
  ledger_positive : ∀ code count, g_error_counts (shared s) !! code = Some count → 0 < count;
  ledger_success : 0 ≤ g_total_success (shared s);
  ledger_sentinel : ∀ k, (k < W)%nat → worker_name k ∉ exited s →
    ∃ job, job ∈ inbox (worker_name k) (pending s) ∧ name job = "exit"
}.

(** A command line, argument by argument. *)
Inductive Argument :=
| MuteFlag
| ValueOption (key value : string)
| OtherToken (token : string).

Definition tokens_of (a : Argument) : list string :=
  match a with
  | MuteFlag => ["--mute"]
  | ValueOption key value => [key; value]
  | OtherToken token => [token]
  end.

Definition command_line (arguments : list Argument) : list string :=
  concat (map tokens_of arguments).

Definition proper_argument (a : Argument) : Prop :=
  match a with
  | MuteFlag => True
  | ValueOption key value => takes_value key
  | OtherToken token => token ≠ "--mute" ∧ ¬ takes_value token
  end.

Definition is_mute (a : Argument) : bool :=
  match a with MuteFlag => true | _ => false end.

(** The options a command line sets, the last setting of each winning. *)
Definition settings (arguments : list Argument) (args : gmap string string)
  : gmap string string :=
  foldl (λ args a, match a with ValueOption key value => <[key := value]> args | _ => args end)
        args arguments.


(** The five jobs of [demo_main], the workers resumed from the last to the
    first. *)
Definition demo_schedule_backwards : list string := reverse demo_schedule.

(** Twenty jobs on the binary64 instance, each of the ten workers resumed
    three times. *)
Definition demo_errors_main : option (list Output * Sim float) :=
  ErrorsMain.main 2147483647 demo_rand 200
    (map worker_name (seq 0 10) ++ map worker_name (seq 0 10) ++ map worker_name (seq 0 10)).

(** ** Binary64 arithmetic

    Every finite double is an integer number of units of 2^-1074, the
    smallest positive double.  The definitions below state the arithmetic
    of non-negative doubles on these integers; the section "Binary64
    arithmetic" of the properties relates them to the operations of the
    primitive floats, through their specification in the standard library
    ([SpecFloat]: [SFadd], [SFsub], [SFmul], [SFdiv], [SFcompare]). *)

(** Number of binary digits of a positive integer. *)
Definition digits (V : Z) : Z := Z.log2 V + 1.

(** Exponent of the last place kept when [V] is cut to 53 digits. *)
Definition last_place (V : Z) : Z := Z.max (digits V - 53) 0.

(** [V / 2^t] rounded to the nearest integer, ties to even. *)
Definition round_even (V t : Z) : Z :=
  let q := V / 2 ^ t in
  let rem := V mod 2 ^ t in
  if 2 * rem <? 2 ^ t then q
  else if 2 ^ t <? 2 * rem then q + 1
  else if Z.even q then q else q + 1.

(** Rounding to nearest, ties to even, of a non-negative number of units. *)
Definition RN (V : Z) : Z := round_even V (last_place V) * 2 ^ last_place V.

Definition representable (V : Z) : Prop := V mod 2 ^ last_place V = 0.

(** The overflow threshold 2^1024, in units. *)
Definition top : Z := 2 ^ 2098.
Arguments top : simpl never.

(** The value of a non-negative double, in units; [+infinity] counts as
    [top], and zeros of either sign as 0. *)
Definition ival (x : spec_float) : Z :=
  match x with
  | S754_finite false m e => Z.pos m * 2 ^ (e + 1074)
  | S754_infinity false => top
  | _ => 0
  end.

Definition nonneg (x : spec_float) : Prop :=
  match x with
  | S754_zero _ | S754_finite false _ _ | S754_infinity false => True
  | _ => False
  end.

Definition finite_nonneg (x : spec_float) : Prop :=
  match x with
  | S754_zero _ | S754_finite false _ _ => True
  | _ => False
  end.

Definition is_finite_nonneg (x : spec_float) : bool :=
  match x with
  | S754_zero _ | S754_finite false _ _ => true
  | _ => false
  end.

(** The double of a representable number of units. *)
Definition of_ival (V : Z) : spec_float :=
  let t := last_place V in
  match V / 2 ^ t with
  | Z.pos m => if t - 1074 <=? 971 then S754_finite false m (t - 1074)
               else S754_infinity false
  | _ => S754_zero false
  end.

(** Distance from a double to the next one above, in units. *)
Definition ulp (x : spec_float) : Z :=
  match x with
  | S754_finite _ _ e => 2 ^ (e + 1074)
  | _ => 1
  end.

(** [k] steps of [shr_1] on the mantissa [M]: the quotient by [2^k], and on
    which side of one half the remainder lies. *)
Record shifted (M k : Z) (mrs : shr_record) : Prop := {
  shifted_m : shr_m mrs = M / 2 ^ k;
  shifted_r : shr_r mrs = true ↔ 2 ^ k ≤ 2 * (M mod 2 ^ k);
  shifted_s : shr_s mrs = true ↔ M mod 2 ^ k ≠ 0 ∧ 2 * (M mod 2 ^ k) ≠ 2 ^ k
}.

(** The position of a remainder: two more bits under the quotient. *)
Definition loc_code (l : location) : Z :=
  match l with
  | loc_Exact => 0
  | loc_Inexact Lt => 1
  | loc_Inexact Eq => 2
  | loc_Inexact Gt => 3
  end.

(** The same on the primitive doubles. *)
Definition fval (x : float) : Z := ival (Prim2SF x).
Definition fnonneg (x : float) : Prop := nonneg (Prim2SF x).
Definition ffinite (x : float) : Prop := finite_nonneg (Prim2SF x).
Definition fulp (x : float) : Z := ulp (Prim2SF x).

(** [y] is the double just above [x]. *)
Definition just_above (x y : float) : bool :=
  is_finite_nonneg (Prim2SF x) && is_finite_nonneg (Prim2SF y)
  && (fval x + fulp x =? fval y).

(** ** The slice loop on binary64 *)

(** [elapsed] after [k] full slices: 0.1 added [k] times to 0. *)
Fixpoint grid (k : nat) : float :=
  match k with
  | O => of_int 0
  | S k' => dadd (grid k') slice_literal
  end.

(** [elapsed] when the ceiling test first holds: 0.1 added 101 times,
    10.09999999999998 (one hundred additions give 9.99999999999998). *)
Definition ceiling_reached : float := grid 101.

(** What the analysis of the loop uses of the [k]-th slice, from [a] to [b];
    each item is a computation on concrete doubles: [a < b], and [a] is
    below the ceiling; a load of exactly [b] is reached in this slice; the
    double just below [b] is less than 0.1 away from [a], the double just
    above [b] is not, and the differences up to there fit in 53 digits. *)
Definition grid_ok (k : nat) : bool :=
  let a := grid k in
  let b := grid (S k) in
  let below := next_down b in
  let above := next_up b in
  is_finite_nonneg (Prim2SF a)
  && just_above below b && just_above b above
  && dlt a b && negb (dge a (of_int 10))
  && PrimFloat.Leibniz.eqb (dadd a (dmin slice_literal (dsub b a))) b
  && dlt (dsub below a) slice_literal
  && negb (dlt (dsub above a) slice_literal)
  && ((fval a =? 0) || (fval below - fval a <? 2 ^ 53 * fulp a)).

(** * Properties *)

(** ** The two workers agree *)

Section WorkersAgree.
Context {T : Type} `{Double T}.

Lemma slice_loop_step fuel w (job : Job T) elapsed :
  Errors.slice_loop (S fuel) w job elapsed =
  if dlt elapsed (load job) then
    if dge elapsed (of_int 10) then
      Some (set_error_code job (-1), elapsed, [WorkerAborting w (name job)])
    else
      Errors.slice_loop fuel w job
        (dadd elapsed (dmin slice_literal (dsub (load job) elapsed)))
  else Some (job, elapsed, []).
Proof. reflexivity. Qed.

Lemma slice_loop_agree muted fuel w (job : Job T) elapsed :
  Historical.slice_loop muted fuel w job elapsed =
  (λ r, (r.1, Historical.unless_muted muted r.2)) <$> Errors.slice_loop fuel w job elapsed.
Proof.
  revert elapsed. induction fuel as [|fuel IH]; intros elapsed; simpl; [done|].
  destruct (dlt elapsed (load job)); [|by destruct muted].
  destruct (dge elapsed (of_int 10)); [done|]. apply IH.
Qed.

(** The warning list of the slice loop is empty or the single abort line,
    and the job comes back unchanged but for its error code. *)
Lemma slice_loop_result fuel w (job job' : Job T) elapsed elapsed' warn :
  Errors.slice_loop fuel w job elapsed = Some (job', elapsed', warn) →
  (job' = job ∧ warn = [])
  ∨ (job' = set_error_code job (-1) ∧ warn = [WorkerAborting w (name job)]).
Proof.
  revert elapsed. induction fuel as [|fuel IH]; intros elapsed; simpl; [done|].
  destruct (dlt elapsed (load job)); [|naive_solver].
  destruct (dge elapsed (of_int 10)); [naive_solver|]. apply IH.
Qed.

Lemma worker_iteration_agree muted fuel w (job : Job T) g :
  Historical.worker_iteration muted fuel w job g =
  mute_logs muted <$> Errors.worker_iteration fuel w job g.
Proof.
  unfold Historical.worker_iteration, Errors.worker_iteration.
  case_decide; [by destruct muted|].
  rewrite slice_loop_agree.
  destruct (Errors.slice_loop fuel w job (of_int 0)) as [[[job' elapsed] warn]|] eqn:E;
    simpl; [|done].
  unfold mute_logs; simpl. do 2 f_equal.
  apply slice_loop_result in E as [[-> ->]|[-> ->]]; by destruct muted.
Qed.
End WorkersAgree.

(** C10: for the same received message, the worker of
    simgrid_cluster_with_historical_errors.cpp and the worker of
    simgrid_cluster_with_errors.cpp either both run out of fuel or both finish
    one pass of their loop with the same final error code and elapsed time
    ([processed]), the same counters ([globals]) and the same decision to go
    on ([continue]); [muted] only empties the log. *)
Theorem workers_equivalent :
  ∀ (T : Type) (D : Double T) (muted : bool) (fuel : nat) (w : string)
    (job : Job T) (g : Globals),
    Historical.worker_iteration muted fuel w job g =
    mute_logs muted <$> Errors.worker_iteration fuel w job g.
Proof. intros. apply worker_iteration_agree. Qed.

(** ** The worker's message loop *)

Section WorkerLoop.
Context {T : Type} `{Double T}.

Lemma errors_iteration_exit fuel w (job : Job T) g :
  name job = "exit" →
  Errors.worker_iteration fuel w job g = Some (mkIteration false g [WorkerExiting w] None).
Proof. intros E. unfold Errors.worker_iteration. by rewrite decide_True. Qed.

Lemma errors_iteration_job fuel w (job : Job T) g it :
  name job ≠ "exit" →
  Errors.worker_iteration fuel w job g = Some it →
  continue it = true ∧
  ∃ code elapsed,
    (code = error_code job ∨ code = -1) ∧
    processed it = Some (set_error_code job code, elapsed) ∧
    globals it = update_counters code g.
Proof.
  intros E. unfold Errors.worker_iteration. rewrite decide_False by done.
  destruct (Errors.slice_loop fuel w job (of_int 0)) as [[[job' elapsed] warn]|] eqn:L;
    [|done].
  intros [= <-]; simpl. split; [done|].
  apply slice_loop_result in L as [[-> ->]|[-> ->]].
  - exists (error_code job), elapsed. by destruct job; auto.
  - exists (-1), elapsed. auto.
Qed.

Lemma historical_iteration_job muted fuel w (job : Job T) g it :
  name job ≠ "exit" →
  Historical.worker_iteration muted fuel w job g = Some it →
  continue it = true ∧
  ∃ code elapsed,
    (code = error_code job ∨ code = -1) ∧
    processed it = Some (set_error_code job code, elapsed) ∧
    globals it = update_counters code g.
Proof.
  intros E. rewrite worker_iteration_agree.
  destruct (Errors.worker_iteration fuel w job g) as [it'|] eqn:I; [|done].
  intros [= <-]. by apply (errors_iteration_job fuel w job g it').
Qed.

Lemma historical_iteration_exit muted fuel w (job : Job T) g :
  name job = "exit" →
  Historical.worker_iteration muted fuel w job g =
  Some (mkIteration false g (Historical.unless_muted muted [WorkerExiting w]) None).
Proof. intros E. unfold Historical.worker_iteration. by rewrite decide_True. Qed.
End WorkerLoop.

(** C9: in both programs one pass of the worker's loop body leaves the loop
    ([continue] is false) exactly when the received message is the
    termination sentinel, the message named "exit"; that pass leaves the
    counters as they were and records no job.  Every other message, whatever
    error code its processing ends with, is counted once and the loop goes
    on. *)
Theorem sentinel_only_exit :
  ∀ (T : Type) (D : Double T) (muted : bool) (fuel : nat) (w : string)
    (job : Job T) (g : Globals) (it : Iteration T),
    Errors.worker_iteration fuel w job g = Some it
    ∨ Historical.worker_iteration muted fuel w job g = Some it →
    (continue it = false ↔ name job = "exit")
    ∧ (continue it = false → globals it = g ∧ processed it = None)
    ∧ (continue it = true →
       ∃ job' elapsed, processed it = Some (job', elapsed)
                       ∧ globals it = update_counters (error_code job') g).
Proof.
  intros T D muted fuel w job g it Hit.
  destruct (decide (name job = "exit")) as [E|E].
  - assert (continue it = false ∧ globals it = g ∧ processed it = None) as (C & G & P).
    { destruct Hit as [Hit|Hit].
      - rewrite errors_iteration_exit in Hit by done. by injection Hit as <-.
      - rewrite historical_iteration_exit in Hit by done. by injection Hit as <-. }
    rewrite C. split_and!; [done|done|done].
  - assert (continue it = true ∧
            ∃ code elapsed, (code = error_code job ∨ code = -1) ∧
              processed it = Some (set_error_code job code, elapsed) ∧
              globals it = update_counters code g) as (C & code & elapsed & _ & P & G).
    { destruct Hit as [Hit|Hit];
        [by eapply errors_iteration_job|by eapply historical_iteration_job]. }
    rewrite C. split_and!; [split; [done|by intros ?]|done|].
    intros _. by exists (set_error_code job code), elapsed.
Qed.

Lemma sentinel_only_exit_witness :
  let it := mkIteration (T:=float) false globals_init [] None in
  (continue it = false ↔ name (new_Job (T:=float) "exit" 0%float) = "exit")
  ∧ (continue it = false → globals it = globals_init ∧ processed it = None)
  ∧ (continue it = true →
     ∃ job' elapsed, processed it = Some (job', elapsed)
                     ∧ globals it = update_counters (error_code job') globals_init).
Proof.
  apply (sentinel_only_exit float binary64 true 0 "worker0"
           (new_Job "exit" 0%float) globals_init).
  right. reflexivity.
Defined.

(** A failed real job does not stop the worker: on the binary64 instance a
    job of load 12 ends with the timeout code and the loop goes on. *)
Example timed_out_job_continues :
  (continue <$> Historical.worker_iteration false 200 "worker3"
                  (new_Job "job3" 12%float) globals_init) = Some true
  ∧ (fmap (fst : _ → Job float) ∘ processed
       <$> Errors.worker_iteration 200 "worker3" (new_Job "job3" 12%float) globals_init)
    = Some (Some (mkJob "job3" 12%float (-1))).
Proof. split; vm_compute; reflexivity. Qed.

(** ** Binary64 arithmetic *)

Lemma digits_spec V : 0 < V → 2 ^ (digits V - 1) ≤ V < 2 ^ digits V.
Proof.
  intros HV. unfold digits. replace (Z.log2 V + 1 - 1) with (Z.log2 V) by lia.
  replace (Z.log2 V + 1) with (Z.succ (Z.log2 V)) by lia. by apply Z.log2_spec.
Qed.

Lemma digits_unique V d : 0 < d → 2 ^ (d - 1) ≤ V < 2 ^ d → digits V = d.
Proof.
  intros Hd HV. unfold digits. rewrite (Z.log2_unique V (d - 1)); [lia|lia|].
  by replace (Z.succ (d - 1)) with d by lia.
Qed.

Lemma digits_pos V : 0 < digits V.
Proof. unfold digits. pose proof (Z.log2_nonneg V). lia. Qed.

Lemma digits_le V V' : V ≤ V' → digits V ≤ digits V'.
Proof. intros. unfold digits. pose proof (Z.log2_le_mono V V'). lia. Qed.

Lemma digits_shift V k : 0 < V → 0 ≤ k → digits (V * 2 ^ k) = digits V + k.
Proof. intros. unfold digits. rewrite Z.log2_mul_pow2 by lia. lia. Qed.

Lemma last_place_nonneg V : 0 ≤ last_place V.
Proof. unfold last_place. lia. Qed.

Lemma last_place_le V V' : V ≤ V' → last_place V ≤ last_place V'.
Proof. intros H. apply digits_le in H. unfold last_place. lia. Qed.

Lemma pow2_pos t : 0 ≤ t → 0 < 2 ^ t.
Proof. intros. by apply Z.pow_pos_nonneg. Qed.

Lemma round_even_bounds V t :
  0 ≤ t → V / 2 ^ t ≤ round_even V t ≤ V / 2 ^ t + 1.
Proof.
  intros Ht. unfold round_even.
  repeat match goal with |- context [if ?b then _ else _] => destruct b end; lia.
Qed.

Lemma round_even_exact V t : 0 ≤ t → V mod 2 ^ t = 0 → round_even V t = V / 2 ^ t.
Proof.
  intros Ht Hm. unfold round_even. rewrite Hm. pose proof (pow2_pos t Ht).
  destruct (Z.ltb_spec (2 * 0) (2 ^ t)); [done|lia].
Qed.

Lemma round_even_mono V V' t : 0 ≤ t → V ≤ V' → round_even V t ≤ round_even V' t.
Proof.
  intros Ht HV. pose proof (pow2_pos t Ht) as HP.
  pose proof (Z.div_le_mono V V' (2 ^ t) HP HV) as Hq.
  destruct (decide (V / 2 ^ t = V' / 2 ^ t)) as [E|N].
  - pose proof (Z.div_mod V (2 ^ t) ltac:(lia)) as D.
    pose proof (Z.div_mod V' (2 ^ t) ltac:(lia)) as D'.
    assert (V mod 2 ^ t ≤ V' mod 2 ^ t) as Hr by (rewrite E in D; lia).
    unfold round_even. rewrite E.
    repeat match goal with |- context [Z.ltb ?a ?b] => destruct (Z.ltb_spec a b) end;
      destruct (Z.even (V' / 2 ^ t)); lia.
  - pose proof (round_even_bounds V t Ht). pose proof (round_even_bounds V' t Ht). lia.
Qed.

Lemma RN_exact V : representable V → RN V = V.
Proof.
  unfold representable, RN. intros H. pose proof (last_place_nonneg V) as Ht.
  rewrite round_even_exact by done.
  pose proof (Z.div_mod V (2 ^ last_place V) ltac:(pose proof (pow2_pos _ Ht); lia)). lia.
Qed.

(** the quotient kept has at most 53 digits *)
Lemma quotient_53 V : 0 ≤ V → V / 2 ^ last_place V < 2 ^ 53.
Proof.
  intros HV. pose proof (last_place_nonneg V) as Ht. pose proof (pow2_pos _ Ht) as HP.
  apply Z.div_lt_upper_bound; [done|].
  destruct (decide (V = 0)) as [->|]; [lia|].
  pose proof (digits_spec V ltac:(lia)) as [_ Hd].
  rewrite <- Z.pow_add_r by lia.
  eapply Z.lt_le_trans; [exact Hd|]. apply Z.pow_le_mono_r; [lia|]. unfold last_place. lia.
Qed.

Lemma quotient_52 V : 0 < last_place V → 2 ^ 52 ≤ V / 2 ^ last_place V.
Proof.
  intros Ht. pose proof (pow2_pos (last_place V) ltac:(lia)) as HP.
  apply Z.div_le_lower_bound; [done|].
  assert (0 < V) as HV.
  { destruct (Z.lt_ge_cases 0 V); [done|]. unfold last_place, digits in Ht.
    rewrite Z.log2_nonpos in Ht by lia. lia. }
  pose proof (digits_spec V HV) as [Hd _].
  rewrite Z.mul_comm, <- Z.pow_add_r by lia.
  eapply Z.le_trans; [|exact Hd]. apply Z.pow_le_mono_r; [lia|]. unfold last_place in *. lia.
Qed.

Lemma RN_upper V : 0 ≤ V → RN V ≤ 2 ^ (53 + last_place V).
Proof.
  intros HV. unfold RN. pose proof (last_place_nonneg V) as Ht.
  pose proof (round_even_bounds V _ Ht) as [_ Hu]. pose proof (quotient_53 V HV).
  rewrite Z.pow_add_r by lia. pose proof (pow2_pos _ Ht). nia.
Qed.

Lemma RN_lower V : 0 < last_place V → 2 ^ (52 + last_place V) ≤ RN V.
Proof.
  intros Ht. unfold RN.
  pose proof (round_even_bounds V _ (last_place_nonneg V)) as [Hl _].
  pose proof (quotient_52 V Ht).
  rewrite Z.pow_add_r by lia. pose proof (pow2_pos (last_place V) ltac:(lia)). nia.
Qed.

Lemma RN_mono V V' : 0 ≤ V → V ≤ V' → RN V ≤ RN V'.
Proof.
  intros HV HVV. pose proof (last_place_le V V' HVV) as Ht.
  pose proof (last_place_nonneg V) as Ht0.
  destruct (decide (last_place V = last_place V')) as [E|N].
  - unfold RN. rewrite <- E. pose proof (round_even_mono V V' _ Ht0 HVV).
    pose proof (pow2_pos _ Ht0). nia.
  - pose proof (RN_upper V HV). pose proof (RN_lower V' ltac:(lia)).
    assert (2 ^ (53 + last_place V) ≤ 2 ^ (52 + last_place V')); [|lia].
    apply Z.pow_le_mono_r; lia.
Qed.

Lemma RN_nonneg V : 0 ≤ V → 0 ≤ RN V.
Proof.
  intros HV. unfold RN. pose proof (last_place_nonneg V) as Ht.
  pose proof (round_even_bounds V _ Ht) as [Hl _]. pose proof (pow2_pos _ Ht).
  pose proof (Z.div_pos V (2 ^ last_place V) HV ltac:(lia)). nia.
Qed.
Lemma digits2_pos_digits p : Z.pos (digits2_pos p) = digits (Z.pos p).
Proof.
  unfold digits. induction p as [p IH|p IH|]; simpl digits2_pos.
  - rewrite Pos2Z.inj_succ, IH. rewrite (Pos2Z.inj_xI p), Z.log2_succ_double by lia. lia.
  - rewrite Pos2Z.inj_succ, IH. rewrite (Pos2Z.inj_xO p), Z.log2_double by lia. lia.
  - done.
Qed.

Lemma fexp_eq e : fexp prec emax e = Z.max (e - 53) (-1074).
Proof. done. Qed.

Lemma shr_1_spec m r s :
  0 ≤ m → shr_1 (Build_shr_record m r s) = Build_shr_record (m / 2) (Z.odd m) (r || s).
Proof.
  intros Hm. destruct m as [|[p|p|]|p]; try lia; try done.
  - simpl shr_1. f_equal. rewrite Pos2Z.inj_xI.
    rewrite Z.mul_comm, Z.div_add_l by lia. done.
  - simpl shr_1. f_equal. rewrite Pos2Z.inj_xO.
    by rewrite Z.mul_comm, Z.div_mul by lia.
Qed.

Lemma iter_pos_iter {A} (f : A → A) p x : SpecFloat.iter_pos f p x = Pos.iter f x p.
Proof.
  revert x. induction p as [p IH|p IH|]; intros x; simpl; [|by rewrite !IH|done].
  by rewrite !IH, <- !Pos.iter_swap.
Qed.


Lemma shifted_0 M : shifted M 0 (Build_shr_record M false false).
Proof.
  split; simpl; rewrite ?Z.div_1_r, ?Z.mod_1_r; [done|split; [done|lia]|split; [done|lia]].
Qed.

Lemma shifted_step M k mrs :
  0 ≤ M → 0 ≤ k → shifted M k mrs → shifted M (k + 1) (shr_1 mrs).
Proof.
  intros HM Hk [Hm Hr Hs]. destruct mrs as [m r s]. simpl in Hm, Hr, Hs.
  pose proof (pow2_pos k Hk) as HP.
  assert (0 ≤ m) as Hm0 by (subst m; by apply Z.div_pos).
  rewrite shr_1_spec by done.
  assert (2 ^ (k + 1) = 2 ^ k * 2) as E2 by (by rewrite Z.pow_add_r, Z.pow_1_r by lia).
  pose proof (Z.rem_mul_r M (2 ^ k) 2 ltac:(lia) ltac:(lia)) as Hrem.
  pose proof (Z.mod_pos_bound M (2 ^ k) HP) as Hb.
  pose proof (Z.mod_pos_bound (M / 2 ^ k) 2 ltac:(lia)) as Hb2.
  rewrite <- Hm in Hrem, Hb2.
  assert (Z.odd m = true ↔ m mod 2 = 1) as Hodd.
  { rewrite Zmod_odd. destruct (Z.odd m); split; (done || lia). }
  split; simpl; rewrite E2.
  - by rewrite <- Z.div_div, Hm by lia.
  - rewrite Hrem, Hodd. split; nia.
  - rewrite Hrem. rewrite orb_true_iff, Hr, Hs.
    assert (m mod 2 = 0 ∨ m mod 2 = 1) as [E|E] by lia; rewrite E; split; nia.
Qed.

Lemma shifted_round M k mrs :
  0 ≤ k → shifted M k mrs →
  round_nearest_even (shr_m mrs) (loc_of_shr_record mrs) = round_even M k.
Proof.
  intros Hk [Hm Hr Hs]. destruct mrs as [m r s]. simpl in *. unfold round_even.
  rewrite <- Hm. pose proof (pow2_pos k Hk).
  destruct (Z.ltb_spec (2 * (M mod 2 ^ k)) (2 ^ k)) as [L|L].
  - assert (r = false) as -> by (destruct r; [|done]; lia). by destruct s.
  - assert (r = true) as -> by (apply Hr; lia).
    destruct (Z.ltb_spec (2 ^ k) (2 * (M mod 2 ^ k))) as [G|G].
    + assert (s = true) as -> by (apply Hs; lia). done.
    + assert (s = false) as -> by (destruct s; [|done]; lia). done.
Qed.

Lemma round_even_scale M n a :
  0 ≤ n → 0 ≤ a → round_even (M * 2 ^ a) (n + a) = round_even M n.
Proof.
  intros Hn Ha. unfold round_even.
  pose proof (pow2_pos n Hn). pose proof (pow2_pos a Ha).
  rewrite Z.pow_add_r by done.
  rewrite Z.div_mul_cancel_r by lia.
  rewrite Zmult_mod_distr_r.
  repeat match goal with |- context [Z.ltb ?x ?y] => destruct (Z.ltb_spec x y) end;
    try done; nia.
Qed.

Lemma last_place_scaled m t :
  0 ≤ t → 0 < m < 2 ^ 53 → t = 0 ∨ 2 ^ 52 ≤ m → last_place (m * 2 ^ t) = t.
Proof.
  intros Ht Hm Hn. unfold last_place. rewrite digits_shift by lia.
  destruct Hn as [->|Hn].
  - pose proof (digits_spec m ltac:(lia)) as [Hd _].
    assert (digits m - 1 < 53); [|lia].
    apply (Z.pow_lt_mono_r_iff 2); lia.
  - rewrite (digits_unique m 53); [lia|lia|]. replace (53 - 1) with 52 by lia. lia.
Qed.

Lemma of_ival_scaled m t :
  0 ≤ t → 0 < m < 2 ^ 53 → t = 0 ∨ 2 ^ 52 ≤ m →
  of_ival (m * 2 ^ t) =
    if t - 1074 <=? 971 then S754_finite false (Z.to_pos m) (t - 1074)
    else S754_infinity false.
Proof.
  intros Ht Hm Hn. unfold of_ival. rewrite last_place_scaled by done.
  rewrite Z.div_mul by (pose proof (pow2_pos t Ht); lia).
  destruct m as [|p|p]; try lia. done.
Qed.

Lemma representable_scaled m t :
  0 ≤ t → 0 < m < 2 ^ 53 → t = 0 ∨ 2 ^ 52 ≤ m → representable (m * 2 ^ t).
Proof.
  intros Ht Hm Hn. unfold representable. rewrite last_place_scaled by done.
  apply Z.mod_mul. pose proof (pow2_pos t Ht). lia. 
Qed.

(** [shr_fexp] from a located mantissa: the digits beyond the 53rd are
    shifted out and their position with respect to one half is kept *)
Lemma shifted_more M k mrs p :
  0 ≤ M → 0 ≤ k → shifted M k mrs →
  shifted M (Z.pos p + k) (SpecFloat.iter_pos shr_1 p mrs).
Proof.
  intros HM Hk Hs. rewrite iter_pos_iter, Pos2Nat.inj_iter.
  rewrite <- (positive_nat_Z p). generalize (Pos.to_nat p). intros n.
  induction n as [|n IH]; [done|].
  rewrite Nat2Z.inj_succ. simpl.
  replace (Z.succ (Z.of_nat n) + k) with (Z.of_nat n + k + 1) by lia.
  apply shifted_step; [done|lia|done].
Qed.

Lemma shifted_digits M k mrs :
  0 ≤ k → shifted M k mrs → 0 < shr_m mrs → digits M = digits (shr_m mrs) + k.
Proof.
  intros Hk [Hm _ _] Hq. rewrite Hm in *. pose proof (pow2_pos k Hk) as HP.
  pose proof (digits_spec _ Hq) as [Hl Hu]. pose proof (digits_pos (M / 2 ^ k)).
  apply digits_unique; [lia|]. split.
  - replace (digits (M / 2 ^ k) + k - 1) with (digits (M / 2 ^ k) - 1 + k) by lia.
    rewrite Z.pow_add_r by lia.
    pose proof (Z.mul_div_le M (2 ^ k) HP). nia.
  - rewrite Z.pow_add_r by lia.
    pose proof (Z.mul_succ_div_gt M (2 ^ k) HP). nia.
Qed.

(** rounding a located mantissa: [binary_round_aux] computes [RN] *)
Lemma binary_round_aux_located q e loc M k :
  0 < q → 0 ≤ k → 0 ≤ M → shifted M k (shr_record_of_loc q loc) →
  -1074 ≤ e - k → e ≤ fexp prec emax (Zdigits2 q + e) →
  binary_round_aux prec emax false q e loc = of_ival (RN (M * 2 ^ (e - k + 1074))).
Proof.
  intros Hq Hk HM Hs He Hc. destruct q as [|p|p]; try lia.
  simpl Zdigits2 in Hc. rewrite digits2_pos_digits, fexp_eq in Hc.
  pose proof (digits_spec (Z.pos p) Hq) as Hd.
  pose proof (digits_pos (Z.pos p)) as Hd0.
  assert (shr_m (shr_record_of_loc (Z.pos p) loc) = Z.pos p) as Em by (by destruct loc as [|[]]).
  pose proof (shifted_digits M k _ Hk Hs ltac:(lia)) as HdM. rewrite Em in HdM.
  assert (0 < M) as HM0.
  { destruct (decide (M = 0)) as [->|]; [|lia]. destruct Hs as [Hs _ _].
    rewrite Em, Z.div_0_l in Hs by (pose proof (pow2_pos k Hk); lia). lia. }
  unfold binary_round_aux, shr_fexp. simpl Zdigits2.
  rewrite digits2_pos_digits, fexp_eq.
  set (d := digits (Z.pos p)) in *.
  set (c := Z.max (d + e - 53) (-1074)) in *.
  assert (last_place (M * 2 ^ (e - k + 1074)) = c + 1074) as Hlast.
  { unfold last_place. rewrite digits_shift by lia. lia. }
  (* the first shift *)
  assert (∃ mrs, shr (shr_record_of_loc (Z.pos p) loc) e (c - e) = (mrs, c)
                 ∧ shifted M (c - e + k) mrs) as (mrs & -> & Hs').
  { destruct (c - e) as [|n|n] eqn:En; [| |lia].
    - exists (shr_record_of_loc (Z.pos p) loc). split; [|done].
      unfold shr. f_equal. lia.
    - eexists. split; [unfold shr; f_equal; lia|]. by apply shifted_more. }
  rewrite (shifted_round M (c - e + k)) by (done || lia).
  unfold RN. rewrite Hlast.
  replace (c + 1074) with (c - e + k + (e - k + 1074)) at 1 by lia.
  rewrite round_even_scale by lia.
  set (m := round_even M (c - e + k)).
  (* the mantissa kept has at most 53 digits, and 53 unless subnormal *)
  assert (M / 2 ^ (c - e + k) = Z.pos p / 2 ^ (c - e)) as Equo.
  { destruct Hs as [Hs _ _]. rewrite Em in Hs. rewrite Hs.
    rewrite Z.add_comm, Z.pow_add_r, Z.div_div by (try apply pow2_pos; lia). done. }
  assert (0 < Z.pos p / 2 ^ (c - e) < 2 ^ 53
          ∧ (c = -1074 ∨ 2 ^ 52 ≤ Z.pos p / 2 ^ (c - e))) as [Hquo Hnorm].
  { destruct (decide (c = e)) as [E|N].
    - replace (c - e) with 0 by lia. rewrite Z.div_1_r.
      assert (d ≤ 53) by lia. split.
      + split; [lia|]. eapply Z.lt_le_trans; [apply Hd|]. apply Z.pow_le_mono_r; lia.
      + destruct (decide (c = -1074)); [by left|right].
        replace 52 with (d - 1) by lia. apply Hd.
    - assert (c = d + e - 53) as Ec by lia.
      pose proof (pow2_pos (c - e) ltac:(lia)) as HP.
      assert (2 ^ 52 * 2 ^ (c - e) ≤ Z.pos p < 2 ^ 53 * 2 ^ (c - e)) as Hp.
      { rewrite <- !Z.pow_add_r by lia.
        replace (52 + (c - e)) with (d - 1) by lia.
        by replace (53 + (c - e)) with d by lia. }
      assert (2 ^ 52 ≤ Z.pos p / 2 ^ (c - e)) by (apply Z.div_le_lower_bound; lia).
      assert (Z.pos p / 2 ^ (c - e) < 2 ^ 53) by (apply Z.div_lt_upper_bound; lia).
      split; [lia|by right]. }
  pose proof (round_even_bounds M (c - e + k) ltac:(lia)) as Hb. fold m in Hb.
  rewrite Equo in Hb.
  destruct (decide (m = 2 ^ 53)) as [E|N].
  - rewrite E.
    replace (2 ^ 53 * 2 ^ (c + 1074)) with (2 ^ 52 * 2 ^ (c + 1074 + 1))
      by (rewrite (Z.pow_add_r 2 _ 1) by lia; lia).
    rewrite of_ival_scaled by lia.
    assert (Zdigits2 (2 ^ 53) = 54) as -> by done.
    rewrite fexp_eq.
    replace (Z.max (54 + c - 53) (-1074) - c) with 1 by lia.
    change (shr (shr_record_of_loc (2 ^ 53) loc_Exact) c 1)
      with (shr_1 (Build_shr_record (2 ^ 53) false false), c + 1).
    rewrite shr_1_spec by lia. cbv beta iota. cbn [shr_m].
    change (2 ^ 53 / 2) with (Z.pos (Z.to_pos (2 ^ 52))). cbv iota.
    change (emax - prec) with 971.
    by replace (c + 1074 + 1 - 1074) with (c + 1) by lia.
  - assert (0 < m < 2 ^ 53) as Hm' by lia.
    rewrite of_ival_scaled by lia.
    destruct m as [|r|r] eqn:Er; try lia.
    simpl Zdigits2. rewrite digits2_pos_digits, fexp_eq.
    assert (Z.max (digits (Z.pos r) + c - 53) (-1074) - c = 0) as ->.
    { pose proof (digits_spec (Z.pos r) ltac:(lia)) as [Hl Hu].
      pose proof (digits_pos (Z.pos r)).
      assert (digits (Z.pos r) ≤ 53).
      { assert (digits (Z.pos r) - 1 < 53); [|lia]. apply (Z.pow_lt_mono_r_iff 2); lia. }
      destruct Hnorm as [?|Hn]; [lia|].
      assert (52 < digits (Z.pos r)); [|lia]. apply (Z.pow_lt_mono_r_iff 2); lia. }
    cbn [shr shr_record_of_loc shr_m Z.to_pos]. change (emax - prec) with 971.
    by replace (c + 1074 - 1074) with c by lia.
Qed.

Lemma binary_round_aux_correct M e :
  0 < M → -1074 ≤ e → e ≤ fexp prec emax (Zdigits2 M + e) →
  binary_round_aux prec emax false M e loc_Exact = of_ival (RN (M * 2 ^ (e + 1074))).
Proof.
  intros HM He Hc.
  rewrite (binary_round_aux_located M e loc_Exact M 0); try done; try lia.
  - by rewrite Z.sub_0_r.
  - apply shifted_0.
Qed.

Lemma top_pos : 0 < top.
Proof. by apply pow2_pos. Qed.

Lemma iter_xO p d : Z.pos (Pos.iter xO p d) = Z.pos p * 2 ^ Z.pos d.
Proof.
  rewrite Pos2Nat.inj_iter, <- (positive_nat_Z d). generalize (Pos.to_nat d). intros n.
  induction n as [|n IH]; [simpl; lia|].
  rewrite Nat2Z.inj_succ, Z.pow_succ_r by lia. simpl. rewrite Pos2Z.inj_xO, IH. lia.
Qed.

Lemma shl_align_fst mx ex ez :
  ez ≤ ex → Z.pos (fst (shl_align mx ex ez)) = Z.pos mx * 2 ^ (ex - ez).
Proof.
  intros H. unfold shl_align. destruct (ez - ex) as [|d|d] eqn:E; [|lia|].
  - simpl. replace (ex - ez) with 0 by lia. lia.
  - simpl. rewrite iter_xO. by replace (ex - ez) with (Z.pos d) by lia.
Qed.

Lemma binary_round_correct p e :
  -1074 ≤ e →
  binary_round prec emax false p e = of_ival (RN (Z.pos p * 2 ^ (e + 1074))).
Proof.
  intros He. unfold binary_round. rewrite digits2_pos_digits.
  pose proof (digits_pos (Z.pos p)) as Hd.
  set (c := fexp prec emax (digits (Z.pos p) + e)).
  assert (c = Z.max (digits (Z.pos p) + e - 53) (-1074)) as Ec by done.
  unfold shl_align. destruct (c - e) as [|k|k] eqn:E.
  - rewrite binary_round_aux_correct; [done|lia|done|].
    simpl Zdigits2. rewrite digits2_pos_digits. fold c. lia.
  - rewrite binary_round_aux_correct; [done|lia|done|].
    simpl Zdigits2. rewrite digits2_pos_digits. fold c. lia.
  - rewrite binary_round_aux_correct; [|lia|lia|].
    + rewrite iter_xO, <- Z.mul_assoc, <- Z.pow_add_r by lia.
      by replace (Z.pos k + (c + 1074)) with (e + 1074) by lia.
    + simpl Zdigits2. rewrite digits2_pos_digits, iter_xO, digits_shift by lia.
      replace (digits (Z.pos p) + Z.pos k + c) with (digits (Z.pos p) + e) by lia.
      fold c. lia.
Qed.

Lemma RN_0 : RN 0 = 0.
Proof. done. Qed.

Lemma binary_normalize_correct M e :
  0 ≤ M → -1074 ≤ e →
  binary_normalize prec emax M e false = of_ival (RN (M * 2 ^ (e + 1074))).
Proof.
  intros HM He. destruct M as [|p|p]; [done| |lia].
  by apply binary_round_correct.
Qed.

(** what [valid_binary] says of a finite double *)
Lemma valid_finite s m e :
  valid_binary (S754_finite s m e) = true →
  -1074 ≤ e ≤ 971 ∧ Z.pos m < 2 ^ 53 ∧ (e = -1074 ∨ 2 ^ 52 ≤ Z.pos m).
Proof.
  unfold SpecFloat.valid_binary, bounded, canonical_mantissa.
  rewrite andb_true_iff, Z.eqb_eq, Z.leb_le, digits2_pos_digits, fexp_eq.
  change (emax - prec) with 971. intros [Hc He].
  pose proof (digits_spec (Z.pos m) ltac:(lia)) as [Hl Hu].
  split; [lia|]. split.
  - eapply Z.lt_le_trans; [exact Hu|]. apply Z.pow_le_mono_r; lia.
  - destruct (decide (e = -1074)); [by left|right].
    replace 52 with (digits (Z.pos m) - 1) by lia. done.
Qed.


Lemma finite_nonneg_nonneg x : finite_nonneg x → nonneg x.
Proof. by destruct x as [| | |[]]. Qed.

Lemma ival_nonneg x : 0 ≤ ival x.
Proof.
  pose proof top_pos. destruct x as [|[]| |[] m e]; simpl; lia.
Qed.

Lemma ival_finite s m e :
  valid_binary (S754_finite s m e) = true →
  0 < Z.pos m * 2 ^ (e + 1074) < top.
Proof.
  intros (He & Hm & _)%valid_finite. pose proof (pow2_pos (e + 1074) ltac:(lia)).
  split; [lia|]. unfold top.
  assert (2 ^ (e + 1074) ≤ 2 ^ 2045) by (apply Z.pow_le_mono_r; lia).
  change (2 ^ 2098) with (2 ^ 53 * 2 ^ 2045). nia.
Qed.

Lemma ival_representable x :
  valid_binary x = true → finite_nonneg x → representable (ival x).
Proof.
  destruct x as [| | |[] m e]; try done.
  intros (He & Hm & Hn)%valid_finite _. simpl.
  apply representable_scaled; lia.
Qed.

Lemma ival_lt_top x : valid_binary x = true → finite_nonneg x → ival x < top.
Proof.
  destruct x as [| | |[] m e]; try done; intros Hv _; simpl; try apply top_pos.
  by apply ival_finite in Hv as [_ ?].
Qed.

(** the order of non-negative doubles is the order of their values *)
Lemma SFcompare_ival x y :
  valid_binary x = true → valid_binary y = true → nonneg x → nonneg y →
  SFcompare x y = Some (ival x ?= ival y).
Proof.
  intros Hx Hy Nx Ny. pose proof top_pos as Ht.
  destruct x as [sx|[]| |[] mx ex], y as [sy|[]| |[] my ey];
    try (by destruct Nx); try (by destruct Ny); cbn [SFcompare ival];
    try (pose proof (ival_finite _ _ _ Hx)); try (pose proof (ival_finite _ _ _ Hy));
    try (f_equal; symmetry;
         first [apply Z.compare_lt_iff; lia | apply Z.compare_gt_iff; lia
               | apply Z.compare_eq_iff; lia]).
  - f_equal. 
    apply valid_finite in Hx as (Hex & Hmx & Hnx). apply valid_finite in Hy as (Hey & Hmy & Hny).
    destruct (Z.compare_spec ex ey) as [->|L|G].
    + rewrite Pos.compare_cont_spec. cbn [Pos.switch_Eq].
      pose proof (pow2_pos (ey + 1074) ltac:(lia)).
      symmetry. destruct (Pos.compare_spec mx my) as [->|L|G].
      * apply Z.compare_refl.
      * apply Z.compare_lt_iff. nia.
      * apply Z.compare_gt_iff. nia.
    + symmetry. apply Z.compare_lt_iff.
      replace (ey + 1074) with (ex + 1074 + (ey - ex)) by lia.
      rewrite (Z.pow_add_r 2 (ex + 1074) (ey - ex)) by lia.
      pose proof (pow2_pos (ex + 1074) ltac:(lia)).
      assert (2 ^ 1 ≤ 2 ^ (ey - ex)) by (apply Z.pow_le_mono_r; lia).
      destruct Hny as [?|Hny]; [lia|].
      change (2 ^ 53) with 9007199254740992 in *. change (2 ^ 52) with 4503599627370496 in *.
      change (2 ^ 1) with 2 in *.
      set (P := 2 ^ (ex + 1074)) in *. set (Q := 2 ^ (ey - ex)) in *.
      assert (Z.pos mx * P < 9007199254740992 * P) by nia.
      assert (9007199254740992 * P ≤ 2 * (Z.pos my * P)) by nia.
      assert (2 * (Z.pos my * P) ≤ Q * (Z.pos my * P)) by (apply Z.mul_le_mono_nonneg_r; lia).
      lia.
    + symmetry. apply Z.compare_gt_iff.
      replace (ex + 1074) with (ey + 1074 + (ex - ey)) by lia.
      rewrite (Z.pow_add_r 2 (ey + 1074) (ex - ey)) by lia.
      pose proof (pow2_pos (ey + 1074) ltac:(lia)).
      assert (2 ^ 1 ≤ 2 ^ (ex - ey)) by (apply Z.pow_le_mono_r; lia).
      destruct Hnx as [?|Hnx]; [lia|].
      change (2 ^ 53) with 9007199254740992 in *. change (2 ^ 52) with 4503599627370496 in *.
      change (2 ^ 1) with 2 in *.
      set (P := 2 ^ (ey + 1074)) in *. set (Q := 2 ^ (ex - ey)) in *.
      assert (Z.pos my * P < 9007199254740992 * P) by nia.
      assert (9007199254740992 * P ≤ 2 * (Z.pos mx * P)) by nia.
      assert (2 * (Z.pos mx * P) ≤ Q * (Z.pos mx * P)) by (apply Z.mul_le_mono_nonneg_r; lia).
      lia.
Qed.

(** two positive finite doubles of the same value are the same double *)
Lemma ival_inj x y :
  valid_binary x = true → valid_binary y = true →
  finite_nonneg x → finite_nonneg y → 0 < ival x → ival x = ival y → x = y.
Proof.
  intros Hx Hy Fx Fy Hpos E.
  pose proof (SFcompare_ival x y Hx Hy (finite_nonneg_nonneg _ Fx) (finite_nonneg_nonneg _ Fy)) as Hc.
  rewrite E, Z.compare_refl in Hc.
  destruct x as [| | |[] mx ex]; try done; simpl in Hpos; try lia.
  destruct y as [| | |[] my ey]; try done; simpl in E; try lia.
  simpl in Hc. destruct (Z.compare_spec ex ey) as [->|?|?]; try done.
  apply valid_finite in Hx as (He & _).
  pose proof (pow2_pos (ey + 1074) ltac:(lia)).
  assert (Z.pos mx = Z.pos my) by nia. congruence.
Qed.

Lemma RN_representable V : 0 ≤ V → representable (RN V).
Proof.
  intros HV. unfold RN. set (t := last_place V). pose proof (last_place_nonneg V) as Ht.
  pose proof (round_even_bounds V t Ht) as [Hl Hu]. pose proof (quotient_53 V HV) as H53.
  fold t in H53.
  assert (0 ≤ V / 2 ^ t) by (apply Z.div_pos; [done|by apply pow2_pos]).
  destruct (decide (round_even V t = 0)) as [->|N0]; [done|].
  destruct (decide (round_even V t = 2 ^ 53)) as [->|N].
  - replace (2 ^ 53 * 2 ^ t) with (2 ^ 52 * 2 ^ (t + 1))
      by (rewrite (Z.pow_add_r 2 t 1) by lia; lia).
    apply representable_scaled; lia.
  - apply representable_scaled; [done|lia|].
    destruct (decide (t = 0)); [by left|right].
    pose proof (quotient_52 V ltac:(fold t; lia)). fold t in H0. lia.
Qed.

Lemma of_ival_representable W :
  0 ≤ W → representable W →
  nonneg (of_ival W) ∧ valid_binary (of_ival W) = true ∧ ival (of_ival W) = Z.min W top.
Proof.
  intros HW HR. unfold representable in HR. unfold of_ival.
  set (t := last_place W) in *. pose proof (last_place_nonneg W) as Ht. fold t in Ht.
  pose proof (pow2_pos t Ht) as HP.
  pose proof (Z.div_mod W (2 ^ t) ltac:(lia)) as HD. rewrite HR in HD.
  pose proof (quotient_53 W HW) as H53. fold t in H53.
  pose proof top_pos.
  destruct (W / 2 ^ t) as [|q|q] eqn:Eq.
  - split; [done|]. split; [done|]. simpl. lia.
  - destruct (Z.leb_spec (t - 1074) 971) as [L|G].
    + assert (W < top).
      { unfold top. change (2 ^ 2098) with (2 ^ 53 * 2 ^ 2045).
        assert (2 ^ t ≤ 2 ^ 2045) by (apply Z.pow_le_mono_r; lia). nia. }
      split; [done|]. split.
      * unfold SpecFloat.valid_binary, bounded, canonical_mantissa.
        rewrite andb_true_iff, Z.eqb_eq, Z.leb_le, digits2_pos_digits, fexp_eq.
        change (emax - prec) with 971. split; [|done].
        pose proof (digits_spec (Z.pos q) ltac:(lia)) as [Hl Hu].
        pose proof (digits_pos (Z.pos q)).
        assert (digits (Z.pos q) ≤ 53).
        { assert (digits (Z.pos q) - 1 < 53); [|lia]. apply (Z.pow_lt_mono_r_iff 2); lia. }
        destruct (decide (t = 0)) as [E0|N0]; [lia|].
        pose proof (quotient_52 W ltac:(fold t; lia)) as H52. fold t in H52.
        rewrite Eq in H52.
        assert (52 < digits (Z.pos q)); [|lia]. apply (Z.pow_lt_mono_r_iff 2); lia.
      * simpl. replace (t - 1074 + 1074) with t by lia. lia.
    + split; [done|]. split; [done|]. simpl.
      pose proof (quotient_52 W ltac:(fold t; lia)) as H52. fold t in H52.
      assert (top ≤ W); [|lia].
      unfold top. change (2 ^ 2098) with (2 ^ 52 * 2 ^ 2046).
      assert (2 ^ 2046 ≤ 2 ^ t) by (apply Z.pow_le_mono_r; lia). nia.
  - lia.
Qed.


Lemma nonneg_lt_top x : nonneg x → ival x < top → finite_nonneg x.
Proof. destruct x as [|[]| |[]]; try done; cbn [ival]; lia. Qed.

Lemma ival_pos_finite x : finite_nonneg x → 0 < ival x → ∃ m e, x = S754_finite false m e.
Proof. destruct x as [| | |[] m e]; try done; simpl; try lia. eauto. Qed.

Lemma aligned mx ex ez :
  -1074 ≤ ez → ez ≤ ex →
  Z.pos (fst (shl_align mx ex ez)) * 2 ^ (ez + 1074) = Z.pos mx * 2 ^ (ex + 1074).
Proof.
  intros. rewrite shl_align_fst by done.
  rewrite <- Z.mul_assoc, <- Z.pow_add_r by lia. f_equal. f_equal. lia.
Qed.

Lemma SFsub_ival x y :
  valid_binary x = true → valid_binary y = true →
  finite_nonneg x → finite_nonneg y → ival y ≤ ival x →
  finite_nonneg (SF64sub x y) ∧ ival (SF64sub x y) = RN (ival x - ival y).
Proof.
  intros Hx Hy Fx Fy Hle.
  assert (RN (ival x) = ival x) as Hxx by (by apply RN_exact, ival_representable).
  destruct y as [sy| | |[] my ey]; try done.
  { (* x - 0 *)
    cbn [ival]. rewrite Z.sub_0_r, Hxx.
    destruct x as [sx| | |[] mx ex]; try done.
    by destruct sx, sy. }
  destruct x as [sx| | |[] mx ex]; try done.
  { apply ival_finite in Hy. cbn [ival] in Hle. lia. }
  pose proof (valid_finite _ _ _ Hx) as (Hex & _). pose proof (valid_finite _ _ _ Hy) as (Hey & _).
  cbn [ival] in *. unfold SF64sub, SFsub. cbn [cond_Zopp].
  set (ez := Z.min ex ey).
  pose proof (aligned mx ex ez ltac:(lia) ltac:(lia)) as Ax.
  pose proof (aligned my ey ez ltac:(lia) ltac:(lia)) as Ay.
  pose proof (pow2_pos (ez + 1074) ltac:(lia)) as HP.
  rewrite binary_normalize_correct; [|nia|lia].
  rewrite Z.mul_sub_distr_r, Ax, Ay.
  set (V := Z.pos mx * 2 ^ (ex + 1074) - Z.pos my * 2 ^ (ey + 1074)) in *.
  pose proof (of_ival_representable (RN V) (RN_nonneg V ltac:(lia)) (RN_representable V ltac:(lia)))
    as (Hn & _ & Hi).
  assert (RN V < top).
  { apply ival_finite in Hx. apply ival_finite in Hy.
    pose proof (RN_mono V (Z.pos mx * 2 ^ (ex + 1074)) ltac:(lia) ltac:(lia)). lia. }
  rewrite Z.min_l in Hi by lia. split; [|done].
  apply nonneg_lt_top; [done|lia].
Qed.

Lemma SFadd_ival x y :
  valid_binary x = true → valid_binary y = true →
  finite_nonneg x → finite_nonneg y →
  nonneg (SF64add x y) ∧ ival (SF64add x y) = Z.min (RN (ival x + ival y)) top.
Proof.
  intros Hx Hy Fx Fy.
  assert (RN (ival x) = ival x) as Hxx by (by apply RN_exact, ival_representable).
  assert (RN (ival y) = ival y) as Hyy by (by apply RN_exact, ival_representable).
  pose proof (ival_lt_top x Hx Fx). pose proof (ival_lt_top y Hy Fy).
  destruct y as [sy| | |[] my ey]; try done.
  { cbn [ival] in *. rewrite Z.add_0_r, Hxx, Z.min_l by lia.
    destruct x as [sx| | |[] mx ex]; try done.
    by destruct sx, sy. }
  destruct x as [sx| | |[] mx ex]; try done.
  { cbn [ival] in *. rewrite Z.add_0_l, Hyy, Z.min_l by lia. done. }
  pose proof (valid_finite _ _ _ Hx) as (Hex & _). pose proof (valid_finite _ _ _ Hy) as (Hey & _).
  cbn [ival] in *. unfold SF64add, SFadd. cbn [cond_Zopp].
  set (ez := Z.min ex ey).
  pose proof (aligned mx ex ez ltac:(lia) ltac:(lia)) as Ax.
  pose proof (aligned my ey ez ltac:(lia) ltac:(lia)) as Ay.
  rewrite binary_normalize_correct; [|lia|lia].
  rewrite Z.mul_add_distr_r, Ax, Ay.
  set (V := Z.pos mx * 2 ^ (ex + 1074) + Z.pos my * 2 ^ (ey + 1074)) in *.
  apply ival_finite in Hx. apply ival_finite in Hy.
  pose proof (of_ival_representable (RN V) (RN_nonneg V ltac:(lia)) (RN_representable V ltac:(lia)))
    as (Hn & _ & Hi).
  done.
Qed.


Lemma ulp_pos x : valid_binary x = true → 0 < ulp x.
Proof.
  destruct x as [| | |s m e]; try done. intros (He & _)%valid_finite.
  apply pow2_pos. lia.
Qed.

(** doubles above [x] are multiples of the last place of [x] *)
Lemma ulp_divides x y :
  valid_binary x = true → valid_binary y = true →
  finite_nonneg x → nonneg y → ival x ≤ ival y → ival y mod ulp x = 0.
Proof.
  intros Hx Hy Fx Ny Hle.
  destruct x as [sx| | |[] mx ex]; try done; cbn [ulp]; [apply Z.mod_1_r|].
  pose proof (valid_finite _ _ _ Hx) as (Hex & Hmx & Hnx).
  pose proof (ival_finite _ _ _ Hx) as Hix.
  pose proof (pow2_pos (ex + 1074) ltac:(lia)) as HP.
  destruct y as [sy|[]| |[] my ey]; try done; cbn [ival] in *; try lia.
  - unfold top. replace 2098 with (2098 - (ex + 1074) + (ex + 1074)) by lia.
    rewrite Z.pow_add_r by lia. apply Z.mod_mul. lia.
  - pose proof (valid_finite _ _ _ Hy) as (Hey & Hmy & Hny).
    destruct (Z.lt_ge_cases ey ex) as [L|G].
    + pose proof (SFcompare_ival (S754_finite false my ey) (S754_finite false mx ex)
                    Hy Hx I I) as Hc.
      cbn [SFcompare ival] in Hc. destruct (Z.compare_spec ey ex); try lia.
      injection Hc as Hc. symmetry in Hc. rewrite Z.compare_lt_iff in Hc. lia.
    + replace (ey + 1074) with (ey - ex + (ex + 1074)) by lia.
      rewrite Z.pow_add_r, Z.mul_assoc by lia. apply Z.mod_mul. lia.
Qed.

Lemma next_above x y :
  valid_binary x = true → valid_binary y = true →
  finite_nonneg x → nonneg y → ival x < ival y → ival x + ulp x ≤ ival y.
Proof.
  intros Hx Hy Fx Ny Hlt.
  pose proof (ulp_divides x y Hx Hy Fx Ny ltac:(lia)) as Hy'.
  pose proof (ulp_divides x x Hx Hx Fx (finite_nonneg_nonneg _ Fx) ltac:(lia)) as Hx'.
  pose proof (ulp_pos x Hx) as HP.
  apply Z.mod_divide in Hy' as [a Ha]; [|lia]. apply Z.mod_divide in Hx' as [b Hb]; [|lia].
  rewrite Ha, Hb in *. assert (b < a) by nia. nia.
Qed.

(** ** The same facts on the primitive doubles *)


Lemma ffinite_fnonneg x : ffinite x → fnonneg x.
Proof. apply finite_nonneg_nonneg. Qed.

Lemma ltb_fval x y : fnonneg x → fnonneg y → (x <? y)%float = (fval x <? fval y).
Proof.
  intros Nx Ny. rewrite ltb_spec. unfold SFltb.
  rewrite (SFcompare_ival _ _ (Prim2SF_valid x) (Prim2SF_valid y) Nx Ny).
  unfold fval, Z.ltb. by destruct (ival (Prim2SF x) ?= ival (Prim2SF y)).
Qed.

Lemma leb_fval x y : fnonneg x → fnonneg y → (x <=? y)%float = (fval x <=? fval y).
Proof.
  intros Nx Ny. rewrite leb_spec. unfold SFleb.
  rewrite (SFcompare_ival _ _ (Prim2SF_valid x) (Prim2SF_valid y) Nx Ny).
  unfold fval, Z.leb. by destruct (ival (Prim2SF x) ?= ival (Prim2SF y)).
Qed.

Lemma sub_fval x y :
  ffinite x → ffinite y → fval y ≤ fval x →
  ffinite (x - y) ∧ fval (x - y)%float = RN (fval x - fval y).
Proof.
  intros Fx Fy Hle. unfold ffinite, fval. rewrite sub_spec.
  by apply SFsub_ival; try apply Prim2SF_valid.
Qed.

Lemma add_fval x y :
  ffinite x → ffinite y →
  fnonneg (x + y) ∧ fval (x + y)%float = Z.min (RN (fval x + fval y)) top.
Proof.
  intros Fx Fy. unfold fnonneg, fval. rewrite add_spec.
  by apply SFadd_ival; try apply Prim2SF_valid.
Qed.

Lemma fval_inj x y : ffinite x → ffinite y → 0 < fval x → fval x = fval y → x = y.
Proof.
  intros Fx Fy Hpos E. apply Prim2SF_inj.
  by apply ival_inj; try apply Prim2SF_valid.
Qed.

Lemma fval_lt_top x : ffinite x → fval x < top.
Proof. apply ival_lt_top, Prim2SF_valid. Qed.

Lemma fval_nonneg x : 0 ≤ fval x.
Proof. apply ival_nonneg. Qed.

Lemma fulp_nonneg x : 0 ≤ fulp x.
Proof. pose proof (ulp_pos _ (Prim2SF_valid x)). unfold fulp. lia. Qed.

Lemma is_finite_nonneg_spec x : is_finite_nonneg x = true → finite_nonneg x.
Proof. by destruct x as [| | |[]]. Qed.

Lemma representable_small V : 0 ≤ V < 2 ^ 53 → representable V.
Proof.
  intros HV. unfold representable.
  assert (last_place V = 0) as ->; [|apply Z.mod_1_r].
  destruct (decide (V = 0)) as [->|]; [done|].
  pose proof (digits_spec V ltac:(lia)) as [Hd _].
  assert (digits V - 1 < 53); [|unfold last_place; lia].
  pose proof (digits_pos V). apply (Z.pow_lt_mono_r_iff 2); lia.
Qed.

Lemma representable_multiple j u : 0 ≤ j < 2 ^ 53 → 0 ≤ u → representable (j * 2 ^ u).
Proof.
  intros Hj Hu. destruct (decide (j = 0)) as [->|N]; [done|].
  unfold representable.
  apply Z.mod_divide; [pose proof (pow2_pos _ (last_place_nonneg (j * 2 ^ u))); lia|].
  assert (last_place (j * 2 ^ u) ≤ u) as Hle.
  { unfold last_place. rewrite digits_shift by lia.
    pose proof (digits_spec j ltac:(lia)) as [Hd _]. pose proof (digits_pos j).
    assert (digits j - 1 < 53); [|lia]. apply (Z.pow_lt_mono_r_iff 2); lia. }
  pose proof (last_place_nonneg (j * 2 ^ u)).
  set (t := last_place (j * 2 ^ u)) in *. exists (j * 2 ^ (u - t)).
  rewrite <- Z.mul_assoc, <- Z.pow_add_r by lia. do 2 f_equal. lia.
Qed.

(** a difference of few last places is computed exactly *)
Lemma difference_representable x y :
  valid_binary x = true → valid_binary y = true →
  finite_nonneg x → finite_nonneg y → ival x ≤ ival y →
  ival x = 0 ∨ ival y - ival x < 2 ^ 53 * ulp x →
  representable (ival y - ival x).
Proof.
  intros Hx Hy Fx Fy Hle [E|Hs].
  - rewrite E, Z.sub_0_r. by apply ival_representable.
  - pose proof (ulp_divides x y Hx Hy Fx (finite_nonneg_nonneg _ Fy) Hle) as Dy.
    pose proof (ulp_divides x x Hx Hx Fx (finite_nonneg_nonneg _ Fx) ltac:(lia)) as Dx.
    pose proof (ulp_pos x Hx) as HP.
    apply Z.mod_divide in Dy as [a Ha]; [|lia]. apply Z.mod_divide in Dx as [b Hb]; [|lia].
    rewrite Ha, Hb in *. replace (a * ulp x - b * ulp x) with ((a - b) * ulp x) in * by lia.
    destruct x as [| | |s m e]; try done; cbn [ulp] in *.
    + rewrite Z.mul_1_r in *. apply representable_small. lia.
    + apply valid_finite in Hx as (He & _).
      apply representable_multiple; [nia|lia].
Qed.


(** ** Conversion, multiplication and division *)

Lemma of_int_fval z :
  0 ≤ z < 2 ^ 53 → ffinite (of_int z) ∧ fval (of_int z) = z * 2 ^ 1074.
Proof.
  intros Hz.
  change (of_int z) with
    (if z <? 0 then PrimFloat.opp (of_uint63 (Uint63.of_Z (- z)))
     else of_uint63 (Uint63.of_Z z)).
  assert ((z <? 0) = false) as -> by (apply Z.ltb_ge; lia).
  unfold ffinite, fval. rewrite of_uint63_spec, Uint63.of_Z_spec.
  rewrite Z.mod_small.
  2:{ split; [lia|]. eapply Z.lt_le_trans; [apply Hz|]. by apply Z.pow_le_mono_r. }
  rewrite binary_normalize_correct by lia. change (0 + 1074) with 1074.
  assert (representable (z * 2 ^ 1074)) as HR by (apply representable_multiple; lia).
  rewrite (RN_exact _ HR).
  destruct (of_ival_representable (z * 2 ^ 1074) ltac:(lia) HR) as (Hn & _ & Hi).
  assert (z * 2 ^ 1074 < top).
  { unfold top. change (2 ^ 2098) with (2 ^ 1024 * 2 ^ 1074).
    assert (2 ^ 53 < 2 ^ 1024) by (by apply Z.pow_lt_mono_r). nia. }
  rewrite Z.min_l in Hi by lia. split; [|done]. apply nonneg_lt_top; [done|lia].
Qed.

Lemma digits_mul a b : 0 < a → 0 < b → digits a + digits b - 1 ≤ digits (a * b).
Proof.
  intros Ha Hb.
  pose proof (digits_spec a Ha) as [La _]. pose proof (digits_spec b Hb) as [Lb _].
  pose proof (digits_spec (a * b) ltac:(nia)) as [_ U].
  pose proof (digits_pos a). pose proof (digits_pos b). pose proof (digits_pos (a * b)).
  assert (2 ^ (digits a - 1 + (digits b - 1)) < 2 ^ digits (a * b)) as H2.
  { rewrite Z.pow_add_r by lia. nia. }
  apply Z.pow_lt_mono_r_iff in H2; lia.
Qed.

(** a product that is not tiny: [P] is the exact product in units of 2^-1074 *)
Lemma SFmul_ival x y P :
  valid_binary x = true → valid_binary y = true →
  finite_nonneg x → finite_nonneg y →
  ival x * ival y = P * 2 ^ 1074 →
  P = 0 ∨ 2 ^ 1180 ≤ ival x * ival y →
  nonneg (SF64mul x y) ∧ ival (SF64mul x y) = Z.min (RN P) top.
Proof.
  intros Hx Hy Fx Fy HP Hbig. pose proof top_pos.
  assert (0 < 2 ^ 1074) as H1074 by (by apply pow2_pos).
  destruct x as [sx| | |[] mx ex]; try done.
  { cbn [ival] in HP. assert (P = 0) as -> by nia. rewrite RN_0, Z.min_l by lia.
    by destruct y as [sy| | |[] my ey]. }
  destruct y as [sy| | |[] my ey]; try done.
  { cbn [ival] in HP. assert (P = 0) as -> by nia. by rewrite RN_0, Z.min_l by lia. }
  pose proof (valid_finite _ _ _ Hx) as (Hex & Hmx & Hnx).
  pose proof (valid_finite _ _ _ Hy) as (Hey & Hmy & Hny).
  pose proof (ival_finite _ _ _ Hx) as Hix. pose proof (ival_finite _ _ _ Hy) as Hiy.
  cbn [ival] in *.
  assert (Z.pos mx * 2 ^ (ex + 1074) * (Z.pos my * 2 ^ (ey + 1074))
          = Z.pos mx * Z.pos my * (2 ^ (ex + 1074) * 2 ^ (ey + 1074))) as Eprod by ring.
  rewrite <- (Z.pow_add_r 2 (ex + 1074) (ey + 1074)) in Eprod by lia.
  assert (0 < Z.pos mx * Z.pos my < 2 ^ 53 * 2 ^ 53) as Hmm.
  { split; [lia|]. apply Z.mul_lt_mono_nonneg; lia. }
  assert (-1074 ≤ ex + ey) as He.
  { destruct Hbig as [->|Hbig]; [rewrite Z.mul_0_l in HP; clear -HP Hix Hiy; nia|].
    destruct (Z.le_gt_cases (-1074) (ex + ey)) as [|G]; [done|exfalso].
    rewrite Eprod in Hbig.
    assert (2 ^ (ex + 1074 + (ey + 1074)) ≤ 2 ^ 1073) as Hp by (apply Z.pow_le_mono_r; lia).
    assert (0 < 2 ^ (ex + 1074 + (ey + 1074))) as Hp0 by (apply pow2_pos; lia).
    change (2 ^ 1180) with (2 ^ 53 * 2 ^ 53 * (2 * 2 ^ 1073)) in Hbig.
    assert (0 < 2 ^ 1073) as H1073 by (by apply pow2_pos).
    assert (Z.pos mx * Z.pos my * 2 ^ (ex + 1074 + (ey + 1074))
            ≤ 2 ^ 53 * 2 ^ 53 * 2 ^ 1073) by (apply Z.mul_le_mono_nonneg; lia).
    clear -Hbig H0 H1073. set (a := 2 ^ 53 * 2 ^ 53) in *.
    assert (0 < a) by done. nia. }
  assert (P = Z.pos mx * Z.pos my * 2 ^ (ex + ey + 1074)) as ->.
  { rewrite Eprod in HP.
    replace (ex + 1074 + (ey + 1074)) with (ex + ey + 1074 + 1074) in HP by lia.
    rewrite (Z.pow_add_r 2 (ex + ey + 1074) 1074), Z.mul_assoc in HP by lia.
    apply Z.mul_reg_r in HP; [done|lia]. }
  unfold SF64mul, SFmul. cbn [xorb].
  rewrite binary_round_aux_correct; [|lia|lia|].
  - rewrite Pos2Z.inj_mul.
    set (V := Z.pos mx * Z.pos my * 2 ^ (ex + ey + 1074)).
    assert (0 ≤ V).
    { unfold V. apply Z.mul_nonneg_nonneg; [lia|]. apply Z.pow_nonneg. lia. }
    by destruct (of_ival_representable (RN V) (RN_nonneg V ltac:(lia))
                   (RN_representable V ltac:(lia))) as (Hn & _ & Hi).
  - simpl Zdigits2. rewrite digits2_pos_digits, fexp_eq, Pos2Z.inj_mul.
    pose proof (digits_mul (Z.pos mx) (Z.pos my) ltac:(lia) ltac:(lia)) as Hd.
    pose proof (digits_pos (Z.pos mx)). pose proof (digits_pos (Z.pos my)).
    assert (digits (Z.pos mx) = 53 ∨ digits (Z.pos my) = 53) as Hnorm.
    { destruct Hnx as [->|Hnx]; [|left; apply digits_unique; lia].
      destruct Hny as [->|Hny]; [lia|right; apply digits_unique; lia]. }
    lia.
Qed.


Lemma loc_code_range l : 0 ≤ loc_code l ≤ 3.
Proof. destruct l as [|[]]; simpl; lia. Qed.

Lemma shifted_loc q l : 0 ≤ q → shifted (4 * q + loc_code l) 2 (shr_record_of_loc q l).
Proof.
  intros Hq. pose proof (loc_code_range l) as Hc. change (2 ^ 2) with 4.
  assert ((4 * q + loc_code l) / 4 = q) as Ed
    by (symmetry; apply (Z.div_unique _ 4 q (loc_code l)); lia).
  assert ((4 * q + loc_code l) mod 4 = loc_code l) as Em
    by (symmetry; apply (Z.mod_unique _ 4 q (loc_code l)); lia).
  split; change (2 ^ 2) with 4; rewrite ?Ed, ?Em.
  - by destruct l as [|[]].
  - destruct l as [|[]]; simpl; split; (done || lia).
  - destruct l as [|[]]; simpl; split; (done || lia).
Qed.

Lemma new_location_0 m : new_location m 0 = loc_Exact.
Proof. unfold new_location, new_location_even, new_location_odd. by destruct (Z.even m). Qed.

Lemma div_eucl_eq a b : Z.div_eucl a b = (a / b, a mod b).
Proof. unfold Z.div, Z.modulo. by destruct (Z.div_eucl a b). Qed.

(** [lo] and [hi] bound the exact quotient, counted in units of [2^e'], the
    exponent at which the division is carried out *)
Lemma SFdiv_bounds mx ex my ey lo hi :
  valid_binary (S754_finite false mx ex) = true →
  valid_binary (S754_finite false my ey) = true →
  let e' := Z.min (fexp prec emax (digits (Z.pos mx) + ex - (digits (Z.pos my) + ey)))
                  (ex - ey) in
  -1072 ≤ e' → 0 ≤ lo →
  lo * Z.pos my ≤ Z.pos mx * 2 ^ (ex - ey - e') ≤ hi * Z.pos my →
  let z := SF64div (S754_finite false mx ex) (S754_finite false my ey) in
  nonneg z
  ∧ Z.min (RN (lo * 2 ^ (e' + 1074))) top ≤ ival z ≤ RN (hi * 2 ^ (e' + 1074)).
Proof.
  intros Hx Hy e' He' Hlo [Hl Hh] z.
  pose proof (valid_finite _ _ _ Hx) as (Hex & Hmx & Hnx).
  pose proof (valid_finite _ _ _ Hy) as (Hey & Hmy & Hny).
  pose proof (digits_spec (Z.pos mx) ltac:(lia)) as [Lx Ux].
  pose proof (digits_spec (Z.pos my) ltac:(lia)) as [Ly Uy].
  pose proof (digits_pos (Z.pos mx)) as Dx. pose proof (digits_pos (Z.pos my)) as Dy.
  set (d1 := digits (Z.pos mx)) in *. set (d2 := digits (Z.pos my)) in *.
  assert (e' ≤ d1 + ex - (d2 + ey) - 53 ∧ e' ≤ ex - ey) as [He1 He2].
  { unfold e'. rewrite fexp_eq. unfold e' in He'. rewrite fexp_eq in He'. lia. }
  set (s := ex - ey - e') in *. assert (d2 - d1 + 53 ≤ s) as Hs by lia.
  unfold z, SF64div, SFdiv, SFdiv_core_binary. cbn [xorb Zdigits2].
  rewrite !digits2_pos_digits. fold d1 d2 e' s.
  assert (match s with
          | 0 => Z.pos mx
          | Z.pos _ => Z.shiftl (Z.pos mx) s
          | Z.neg _ => 0
          end = Z.pos mx * 2 ^ s) as ->.
  { destruct s as [|p|p] eqn:Es; [lia| |lia]. by rewrite Z.shiftl_mul_pow2. }
  rewrite div_eucl_eq.
  set (N := Z.pos mx * 2 ^ s) in *. pose proof (pow2_pos s ltac:(lia)) as HPs.
  set (q := N / Z.pos my). set (r := N mod Z.pos my).
  pose proof (Z.div_mod N (Z.pos my) ltac:(lia)) as HD. fold q r in HD.
  pose proof (Z.mod_pos_bound N (Z.pos my) ltac:(lia)) as Hr. fold r in Hr.
  (* the quotient has at least 53 digits *)
  assert (2 ^ (d1 - 1 + s - d2) ≤ q) as Hq.
  { apply Z.div_le_lower_bound; [lia|].
    assert (2 ^ (d1 - 1 + s - d2) * 2 ^ d2 = 2 ^ (d1 - 1) * 2 ^ s) as E.
    { rewrite <- !Z.pow_add_r by lia. f_equal. lia. }
    pose proof (pow2_pos (d1 - 1 + s - d2) ltac:(lia)) as Hk. unfold N.
    rewrite Z.mul_comm.
    apply Z.le_trans with (2 ^ (d1 - 1 + s - d2) * 2 ^ d2);
      [apply Z.mul_le_mono_nonneg_l; lia|].
    rewrite E. apply Z.mul_le_mono_nonneg_r; lia. }
  assert (2 ^ 52 ≤ 2 ^ (d1 - 1 + s - d2)) by (apply Z.pow_le_mono_r; lia).
  assert (0 < q) as Hq0 by (change (2 ^ 52) with 4503599627370496 in *; lia).
  assert (d1 + s - d2 ≤ digits q) as Hdq.
  { pose proof (digits_spec q Hq0) as [_ U]. pose proof (digits_pos q).
    assert (2 ^ (d1 - 1 + s - d2) < 2 ^ digits q) as H2 by lia.
    apply Z.pow_lt_mono_r_iff in H2; lia. }
  rewrite (binary_round_aux_located q e' (new_location (Z.pos my) r)
             (4 * q + loc_code (new_location (Z.pos my) r)) 2); try done; try lia.
  2:{ pose proof (loc_code_range (new_location (Z.pos my) r)). lia. }
  2:{ apply shifted_loc. lia. }
  2:{ destruct q as [|p|p] eqn:Eq; try lia. simpl Zdigits2.
      rewrite digits2_pos_digits, fexp_eq. lia. }
  assert (r = 0 → loc_code (new_location (Z.pos my) r) = 0) as Hc0.
  { intros ->. by rewrite new_location_0. }
  pose proof (loc_code_range (new_location (Z.pos my) r)) as Hc.
  set (c := loc_code (new_location (Z.pos my) r)) in *.
  clearbody c.
  replace (e' - 2 + 1074) with (e' + 1072) by lia.
  set (V := (4 * q + c) * 2 ^ (e' + 1072)).
  pose proof (pow2_pos (e' + 1072) ltac:(lia)) as HP.
  assert (2 ^ (e' + 1074) = 4 * 2 ^ (e' + 1072)) as E4.
  { replace (e' + 1074) with (2 + (e' + 1072)) by lia. by rewrite Z.pow_add_r by lia. }
  assert (0 ≤ V) by (unfold V; apply Z.mul_nonneg_nonneg; lia).
  destruct (of_ival_representable (RN V) (RN_nonneg V ltac:(lia))
              (RN_representable V ltac:(lia))) as (Hn & _ & Hi).
  split; [done|]. rewrite Hi, E4.
  assert (lo ≤ q) as Hloq by (apply Z.div_le_lower_bound; lia).
  assert (q ≤ hi) as Hqhi by (apply Z.div_le_upper_bound; lia).
  assert (lo * (4 * 2 ^ (e' + 1072)) ≤ V) as HV1.
  { unfold V. rewrite Z.mul_assoc. apply Z.mul_le_mono_nonneg_r; lia. }
  assert (V ≤ hi * (4 * 2 ^ (e' + 1072))) as HV2.
  { unfold V. rewrite Z.mul_assoc. apply Z.mul_le_mono_nonneg_r; [lia|].
    destruct (decide (q = hi)) as [E|N']; [|lia].
    assert (r = 0) as Er by (rewrite E in HD; lia). rewrite (Hc0 Er). lia. }
  assert (0 ≤ lo * (4 * 2 ^ (e' + 1072))) by (apply Z.mul_nonneg_nonneg; lia).
  pose proof (RN_mono _ _ H1 HV1). pose proof (RN_mono _ _ H0 HV2).
  lia.
Qed.

Lemma div_fval_zero (x y : float) :
  Prim2SF x = S754_zero false → ffinite y → 0 < fval y →
  ffinite (x / y) ∧ fval (x / y)%float = 0.
Proof.
  intros Ex Fy Hy. unfold ffinite, fval in *. rewrite div_spec, Ex.
  by destruct (Prim2SF y) as [| | |[] m e].
Qed.

Lemma mul_fval x y P :
  ffinite x → ffinite y → fval x * fval y = P * 2 ^ 1074 →
  P = 0 ∨ 2 ^ 1180 ≤ fval x * fval y →
  fnonneg (x * y) ∧ fval (x * y)%float = Z.min (RN P) top.
Proof.
  intros Fx Fy HP Hbig. unfold fnonneg, fval. rewrite mul_spec.
  by apply SFmul_ival; try apply Prim2SF_valid.
Qed.

(** the double of a positive integer below 2^53 *)
Lemma of_int_SF z :
  0 < z < 2 ^ 53 →
  ∃ m e, Prim2SF (of_int z) = S754_finite false m e
         ∧ Z.pos m = z * 2 ^ (53 - digits z)
         ∧ digits (Z.pos m) = 53 ∧ e = digits z - 53.
Proof.
  intros Hz. destruct (of_int_fval z ltac:(lia)) as [F E].
  assert (0 < 2 ^ 1074) as HK by (by apply pow2_pos).
  destruct (ival_pos_finite _ F) as (m & e & Em); [fold (fval (of_int z)); nia|].
  exists m, e. split; [done|]. unfold fval in E. rewrite Em in E. cbn [ival] in E.
  pose proof (Prim2SF_valid (of_int z)) as Hv. rewrite Em in Hv.
  apply valid_finite in Hv as (He & Hm & Hn).
  assert (digits (Z.pos m) + (e + 1074) = digits z + 1074) as Hd.
  { rewrite <- !digits_shift by lia. by rewrite E. }
  assert (2 ^ 52 ≤ Z.pos m) as Hm52.
  { destruct Hn as [->|]; [|done]. change (-1074 + 1074) with 0 in E.
    rewrite Z.pow_0_r, Z.mul_1_r in E.
    assert (1 * 2 ^ 1074 ≤ z * 2 ^ 1074) by (apply Z.mul_le_mono_nonneg_r; lia).
    assert (2 ^ 53 < 2 ^ 1074) by (by apply Z.pow_lt_mono_r). lia. }
  assert (digits (Z.pos m) = 53) as D53 by (apply digits_unique; lia).
  assert (e = digits z - 53) as -> by lia.
  split; [|done].
  pose proof (digits_spec z ltac:(lia)) as [_ Hu]. pose proof (digits_pos z).
  assert (digits z ≤ 53).
  { destruct (Z.le_gt_cases (digits z) 53); [done|].
    pose proof (digits_le z (2 ^ 53) ltac:(lia)) as H54.
    change (digits (2 ^ 53)) with 54 in H54.
    assert (digits z = 54) as E54 by lia.
    pose proof (digits_spec z ltac:(lia)) as [Hl _]. rewrite E54 in Hl.
    change (2 ^ (54 - 1)) with (2 ^ 53) in Hl. lia. }
  replace (2 ^ 1074) with (2 ^ (53 - digits z) * 2 ^ (digits z - 53 + 1074)) in E
    by (rewrite <- Z.pow_add_r by lia; f_equal; lia).
  rewrite Z.mul_assoc in E. apply Z.mul_reg_r in E; [done|].
  apply Z.pow_nonzero; lia.
Qed.

Lemma pow_1074 : 2 ^ 1074 = 2147483648 * 2 ^ 1043.
Proof. change 2147483648 with (2 ^ 31). by rewrite <- Z.pow_add_r. Qed.

Section Quotient.
Variables (r RAND_MAX : Z).
Hypothesis r_range : 0 < r ≤ RAND_MAX.
Hypothesis RAND_MAX_int : RAND_MAX ≤ 2147483647.

(** [double(r) / RAND_MAX] lies between the doubles of any two bounds
    [a / 2^31 ≤ r / RAND_MAX ≤ b / 2^31] *)
Lemma quotient_between a b :
  0 ≤ a → a * RAND_MAX ≤ 2 ^ 31 * r ≤ b * RAND_MAX →
  let q := (of_int r / of_int RAND_MAX)%float in
  fnonneg q ∧ Z.min (RN (a * 2 ^ 1043)) top ≤ fval q ≤ RN (b * 2 ^ 1043).
Proof using r_range RAND_MAX_int.
  intros Ha0 [Ha Hb] q.
  assert (2147483647 < 2 ^ 53) as H53 by done.
  destruct (of_int_SF r ltac:(lia)) as (mx & ex & Ex & Vx & Dx & Hex).
  destruct (of_int_SF RAND_MAX ltac:(lia)) as (my & ey & Ey & Vy & Dy & Hey).
  pose proof (Prim2SF_valid (of_int r)) as Hvx. rewrite Ex in Hvx.
  pose proof (Prim2SF_valid (of_int RAND_MAX)) as Hvy. rewrite Ey in Hvy.
  assert (1 ≤ digits r ≤ digits RAND_MAX ∧ digits RAND_MAX ≤ 31) as Hd.
  { pose proof (digits_pos r). pose proof (digits_le r RAND_MAX ltac:(lia)).
    pose proof (digits_le RAND_MAX 2147483647 ltac:(lia)) as H31.
    change (digits 2147483647) with 31 in H31. lia. }
  set (e' := ex - ey - 53).
  assert (Z.min (fexp prec emax (digits (Z.pos mx) + ex - (digits (Z.pos my) + ey))) (ex - ey)
          = e') as He'.
  { rewrite fexp_eq, Dx, Dy. unfold e'. lia. }
  assert (- e' - 31 = 22 + digits RAND_MAX - digits r) as Eu by (unfold e'; lia).
  pose proof (SFdiv_bounds mx ex my ey (a * 2 ^ (- e' - 31)) (b * 2 ^ (- e' - 31)) Hvx Hvy)
    as H.
  cbv zeta in H. rewrite He' in H. unfold q, fnonneg, fval. rewrite div_spec, Ex, Ey.
  assert (∀ c, c * 2 ^ (- e' - 31) * 2 ^ (e' + 1074) = c * 2 ^ 1043) as Hunit.
  { intros c. rewrite <- Z.mul_assoc, <- Z.pow_add_r by lia. do 2 f_equal. lia. }
  rewrite !Hunit in H. apply H; [lia|apply Z.mul_nonneg_nonneg; [done|apply Z.pow_nonneg; lia]|].
  replace (ex - ey - e') with 53 by (unfold e'; lia).
  set (G := 2 ^ (75 - digits r)). assert (0 < G) as HG by (apply pow2_pos; lia).
  assert (∀ c, c * 2 ^ (- e' - 31) * Z.pos my = c * RAND_MAX * G) as Hside.
  { intros c. rewrite Vy, Eu. unfold G.
    replace (75 - digits r) with (22 + digits RAND_MAX - digits r + (53 - digits RAND_MAX))
      by lia.
    rewrite Z.pow_add_r by lia. ring. }
  assert (Z.pos mx * 2 ^ 53 = 2 ^ 31 * r * G) as Hmid.
  { rewrite Vx. unfold G. replace (75 - digits r) with (53 - digits r + 22) by lia.
    rewrite Z.pow_add_r by lia. change (2 ^ 53) with (2 ^ 31 * 2 ^ 22). ring. }
  rewrite !Hside, Hmid. split; apply Z.mul_le_mono_nonneg_r; lia.
Qed.

Lemma quotient_range :
  let q := (of_int r / of_int RAND_MAX)%float in
  ffinite q
  ∧ 2 ^ 1043 ≤ fval q ≤ 2 ^ 1074
  ∧ (r = RAND_MAX → fval q = 2 ^ 1074)
  ∧ (r < RAND_MAX → fval q ≤ 2147483647 * 2 ^ 1043).
Proof using r_range RAND_MAX_int.
  intros q.
  assert (0 < 2 ^ 1043) as HK by (by apply pow2_pos).
  pose proof pow_1074 as E1074.
  assert (2 ^ 1074 < top) as Htop by (by apply Z.pow_lt_mono_r).
  assert (∀ j, 0 ≤ j < 2 ^ 53 → RN (j * 2 ^ 1043) = j * 2 ^ 1043) as Hexact.
  { intros j Hj. apply RN_exact, representable_multiple; lia. }
  destruct (quotient_between 1 2147483648 ltac:(lia) ltac:(lia)) as (Nq & Hlo & Hhi).
  fold q in Nq, Hlo, Hhi. rewrite Hexact in Hlo, Hhi by done.
  rewrite Z.min_l in Hlo by lia.
  split; [apply nonneg_lt_top; [done|fold (fval q); lia]|].
  split; [lia|]. split.
  - intros E.
    destruct (quotient_between 2147483648 2147483648 ltac:(lia) ltac:(lia)) as (_ & Hlo' & _).
    fold q in Hlo'. rewrite Hexact in Hlo' by done. rewrite Z.min_l in Hlo' by lia. lia.
  - intros L.
    destruct (quotient_between 1 2147483647 ltac:(lia) ltac:(lia)) as (_ & _ & Hhi').
    fold q in Hhi'. by rewrite Hexact in Hhi' by done.
Qed.
End Quotient.


(** ** The slice loop on binary64 *)

Lemma just_above_spec x y :
  just_above x y = true → ffinite x ∧ ffinite y ∧ fval x + fulp x = fval y.
Proof.
  unfold just_above. rewrite !andb_true_iff, Z.eqb_eq.
  intros [[Hx Hy] E]. by repeat split; try apply is_finite_nonneg_spec.
Qed.

Lemma just_above_le x y z :
  just_above x y = true → fnonneg z → fval x < fval z → fval y ≤ fval z.
Proof.
  intros (Fx & Fy & E)%just_above_spec Nz Hlt. rewrite <- E.
  by apply next_above; try apply Prim2SF_valid.
Qed.

Lemma just_above_ge x y z :
  just_above x y = true → fnonneg z → fval z < fval y → fval z ≤ fval x.
Proof.
  intros Hxy Nz Hlt. destruct (Z.le_gt_cases (fval z) (fval x)) as [|G]; [done|].
  pose proof (just_above_le x y z Hxy Nz ltac:(lia)). lia.
Qed.

Lemma grid_checked : forallb grid_ok (seq 0 101) = true.
Proof. vm_compute. reflexivity. Qed.

Lemma grid_ok_below k : (k < 101)%nat → grid_ok k = true.
Proof.
  intros Hk. pose proof grid_checked as H. rewrite forallb_forall in H.
  apply H, in_seq. lia.
Qed.

Lemma grid_facts k :
  (k < 101)%nat →
  ffinite (grid k)
  ∧ just_above (next_down (grid (S k))) (grid (S k)) = true
  ∧ just_above (grid (S k)) (next_up (grid (S k))) = true
  ∧ PrimFloat.ltb (grid k) (grid (S k)) = true
  ∧ dge (grid k) (of_int 10) = false
  ∧ dadd (grid k) (dmin slice_literal (dsub (grid (S k)) (grid k))) = grid (S k)
  ∧ PrimFloat.ltb (next_down (grid (S k)) - grid k) slice_literal = true
  ∧ PrimFloat.ltb (next_up (grid (S k)) - grid k) slice_literal = false
  ∧ (fval (grid k) = 0
     ∨ fval (next_down (grid (S k))) - fval (grid k) < 2 ^ 53 * fulp (grid k)).
Proof.
  intros Hk. pose proof (grid_ok_below k Hk) as H. unfold grid_ok in H.
  cbv zeta in H. rewrite !andb_true_iff, !negb_true_iff in H.
  destruct H as [[[[[[[[Fa Hp] Hn] Hab] H10] Hb] Hbelow] Habove] Hsmall].
  apply is_finite_nonneg_spec in Fa. apply FloatAxioms.Leibniz.eqb_spec in Hb.
  repeat split; try done.
  apply orb_true_iff in Hsmall as [E0|Hs]; [left; by apply Z.eqb_eq|right; by apply Z.ltb_lt].
Qed.

Lemma grid_finite k : (k ≤ 101)%nat → ffinite (grid k).
Proof.
  intros Hk. destruct (decide (k = 101%nat)) as [->|N].
  - by apply is_finite_nonneg_spec.
  - by destruct (grid_facts k ltac:(lia)) as (? & _).
Qed.

Lemma grid_increasing k : (k < 101)%nat → fval (grid k) < fval (grid (S k)).
Proof.
  intros Hk. destruct (grid_facts k Hk) as (Fa & Hp & _ & H & _).
  apply just_above_spec in Hp as (_ & Fb & _).
  rewrite ltb_fval in H by (by apply ffinite_fnonneg).
  by apply Z.ltb_lt.
Qed.

Lemma grid_mono i j : (i ≤ j)%nat → (j ≤ 101)%nat → fval (grid i) ≤ fval (grid j).
Proof.
  intros Hij. induction Hij as [|j Hij IH]; intros Hj; [lia|].
  pose proof (grid_increasing j ltac:(lia)). specialize (IH ltac:(lia)). lia.
Qed.

Lemma loop_ends fuel w (j : Job float) :
  fnonneg (load j) →
  Errors.slice_loop (S fuel) w j (load j) = Some (j, load j, []).
Proof.
  intros N. rewrite slice_loop_step.
  change (dlt (load j) (load j)) with (PrimFloat.ltb (load j) (load j)).
  by rewrite ltb_fval, Z.ltb_irrefl.
Qed.

(** one full slice: the load is beyond the next grid point *)
Lemma full_slice k (l : float) :
  (k < 101)%nat → ffinite l → fval (grid (S k)) < fval l →
  dlt (grid k) l = true ∧ dge (grid k) (of_int 10) = false
  ∧ dmin slice_literal (dsub l (grid k)) = slice_literal.
Proof.
  intros Hk Fl Hl.
  destruct (grid_facts k Hk) as (Fa & Hp & Hn & Hab & H10 & Hb & Hbelow & Habove & Hsmall).
  pose proof (grid_increasing k Hk) as Hinc.
  pose proof (just_above_spec _ _ Hn) as (Fb & Fn & En).
  pose proof (just_above_le _ _ l Hn (ffinite_fnonneg _ Fl) Hl) as Hnl.
  split; [|split; [done|]].
  - change (PrimFloat.ltb (grid k) l = true).
    rewrite ltb_fval by (by apply ffinite_fnonneg). apply Z.ltb_lt. lia.
  - unfold dmin.
    change (dlt (dsub l (grid k)) slice_literal)
      with (PrimFloat.ltb (l - grid k) slice_literal).
    pose proof (fulp_nonneg (grid (S k))) as Hu.
    destruct (sub_fval l (grid k) Fl Fa ltac:(lia)) as [Fd Ed].
    destruct (sub_fval (next_up (grid (S k))) (grid k) Fn Fa ltac:(lia)) as [Fd' Ed'].
    assert (ffinite slice_literal) as Fs by (by apply is_finite_nonneg_spec).
    rewrite ltb_fval in Habove |- * by (by apply ffinite_fnonneg).
    apply Z.ltb_ge in Habove. rewrite Ed' in Habove.
    pose proof (RN_mono (fval (next_up (grid (S k))) - fval (grid k))
                  (fval l - fval (grid k)) ltac:(lia) ltac:(lia)) as Hm.
    assert ((fval (l - grid k)%float <? fval slice_literal) = false) as ->; [|done].
    apply Z.ltb_ge. lia.
Qed.

(** the last slice: the load is reached before the next grid point *)
Lemma last_slice k (l : float) :
  (k < 101)%nat → ffinite l → fval (grid k) < fval l ≤ fval (grid (S k)) →
  dlt (grid k) l = true ∧ dge (grid k) (of_int 10) = false
  ∧ dadd (grid k) (dmin slice_literal (dsub l (grid k))) = l.
Proof.
  intros Hk Fl [Hl Hu].
  destruct (grid_facts k Hk) as (Fa & Hp & Hn & Hab & H10 & Hb & Hbelow & Habove & Hsmall).
  pose proof (just_above_spec _ _ Hp) as (Fp & Fb & Ep).
  assert (dlt (grid k) l = true) as Hlt.
  { change (PrimFloat.ltb (grid k) l = true).
    rewrite ltb_fval by (by apply ffinite_fnonneg). apply Z.ltb_lt. lia. }
  split; [done|]. split; [done|].
  destruct (decide (fval l = fval (grid (S k)))) as [E|N].
  { (* the load is the next grid point *)
    apply fval_inj in E; [|done|done|pose proof (fval_nonneg (grid k)); lia].
    by rewrite E. }
  pose proof (just_above_ge _ _ l Hp (ffinite_fnonneg _ Fl) ltac:(lia)) as Hlp.
  set (V := fval l - fval (grid k)).
  assert (representable V) as HV.
  { apply difference_representable; try apply Prim2SF_valid; try done; [unfold fval in *; lia|].
    unfold fval, fulp in *. lia. }
  destruct (sub_fval l (grid k) Fl Fa ltac:(lia)) as [Fd Ed].
  fold V in Ed. rewrite (RN_exact V HV) in Ed.
  destruct (sub_fval (next_down (grid (S k))) (grid k) Fp Fa ltac:(lia)) as [Fd' Ed'].
  assert (ffinite slice_literal) as Fs by (by apply is_finite_nonneg_spec).
  rewrite ltb_fval in Hbelow by (by apply ffinite_fnonneg).
  apply Z.ltb_lt in Hbelow. rewrite Ed' in Hbelow.
  pose proof (RN_mono V (fval (next_down (grid (S k))) - fval (grid k))
                ltac:(unfold V; lia) ltac:(unfold V; lia)) as Hm.
  rewrite (RN_exact V HV) in Hm.
  unfold dmin.
  change (dlt (dsub l (grid k)) slice_literal)
    with (PrimFloat.ltb (l - grid k) slice_literal).
  rewrite ltb_fval by (by apply ffinite_fnonneg).
  assert ((fval (l - grid k)%float <? fval slice_literal) = true) as ->
    by (apply Z.ltb_lt; lia).
  change (dadd (grid k) (dsub l (grid k))) with (grid k + (l - grid k))%float.
  destruct (add_fval (grid k) (l - grid k) Fa Fd) as [Ns Es].
  rewrite Ed in Es. replace (fval (grid k) + V) with (fval l) in Es by (unfold V; lia).
  rewrite RN_exact in Es by (apply ival_representable; [apply Prim2SF_valid|done]).
  pose proof (fval_lt_top l Fl). rewrite Z.min_l in Es by lia.
  pose proof (fval_nonneg (grid k)).
  apply fval_inj; [|done|lia|done].
  apply nonneg_lt_top; [done|]. fold (fval (grid k + (l - grid k))). lia.
Qed.

(** From the [k]-th grid point on, a job whose load lies beyond it *)
Lemma slice_loop_from_grid n : ∀ k fuel w (j : Job float),
  (k + n = 101)%nat → (102 - k ≤ fuel)%nat →
  ffinite (load j) → fval (grid k) < fval (load j) →
  Errors.slice_loop fuel w j (grid k) =
    if fval (load j) <=? fval (grid 101) then Some (j, load j, [])
    else Some (set_error_code j (-1), grid 101, [WorkerAborting w (name j)]).
Proof.
  induction n as [|n IH]; intros k fuel w j Hk Hfuel Fl Hl.
  - assert (k = 101%nat) as -> by lia.
    destruct fuel as [|fuel]; [lia|]. rewrite slice_loop_step.
    change (dlt (grid 101) (load j)) with (PrimFloat.ltb (grid 101) (load j)).
    rewrite ltb_fval by (apply ffinite_fnonneg; first [by apply grid_finite|done]).
    assert ((fval (grid 101) <? fval (load j)) = true) as -> by (by apply Z.ltb_lt).
    assert (dge (grid 101) (of_int 10) = true) as -> by (vm_compute; reflexivity).
    by assert ((fval (load j) <=? fval (grid 101)) = false) as -> by (apply Z.leb_gt; lia).
  - destruct fuel as [|fuel]; [lia|]. rewrite slice_loop_step.
    destruct (Z.le_gt_cases (fval (load j)) (fval (grid (S k)))) as [Hle|Hgt].
    + destruct (last_slice k (load j) ltac:(lia) Fl ltac:(lia)) as (-> & -> & ->).
      destruct fuel as [|fuel]; [lia|].
      rewrite loop_ends by (by apply ffinite_fnonneg).
      pose proof (grid_mono (S k) 101 ltac:(lia) ltac:(lia)).
      by assert ((fval (load j) <=? fval (grid 101)) = true) as -> by (apply Z.leb_le; lia).
    + destruct (full_slice k (load j) ltac:(lia) Fl ltac:(lia)) as (-> & -> & ->).
      change (dadd (grid k) slice_literal) with (grid (S k)).
      apply IH; [lia|lia|done|lia].
Qed.


(** ** The slice loop on every double *)


Lemma above_positive (a l : float) :
  ffinite a → PrimFloat.ltb a l = true → fnonneg l ∧ fval a < fval l.
Proof.
  intros Fa Hlt.
  assert (fnonneg l) as Nl.
  { rewrite ltb_spec in Hlt. unfold ffinite, fnonneg in *.
    destruct (Prim2SF a) as [|[]| |[]], (Prim2SF l) as [|[]| |[]]; try done. }
  split; [done|]. rewrite ltb_fval in Hlt by (done || by apply ffinite_fnonneg).
  by apply Z.ltb_lt.
Qed.

Lemma infinite_double (l : float) : Prim2SF l = S754_infinity false → l = infinity.
Proof. intros E. by rewrite <- (SF2Prim_Prim2SF l), E. Qed.

Lemma fnonneg_cases (l : float) : fnonneg l → ffinite l ∨ l = infinity.
Proof.
  unfold fnonneg, ffinite. intros N.
  destruct (Prim2SF l) as [|[]| |[]] eqn:E; try done; try (by left).
  right. by apply infinite_double.
Qed.

Lemma endless_load fuel w n c :
  Errors.slice_loop (102 + fuel) w (mkJob n infinity c) (of_int 0)
  = Some (mkJob n infinity (-1), ceiling_reached, [WorkerAborting w n]).
Proof. vm_compute. reflexivity. Qed.

(** The slice loop of simgrid_cluster_with_errors.cpp on binary64, in closed
    form: 102 turns are enough for every double. *)
Lemma binary64_slice_loop fuel w (j : Job float) :
  (102 ≤ fuel)%nat →
  Errors.slice_loop fuel w j (of_int 0) =
    if dlt ceiling_reached (load j) then
      Some (set_error_code j (-1), ceiling_reached, [WorkerAborting w (name j)])
    else if dlt (of_int 0) (load j) then Some (j, load j, [])
    else Some (j, of_int 0, []).
Proof.
  intros Hfuel.
  assert (ffinite (of_int 0)) as F0 by (by apply is_finite_nonneg_spec).
  assert (ffinite ceiling_reached) as Fc by (by apply grid_finite).
  destruct (dlt (of_int 0) (load j)) eqn:Hpos.
  - destruct (above_positive _ _ F0 Hpos) as [Nl Hl].
    destruct (fnonneg_cases _ Nl) as [Fl|E].
    + change (Errors.slice_loop fuel w j (of_int 0))
        with (Errors.slice_loop fuel w j (grid 0)).
      rewrite (slice_loop_from_grid 101 0 fuel w j) by (done || lia).
      change (dlt ceiling_reached (load j)) with (PrimFloat.ltb (grid 101) (load j)).
      rewrite ltb_fval by (by apply ffinite_fnonneg).
      destruct (Z.leb_spec (fval (load j)) (fval (grid 101))) as [L|G].
      * by assert ((fval (grid 101) <? fval (load j)) = false) as -> by (apply Z.ltb_ge; lia).
      * by assert ((fval (grid 101) <? fval (load j)) = true) as -> by (apply Z.ltb_lt; lia).
    + destruct j as [n l c]. simpl in E. subst l.
      replace fuel with (102 + (fuel - 102))%nat by lia. by rewrite endless_load.
  - destruct fuel as [|fuel]; [lia|]. rewrite slice_loop_step, Hpos.
    destruct (dlt ceiling_reached (load j)) eqn:Hc; [|done].
    destruct (above_positive _ _ Fc Hc) as [Nl Hl].
    change (PrimFloat.ltb (of_int 0) (load j) = false) in Hpos.
    rewrite ltb_fval in Hpos by (done || by apply ffinite_fnonneg).
    apply Z.ltb_ge in Hpos. change (fval (of_int 0)) with 0 in Hpos.
    pose proof (fval_nonneg ceiling_reached). lia.
Qed.

(** loads below the ceiling, and loads of one slice or more beyond it *)
Lemma below_ceiling (l : float) :
  dlt l (of_int 10) = true → dlt ceiling_reached l = false.
Proof.
  intros H10. destruct (dlt ceiling_reached l) eqn:Hc; [|done].
  assert (ffinite ceiling_reached) as Fc by (by apply grid_finite).
  assert (ffinite (of_int 10)) as F10 by (by apply is_finite_nonneg_spec).
  destruct (above_positive _ _ Fc Hc) as [Nl Hl].
  change (PrimFloat.ltb l (of_int 10) = true) in H10.
  rewrite ltb_fval in H10 by (done || by apply ffinite_fnonneg).
  apply Z.ltb_lt in H10.
  assert (fval (of_int 10) ≤ fval ceiling_reached); [|lia].
  apply Z.leb_le. vm_compute. reflexivity.
Qed.


(** ** Success below the ceiling, timeout above it *)

Lemma binary64_iteration fuel w (job : Job float) g :
  (102 ≤ fuel)%nat → name job ≠ "exit" →
  Errors.worker_iteration fuel w job g =
    if dlt ceiling_reached (load job) then
      Some (mkIteration true (update_counters (-1) g)
              [WorkerReceived w (name job) (load job); WorkerAborting w (name job);
               WorkerFinishedError w (name job) (-1)]
              (Some (set_error_code job (-1), ceiling_reached)))
    else
      let elapsed := if dlt (of_int 0) (load job) then load job else of_int 0 in
      Some (mkIteration true (update_counters (error_code job) g)
              [WorkerReceived w (name job) (load job);
               if decide (error_code job = 0)
               then WorkerCompleted w (name job) elapsed
               else WorkerFinishedError w (name job) (error_code job)]
              (Some (job, elapsed))).
Proof.
  intros Hfuel Hname. unfold Errors.worker_iteration.
  rewrite decide_False, binary64_slice_loop by done.
  destruct (dlt ceiling_reached (load job)); [done|].
  by destruct (dlt (of_int 0) (load job)).
Qed.

(** C3: on binary64, as the program computes, a freshly constructed job
    (error code 0, nothing injected) whose load is below 10.0 is processed to
    the end by either worker: with fuel for 102 turns the slice loop returns,
    no abort is logged, the job keeps error code 0, and the pass counts
    exactly one success.  The loop ends with elapsed equal to the load when
    the load is positive, as every job load is; for a load that is not
    positive the loop body never runs and elapsed stays 0. *)
Theorem success_under_ceiling :
  ∀ (muted : bool) (fuel : nat) (w n : string) (l : float) (g : Globals),
    n ≠ "exit" → dlt l (of_int 10) = true → (102 ≤ fuel)%nat →
    ∃ elapsed : float,
      elapsed = (if dlt (of_int 0) l then l else of_int 0)
      ∧ Errors.slice_loop fuel w (new_Job n l) (of_int 0)
        = Some (new_Job n l, elapsed, [])
      ∧ Historical.slice_loop muted fuel w (new_Job n l) (of_int 0)
        = Some (new_Job n l, elapsed, [])
      ∧ Errors.worker_iteration fuel w (new_Job n l) g
        = Some (mkIteration true
                  (mkGlobals (g_total_success g + 1) (g_error_counts g))
                  [WorkerReceived w n l; WorkerCompleted w n elapsed]
                  (Some (new_Job n l, elapsed)))
      ∧ (globals <$> Historical.worker_iteration muted fuel w (new_Job n l) g)
        = Some (mkGlobals (g_total_success g + 1) (g_error_counts g)).
Proof.
  intros muted fuel w n l g Hn H10 Hfuel.
  pose proof (below_ceiling l H10) as Hc.
  exists (if dlt (of_int 0) l then l else of_int 0). split; [done|].
  assert (Errors.slice_loop fuel w (new_Job n l) (of_int 0)
          = Some (new_Job n l, if dlt (of_int 0) l then l else of_int 0, [])) as L.
  { rewrite binary64_slice_loop by done. unfold new_Job. cbn [load name error_code].
    rewrite Hc. by destruct (dlt (of_int 0) l). }
  assert (Errors.worker_iteration fuel w (new_Job n l) g
          = Some (mkIteration true
                    (mkGlobals (g_total_success g + 1) (g_error_counts g))
                    [WorkerReceived w n l;
                     WorkerCompleted w n (if dlt (of_int 0) l then l else of_int 0)]
                    (Some (new_Job n l, if dlt (of_int 0) l then l else of_int 0)))) as I.
  { rewrite binary64_iteration by done. unfold new_Job. cbn [load name error_code].
    by rewrite Hc. }
  split; [done|]. split; [rewrite slice_loop_agree, L; by destruct muted|].
  split; [done|]. by rewrite worker_iteration_agree, I.
Qed.

Lemma success_under_ceiling_witness :
  ∃ elapsed : float,
    elapsed = 2.5%float
    ∧ Errors.slice_loop 102 "worker0" (new_Job "job0" 2.5%float) (of_int 0)
      = Some (new_Job "job0" 2.5%float, elapsed, [])
    ∧ (globals <$> Historical.worker_iteration false 102 "worker0"
                     (new_Job "job0" 2.5%float) globals_init)
      = Some (mkGlobals (g_total_success globals_init + 1) (g_error_counts globals_init)).
Proof.
  destruct (success_under_ceiling false 102 "worker0" "job0" 2.5%float globals_init
              ltac:(discriminate) ltac:(reflexivity) ltac:(lia))
    as (elapsed & E & L & _ & _ & G).
  exists elapsed. split; [exact E|]. split; [exact L|exact G].
Defined.

(** The same by evaluation, at loads the dispatcher generates
    ([RAND_MAX] = 2147483647): the loop ends with elapsed equal to the load
    and error code 0. *)
Example binary64_success_under_ceiling :
  Forall (λ r : Z,
            let l : float := job_time 2147483647 r in
            dlt l (of_int 10) = true
            ∧ Errors.slice_loop 200 "worker0" (new_Job "job0" l) (of_int 0)
              = Some (new_Job "job0" l, l, []))
         [0; 1; 7; 1000000000; 1234567890; 1380525000; 1380525055].
Proof. repeat constructor; vm_compute; reflexivity. Qed.


(** The elapsed time is a sum of binary64 slices: one hundred of them give
    9.99999999999998, so the test [elapsed >= 10.0] first holds one slice
    later, at 10.09999999999998.  A load between 10.0 and that value still
    completes: 10.0625 does, and so does the load 10.0499999993 that [master]
    generates from [rand() = 1388194786]; a load of 10.125 is aborted. *)
Example binary64_ceiling_drift :
  Errors.slice_loop 200 "worker0" (new_Job "job0" 10.0625%float) (of_int 0)
  = Some (new_Job "job0" 10.0625%float, 10.0625%float, [])
  ∧ (let l : float := job_time 2147483647 1388194786 in
     dlt (of_int 10) l = true
     ∧ Errors.slice_loop 200 "worker0" (new_Job "job0" l) (of_int 0)
       = Some (new_Job "job0" l, l, []))
  ∧ (λ r, error_code r.1.1)
      <$> Errors.slice_loop 200 "worker0" (new_Job "job0" 10.125%float) (of_int 0)
    = Some (-1).
Proof.
  split; [vm_compute; reflexivity|]. split; [|vm_compute; reflexivity].
  cbv zeta. split; vm_compute; reflexivity.
Qed.



(** ** Round-robin dispatch *)

Lemma ceil_div_spec (a b : Z) : 0 < b → b * (ceil_div a b - 1) < a ≤ b * ceil_div a b.
Proof.
  intros Hb. unfold ceil_div.
  pose proof (Z.div_mod (a + b - 1) b ltac:(lia)).
  pose proof (Z.mod_pos_bound (a + b - 1) b ltac:(lia)). lia.
Qed.

Lemma div_shift (W q s c : Z) : 0 < W → 0 ≤ s - c * W < W → (W * q + s) / W = q + c.
Proof. intros HW Hs. symmetry. apply Z.div_unique with (r := s - c * W); lia. Qed.

Lemma ceil_div_step (N k W : Z) :
  0 ≤ N → 0 ≤ k < W →
  ceil_div (N + 1 - k) W = ceil_div (N - k) W + (if decide (N mod W = k) then 1 else 0).
Proof.
  intros HN Hk. unfold ceil_div.
  pose proof (Z.div_mod N W ltac:(lia)) as E.
  pose proof (Z.mod_pos_bound N W ltac:(lia)) as B.
  set (q := N / W) in *. set (r := N mod W) in *.
  replace (N + 1 - k + W - 1) with (W * q + (r - k + W)) by lia.
  replace (N - k + W - 1) with (W * q + (r - k + W - 1)) by lia.
  destruct (Z.lt_trichotomy r k) as [L|[L|L]].
  - rewrite (div_shift W q _ 0), (div_shift W q _ 0) by lia. rewrite decide_False by lia. lia.
  - rewrite (div_shift W q _ 1), (div_shift W q _ 0) by lia. rewrite decide_True by lia. lia.
  - rewrite (div_shift W q _ 1), (div_shift W q _ 1) by lia. rewrite decide_False by lia. lia.
Qed.

Lemma worker_name_inj : Inj (=) (=) worker_name.
Proof.
  intros i j E. unfold worker_name, to_string in E.
  apply String.app_inj in E. by apply (inj pretty) in E.
Qed.

Lemma job_name_not_exit (i : nat) : "job" +:+ to_string i ≠ "exit".
Proof. discriminate. Qed.

(** How many of the jobs [0 .. n-1] go to worker [k]. *)
Lemma round_robin_count (W k n : nat) :
  (k < W)%nat →
  Z.of_nat (length (filter (λ i, (i mod W)%nat = k) (seq 0 n)))
  = ceil_div (Z.of_nat n - Z.of_nat k) (Z.of_nat W).
Proof.
  intros Hk. induction n as [|n IH].
  - simpl. unfold ceil_div. symmetry. apply Z.div_small. lia.
  - rewrite seq_S, filter_app, length_app, Nat2Z.inj_add, IH. simpl.
    replace (Z.of_nat (S n) - Z.of_nat k) with (Z.of_nat n + 1 - Z.of_nat k) by lia.
    rewrite ceil_div_step by lia.
    rewrite <- Nat2Z.inj_mod. f_equal.
    rewrite filter_cons. destruct (decide ((n mod W)%nat = k)) as [E|E].
    + rewrite decide_True by lia. done.
    + rewrite decide_False by lia. done.
Qed.

Section DispatcherFacts.
Context {T : Type} `{Double T}.
Variable RAND_MAX : Z.
Variable rand : nat → Z.
Variable MAX_WORKERS : nat.

Lemma inbox_app w (l1 l2 : list (string * Job T)) :
  inbox w (l1 ++ l2) = inbox w l1 ++ inbox w l2.
Proof. unfold inbox. by rewrite filter_app, map_app. Qed.

Lemma inbox_jobs (k : nat) (l : list nat) :
  inbox (worker_name k) (map (send_job RAND_MAX rand MAX_WORKERS) l)
  = map (λ i, (send_job RAND_MAX rand MAX_WORKERS i).2)
        (filter (λ i, (i mod MAX_WORKERS)%nat = k) l).
Proof.
  unfold inbox. induction l as [|i l IH]; [done|].
  simpl. rewrite !filter_cons. simpl.
  destruct (decide ((i mod MAX_WORKERS)%nat = k)) as [E|E].
  - rewrite decide_True by (by rewrite E). simpl. by rewrite IH.
  - rewrite decide_False; [done|]. intros E'. by apply worker_name_inj in E'.
Qed.

Lemma inbox_terminations (k : nat) (l : list nat) :
  inbox (worker_name k) (map (send_termination (T:=T)) l)
  = map (λ _, new_Job "exit" (of_int 0)) (filter (λ i, i = k) l).
Proof.
  unfold inbox. induction l as [|i l IH]; [done|].
  simpl. rewrite !filter_cons. simpl.
  destruct (decide (i = k)) as [E|E].
  - rewrite decide_True by (by rewrite E). simpl. by rewrite IH.
  - rewrite decide_False; [done|]. intros E'. by apply worker_name_inj in E'.
Qed.

Lemma filter_eq_seq (k a n : nat) :
  filter (λ i, i = k) (seq a n)
  = if decide (a ≤ k < a + n)%nat then [k] else [].
Proof.
  revert a. induction n as [|n IH]; intros a; simpl.
  - rewrite decide_False by lia. done.
  - rewrite filter_cons, IH. destruct (decide (a = k)) as [->|E].
    + rewrite decide_False by lia. rewrite decide_True by lia. done.
    + repeat case_decide; (done || lia).
Qed.

(** The mailbox of worker [k] after [master]: its share of the jobs, in the
    order sent, then the poison pill. *)
Lemma inbox_master (num_jobs : Z) (k : nat) :
  (k < MAX_WORKERS)%nat →
  inbox (worker_name k) (master RAND_MAX rand MAX_WORKERS num_jobs)
  = map (λ i, new_Job ("job" +:+ to_string i) (job_time RAND_MAX (rand i)))
        (filter (λ i, (i mod MAX_WORKERS)%nat = k) (seq 0 (Z.to_nat num_jobs)))
    ++ [new_Job "exit" (of_int 0)].
Proof.
  intros Hk. unfold master.
  rewrite inbox_app, inbox_jobs, inbox_terminations, filter_eq_seq.
  by rewrite decide_True by lia.
Qed.
End DispatcherFacts.

(** C5: with [N >= 0] jobs and a pool of [W] workers, the [i]-th put of
    [master] sends job [i] to worker [i mod W]; after the [N] jobs come the
    [W] termination sentinels, one per worker; the mailbox of worker [k]
    holds, in order, the jobs [i] with [i mod W = k], which are
    [ceil((N - k) / W)] many, and then the one sentinel as its last
    message. *)
Theorem round_robin_dispatch :
  ∀ (T : Type) (D : Double T) (RAND_MAX : Z) (rand : nat → Z) (W : nat) (N : Z) (k : nat),
    (k < W)%nat → 0 ≤ N →
    let puts := master RAND_MAX rand W N in
    let job i := new_Job ("job" +:+ to_string i) (job_time RAND_MAX (rand i)) in
    let mine := filter (λ i, (i mod W)%nat = k) (seq 0 (Z.to_nat N)) in
    (∀ i : nat, (i < Z.to_nat N)%nat → puts !! i = Some (worker_name (i mod W), job i))
    ∧ puts !! (Z.to_nat N + k)%nat = Some (worker_name k, new_Job "exit" (of_int 0))
    ∧ length puts = (Z.to_nat N + W)%nat
    ∧ inbox (worker_name k) puts = map job mine ++ [new_Job "exit" (of_int 0)]
    ∧ Forall (λ j, name j ≠ "exit") (map job mine)
    ∧ Z.of_nat (length mine) = ceil_div (N - Z.of_nat k) (Z.of_nat W)
    ∧ Z.of_nat W * (Z.of_nat (length mine) - 1) < N - Z.of_nat k
                                                ≤ Z.of_nat W * Z.of_nat (length mine).
Proof.
  intros T D RAND_MAX rand W N k Hk HN puts job mine.
  assert (Z.of_nat (length mine) = ceil_div (N - Z.of_nat k) (Z.of_nat W)) as Hcount.
  { unfold mine. rewrite round_robin_count by done. by rewrite Z2Nat.id. }
  split_and!.
  - intros i Hi. unfold puts, master.
    rewrite lookup_app_l by (by rewrite length_map, length_seq).
    rewrite list_lookup_fmap, lookup_seq_lt by done. done.
  - unfold puts, master.
    rewrite lookup_app_r by (rewrite length_map, length_seq; lia).
    rewrite length_map, length_seq.
    replace (Z.to_nat N + k - Z.to_nat N)%nat with k by lia.
    rewrite list_lookup_fmap, lookup_seq_lt by done. done.
  - unfold puts, master. by rewrite length_app, !length_map, !length_seq.
  - by apply inbox_master.
  - apply Forall_fmap, Forall_forall. intros i _. apply job_name_not_exit.
  - done.
  - pose proof (ceil_div_spec (N - Z.of_nat k) (Z.of_nat W) ltac:(lia)). lia.
  - pose proof (ceil_div_spec (N - Z.of_nat k) (Z.of_nat W) ltac:(lia)). lia.
Qed.

Lemma round_robin_dispatch_witness :
  let puts := master (T:=float) 2147483647 (λ i, Z.of_nat i * 100000000) 20 45 in
  let job i := new_Job (T:=float) ("job" +:+ to_string i)
                 (job_time 2147483647 (Z.of_nat i * 100000000)) in
  let mine := filter (λ i, (i mod 20)%nat = 3%nat) (seq 0 (Z.to_nat 45)) in
  (∀ i : nat, (i < Z.to_nat 45)%nat → puts !! i = Some (worker_name (i mod 20), job i))
  ∧ puts !! (Z.to_nat 45 + 3)%nat = Some (worker_name 3, new_Job "exit" (of_int 0))
  ∧ length puts = (Z.to_nat 45 + 20)%nat
  ∧ inbox (worker_name 3) puts = map job mine ++ [new_Job "exit" (of_int 0)]
  ∧ Forall (λ j, name j ≠ "exit") (map job mine)
  ∧ Z.of_nat (length mine) = ceil_div (45 - Z.of_nat 3) (Z.of_nat 20)
  ∧ Z.of_nat 20 * (Z.of_nat (length mine) - 1) < 45 - Z.of_nat 3
                                               ≤ Z.of_nat 20 * Z.of_nat (length mine).
Proof.
  apply (round_robin_dispatch float binary64 2147483647 (λ i, Z.of_nat i * 100000000)
           20 45 3); lia.
Defined.

(** Worker 3 of 20 gets jobs 3, 23 and 43 out of 45, then the sentinel. *)
Example round_robin_45_jobs :
  name <$> inbox (worker_name 3)
             (master (T:=float) 2147483647 (λ i, Z.of_nat i * 100000000) 20 45)
  = ["job3"; "job23"; "job43"; "exit"]
  ∧ ceil_div (45 - 3) 20 = 3.
Proof. split; vm_compute; reflexivity. Qed.

(** ** The range of generated loads *)

(** C6, as stated, fails when [rand()] returns [RAND_MAX]: on the binary64
    instance, with the GNU C library's [RAND_MAX], the load is then exactly
    15.0, outside the half-open interval. *)
Lemma load_range_counterexample :
  job_time (T:=float) 2147483647 2147483647 = 15%float
  ∧ dlt (job_time (T:=float) 2147483647 2147483647) (of_int 15) = false.
Proof. split; vm_compute; reflexivity. Qed.

(** ** The load the dispatcher generates, on binary64 *)

(** [1.0 + q * 14.0] for a quotient [q] between [lo / 2^31] and [hi / 2^31] *)
Lemma load_between (q : float) (lo hi : Z) :
  ffinite q → 0 ≤ lo ≤ hi → hi ≤ 2147483648 →
  lo * 2 ^ 1043 ≤ fval q ≤ hi * 2 ^ 1043 →
  fval q = 0 ∨ 2 ^ 1043 ≤ fval q →
  let l := (of_int 1 + q * of_int 14)%float in
  ffinite l
  ∧ (2147483648 + 14 * lo) * 2 ^ 1043 ≤ fval l ≤ (2147483648 + 14 * hi) * 2 ^ 1043.
Proof.
  intros Fq Hlh Hhi [Hql Hqh] Hq0 l.
  assert (0 < 2 ^ 1043) as HK by (by apply pow2_pos).
  pose proof pow_1074 as E1074.
  assert (40000000000 * 2 ^ 1043 < top) as Htop.
  { apply Z.lt_trans with (2 ^ 53 * 2 ^ 1043); [apply Z.mul_lt_mono_pos_r; done|].
    change (2 ^ 53 * 2 ^ 1043) with (2 ^ 1096). by apply Z.pow_lt_mono_r. }
  assert (∀ j, 0 ≤ j < 2 ^ 53 → RN (j * 2 ^ 1043) = j * 2 ^ 1043) as Hexact.
  { intros j Hj. apply RN_exact, representable_multiple; lia. }
  assert (∀ j, 0 ≤ j ≤ 40000000000 → 0 ≤ j < 2 ^ 53) as Hsmall.
  { intros j Hj. change (2 ^ 53) with 9007199254740992. lia. }
  destruct (of_int_fval 1 ltac:(done)) as [F1 E1].
  destruct (of_int_fval 14 ltac:(done)) as [F14 E14].
  rewrite E1074 in E1, E14. rewrite Z.mul_1_l in E1.
  set (K := 2 ^ 1043) in *.
  (* the product *)
  destruct (mul_fval q (of_int 14) (fval q * 14) Fq F14) as [Np Ep].
  { rewrite E14, E1074. fold K. ring. }
  { destruct Hq0 as [->|Hq0]; [by left|right].
    rewrite E14. change (2 ^ 1180) with (2 ^ 1043 * 2 ^ 137). fold K.
    assert (2 ^ 137 ≤ 14 * 2147483648 * K).
    { unfold K. change (2 ^ 1043) with (2 ^ 137 * 2 ^ 906).
      assert (0 < 2 ^ 137) by done. assert (1 ≤ 2 ^ 906) by done. nia. }
    apply Z.mul_le_mono_nonneg; lia. }
  set (p := (q * of_int 14)%float) in *.
  pose proof (RN_mono (14 * lo * K) (fval q * 14) ltac:(nia) ltac:(nia)) as Hpl.
  pose proof (RN_mono (fval q * 14) (14 * hi * K) ltac:(nia) ltac:(nia)) as Hph.
  rewrite Hexact in Hpl, Hph by (apply Hsmall; lia).
  rewrite Z.min_l in Ep by nia.
  assert (ffinite p) as Fp by (apply nonneg_lt_top; [done|fold (fval p); nia]).
  (* the sum *)
  destruct (add_fval (of_int 1) p F1 Fp) as [Nl El]. fold l in Nl, El.
  rewrite E1 in El.
  pose proof (RN_mono ((2147483648 + 14 * lo) * K) (2147483648 * K + fval p)
                ltac:(nia) ltac:(nia)) as Hll.
  pose proof (RN_mono (2147483648 * K + fval p) ((2147483648 + 14 * hi) * K)
                ltac:(nia) ltac:(nia)) as Hlh'.
  rewrite Hexact in Hll, Hlh' by (apply Hsmall; lia).
  assert ((2147483648 + 14 * hi) * K ≤ 40000000000 * K)
    by (apply Z.mul_le_mono_nonneg_r; lia).
  rewrite Z.min_l in El by lia.
  split; [apply nonneg_lt_top; [done|fold (fval l); lia]|]. lia.
Qed.

Lemma binary64_job_time (RAND_MAX r : Z) :
  0 < RAND_MAX ≤ 2147483647 → 0 ≤ r ≤ RAND_MAX →
  let l : float := job_time RAND_MAX r in
  ffinite l
  ∧ fval (of_int 1) ≤ fval l ≤ fval (of_int 15)
  ∧ (r = 0 → l = of_int 1)
  ∧ (0 < r → fval (of_int 1) < fval l)
  ∧ (r < RAND_MAX → fval l < fval (of_int 15))
  ∧ (r = RAND_MAX → l = of_int 15).
Proof.
  intros HR Hr l.
  assert (0 < 2 ^ 1043) as HK by (by apply pow2_pos).
  pose proof pow_1074 as E1074.
  destruct (of_int_fval 1 ltac:(done)) as [F1 E1].
  destruct (of_int_fval 15 ltac:(done)) as [F15 E15].
  destruct (of_int_fval RAND_MAX ltac:(change (2 ^ 53) with 9007199254740992; lia)) as [FR ER].
  rewrite E1, E15, E1074. set (K := 2 ^ 1043) in *.
  set (q := (of_int r / of_int RAND_MAX)%float).
  change l with (of_int 1 + q * of_int 14)%float.
  assert (∀ x : float, ffinite x → fval x = 1 * (2147483648 * K) → x = of_int 1) as Hone.
  { intros x Fx Ex. apply fval_inj; [done|done|lia|]. by rewrite Ex, E1, E1074. }
  assert (∀ x : float, ffinite x → fval x = 15 * (2147483648 * K) → x = of_int 15) as Hfifteen.
  { intros x Fx Ex. apply fval_inj; [done|done|lia|]. by rewrite Ex, E15, E1074. }
  destruct (decide (r = 0)) as [->|N].
  - destruct (div_fval_zero (of_int 0) (of_int RAND_MAX)) as [Fq Eq]; [done|done| |].
    { rewrite ER. lia. }
    fold q in Fq, Eq.
    destruct (load_between q 0 0 Fq ltac:(lia) ltac:(lia)) as [Fl Hl];
      [fold K; rewrite Eq; lia|by left|].
    fold K in Hl. split; [done|]. split; [lia|]. split; [intros _; apply Hone; [done|lia]|].
    split; [lia|]. split; [lia|]. lia.
  - destruct (quotient_range r RAND_MAX ltac:(lia) ltac:(lia)) as (Fq & Hq & Hq1 & Hq2).
    fold q in Fq, Hq, Hq1, Hq2. rewrite E1074 in Hq, Hq1. fold K in Hq, Hq1, Hq2.
    destruct (load_between q 1 2147483648 Fq ltac:(lia) ltac:(lia)) as [Fl Hl];
      [fold K; lia|right; fold K; lia|].
    fold K in Hl. split; [done|]. split; [lia|]. split; [done|]. split; [lia|]. split.
    + intros L.
      destruct (load_between q 1 2147483647 Fq ltac:(lia) ltac:(lia)) as [_ Hl'];
        [fold K; specialize (Hq2 L); lia|right; fold K; lia|].
      fold K in Hl'. lia.
    + intros E.
      destruct (load_between q 2147483648 2147483648 Fq ltac:(lia) ltac:(lia)) as [_ Hl'];
        [fold K; specialize (Hq1 E); lia|right; fold K; lia|].
      fold K in Hl'. apply Hfifteen; [done|lia].
Qed.

(** C6, amended: on binary64, as the program computes, for every [RAND_MAX]
    an [int] can hold and [rand()] returning [r] with [0 <= r <= RAND_MAX],
    the generated load lies in the closed interval [1.0, 15.0]; it is 15.0
    exactly when [r = RAND_MAX], and 1.0 exactly when [r = 0]. *)
Theorem load_range :
  ∀ (RAND_MAX r : Z),
    0 < RAND_MAX ≤ INT_MAX → 0 ≤ r ≤ RAND_MAX →
    let l : float := job_time RAND_MAX r in
    dge l (of_int 1) = true
    ∧ dge (of_int 15) l = true
    ∧ (l = of_int 15 ↔ r = RAND_MAX)
    ∧ (l = of_int 1 ↔ r = 0).
Proof.
  intros RAND_MAX r HR Hr l.
  destruct (binary64_job_time RAND_MAX r HR Hr) as (Fl & Hl & H0 & Hpos & Hlt & Hmax).
  fold l in Fl, Hl, H0, Hpos, Hlt, Hmax.
  assert (ffinite (of_int 1)) as F1 by (by apply is_finite_nonneg_spec).
  assert (ffinite (of_int 15)) as F15 by (by apply is_finite_nonneg_spec).
  split_and!.
  - change (PrimFloat.leb (of_int 1) l = true).
    rewrite leb_fval by (by apply ffinite_fnonneg). apply Z.leb_le. lia.
  - change (PrimFloat.leb l (of_int 15) = true).
    rewrite leb_fval by (by apply ffinite_fnonneg). apply Z.leb_le. lia.
  - split; [|done]. intros E.
    destruct (decide (r = RAND_MAX)) as [|N]; [done|].
    specialize (Hlt ltac:(lia)). rewrite E in Hlt. lia.
  - split; [|done]. intros E.
    destruct (decide (r = 0)) as [|N]; [done|].
    specialize (Hpos ltac:(lia)). rewrite E in Hpos. lia.
Qed.

Lemma load_range_witness :
  let l : float := job_time 32767 12345 in
  dge l (of_int 1) = true
  ∧ dge (of_int 15) l = true
  ∧ (l = of_int 15 ↔ 12345 = 32767)
  ∧ (l = of_int 1 ↔ 12345 = 0).
Proof. apply (load_range 32767 12345); unfold INT_MAX; lia. Defined.

(** On the binary64 instance the two ends of the range are reached at
    [rand() = 0] and [rand() = RAND_MAX]. *)
Example binary64_load_endpoints :
  job_time (T:=float) 2147483647 0 = 1%float
  ∧ job_time (T:=float) 2147483647 2147483647 = 15%float
  ∧ job_time (T:=float) 32767 32767 = 15%float.
Proof. split_and!; vm_compute; reflexivity. Qed.

(** A sweep over [rand()] with a 15-bit [RAND_MAX], in steps of 128 up to
    [RAND_MAX] itself: on the binary64 instance every load lies in
    [1.0, 15.0], and only [rand() = RAND_MAX] gives 15.0. *)
Example binary64_load_range_sweep :
  forallb (λ r : Z,
             let l : float := job_time 32767 r in
             dge l (of_int 1) && dge (of_int 15) l && (dlt l (of_int 15) || (r =? 32767)))
          (map (λ i, 128 * Z.of_nat i + 127) (seq 0 256))
  = true.
Proof. vm_compute. reflexivity. Qed.

(** ** The shared counters *)

Lemma histogram_total_insert `{Countable K} (m : gmap K Z) (k : K) (count : Z) :
  m !! k = None → histogram_total (<[k := count]> m) = count + histogram_total m.
Proof.
  intros Hk. unfold histogram_total.
  rewrite map_fold_insert_L; [done| |done]. intros. lia.
Qed.

Lemma histogram_total_increment (m : gmap Z Z) (code : Z) :
  histogram_total (<[code := default 0 (m !! code) + 1]> m) = histogram_total m + 1.
Proof.
  destruct (m !! code) as [count|] eqn:E; simpl.
  - rewrite <- (insert_delete_id m code count) at 2 by done.
    rewrite <- insert_delete_eq.
    rewrite !histogram_total_insert by apply lookup_delete_eq. lia.
  - rewrite histogram_total_insert by done. lia.
Qed.

(** One job's outcome is one increment of exactly one of the two counters. *)
Lemma update_counters_once (code : Z) (g : Globals) :
  (code = 0
   ∧ g_total_success (update_counters code g) = g_total_success g + 1
   ∧ g_error_counts (update_counters code g) = g_error_counts g)
  ∨ (code ≠ 0
     ∧ g_total_success (update_counters code g) = g_total_success g
     ∧ g_error_counts (update_counters code g) !! code
       = Some (default 0 (g_error_counts g !! code) + 1)
     ∧ (∀ other, other ≠ code →
          g_error_counts (update_counters code g) !! other = g_error_counts g !! other)
     ∧ histogram_total (g_error_counts (update_counters code g))
       = histogram_total (g_error_counts g) + 1).
Proof.
  unfold update_counters. case_decide; [left; done|right]. simpl.
  split_and!; [done|done|apply lookup_insert_eq| |apply histogram_total_increment].
  intros other Hne. by apply lookup_insert_ne.
Qed.

Lemma update_counters_total (code : Z) (g : Globals) :
  g_total_success (update_counters code g)
  + histogram_total (g_error_counts (update_counters code g))
  = g_total_success g + histogram_total (g_error_counts g) + 1.
Proof. destruct (update_counters_once code g) as [(_ & -> & ->)|(_ & -> & _ & _ & ->)]; lia. Qed.

(** ** Mailboxes *)

Section Mailboxes.
Context {T : Type}.
Implicit Types (msgs rest : list (string * Job T)) (job : Job T) (w : string).

Lemma get_None w msgs : get w msgs = None ↔ inbox w msgs = [].
Proof.
  unfold inbox. induction msgs as [|[w' job'] msgs IH]; simpl; [done|].
  rewrite filter_cons. simpl. case_decide; [done|].
  destruct (get w msgs) as [[??]|]; [|tauto].
  split; [done|]. intros E. apply IH in E. done.
Qed.

Lemma get_Some w msgs job rest :
  get w msgs = Some (job, rest) →
  inbox w msgs = job :: inbox w rest
  ∧ (∀ w', w' ≠ w → inbox w' rest = inbox w' msgs)
  ∧ rest ⊆ msgs
  ∧ real_jobs msgs
    = ((if decide (name job = "exit") then 0 else 1) + real_jobs rest)%nat.
Proof.
  unfold inbox, real_jobs. revert rest.
  induction msgs as [|[w' job'] msgs IH]; intros rest; simpl; [done|].
  destruct (decide (w' = w)) as [->|Hne].
  - intros [= -> ->]. split_and!.
    + rewrite filter_cons. simpl. by rewrite decide_True.
    + intros w' Hw'. rewrite filter_cons. simpl. by rewrite decide_False.
    + intros m Hm. by right.
    + rewrite filter_cons. simpl.
      destruct (decide (name job = "exit")).
      * by rewrite decide_False by tauto.
      * by rewrite decide_True.
  - destruct (get w msgs) as [[job1 rest1]|]; [|done].
    intros [= -> <-]. destruct (IH rest1 eq_refl) as (I1 & I2 & I3 & I4). clear IH.
    split_and!.
    + rewrite !filter_cons. simpl. by rewrite !decide_False.
    + intros w'' Hw''. rewrite !filter_cons. simpl.
      destruct (decide (w' = w'')); [rewrite !map_cons; f_equal|]; by apply I2.
    + intros m [->|Hm]%elem_of_cons; [by left|right; by apply I3].
    + rewrite !filter_cons. simpl.
      destruct (decide (name job' ≠ "exit")); simpl; rewrite I4; lia.
Qed.
End Mailboxes.

Lemma elem_of_inbox {T} (w : string) (job : Job T) (msgs : list (string * Job T)) :
  job ∈ inbox w msgs ↔ (w, job) ∈ msgs.
Proof.
  unfold inbox. rewrite list_elem_of_In, in_map_iff. split.
  - intros ([w' job'] & <- & Hin). rewrite <- list_elem_of_In, list_elem_of_filter in Hin.
    simpl in *. by destruct Hin as [-> ?].
  - intros Hin. exists (w, job). split; [done|].
    rewrite <- list_elem_of_In, list_elem_of_filter. done.
Qed.

(** ** Invariants of a run *)

Section EngineInvariant.
Context {T : Type}.
Variable iteration : string → Job T → Globals → option (Iteration T).

(** What the engine needs to know of a worker's loop body. *)
Hypothesis iteration_exit : ∀ w job g it,
  name job = "exit" → iteration w job g = Some it →
  continue it = false ∧ globals it = g ∧ processed it = None.
Hypothesis iteration_job : ∀ w job g it,
  name job ≠ "exit" → iteration w job g = Some it →
  continue it = true ∧
  ∃ code elapsed,
    (code = error_code job ∨ code = -1) ∧
    processed it = Some (set_error_code job code, elapsed) ∧
    globals it = update_counters code g.

(** [N] real jobs were sent to a pool of [W] workers. *)
Variables (N W : nat).

Lemma resume_invariant w (s s' : Sim T) :
  invariant N W s → resume iteration w s = Some s' → invariant N W s'.
Proof using iteration_exit iteration_job.
  intros [Hcons Hjobs Hfresh Hcodes Haddr Hlast Hexit]. unfold resume.
  case_decide as Hw; [by intros [= <-]|].
  destruct (get w (pending s)) as [[job rest]|] eqn:Hget; [|by intros [= <-]].
  destruct (iteration w job (shared s)) as [it|] eqn:Hit; [|done].
  intros [= <-].
  apply get_Some in Hget as (Hin & Hothers & Hsub & Hreal).
  assert ((w, job) ∈ pending s) as Hmsg.
  { apply elem_of_inbox. rewrite Hin. by left. }
  destruct (decide (name job = "exit")) as [E|E].
  - destruct (iteration_exit _ _ _ _ E Hit) as (-> & -> & ->).
    split; simpl.
    + done.
    + lia.
    + intros w' job' Hin'. eapply Hfresh, Hsub, Hin'.
    + done.
    + intros w' job' Hin'. eapply Haddr, Hsub, Hin'.
    + intros w' l1 job' l2 Hbox Hname.
      destruct (decide (w' = w)) as [->|Hne].
      * apply (Hlast w (job :: l1) job' l2); [|done]. by rewrite Hin, Hbox.
      * rewrite Hothers in Hbox by done. by apply (Hlast w' l1 job' l2).
    + intros w' Hw'. destruct (decide (w' = w)) as [->|Hne].
      * by apply (Hlast w [] job (inbox w rest)).
      * rewrite Hothers by done. apply Hexit.
        by apply elem_of_union in Hw' as [Hw'%elem_of_singleton|Hw'].
  - destruct (iteration_job _ _ _ _ E Hit)
      as (-> & code & elapsed & Hcode & -> & ->).
    split; simpl.
    + rewrite update_counters_total. lia.
    + lia.
    + intros w' job' Hin'. eapply Hfresh, Hsub, Hin'.
    + intros code' count. rewrite (Hfresh _ _ Hmsg) in Hcode.
      unfold update_counters. destruct Hcode as [->| ->]; simpl; [apply Hcodes|].
      destruct (decide (code' = -1)) as [->|Hne]; [done|].
      rewrite lookup_insert_ne by done. apply Hcodes.
    + intros w' job' Hin'. eapply Haddr, Hsub, Hin'.
    + intros w' l1 job' l2 Hbox Hname.
      destruct (decide (w' = w)) as [->|Hne].
      * apply (Hlast w (job :: l1) job' l2); [|done]. by rewrite Hin, Hbox.
      * rewrite Hothers in Hbox by done. by apply (Hlast w' l1 job' l2).
    + intros w' Hw'. destruct (decide (w' = w)) as [->|Hne]; [done|].
      rewrite Hothers by done. by apply Hexit.
Qed.

Lemma run_invariant schedule (s s' : Sim T) :
  invariant N W s → run iteration schedule s = Some s' → invariant N W s'.
Proof using iteration_exit iteration_job.
  revert s. induction schedule as [|w schedule IH]; intros s Hinv; simpl.
  - by intros [= <-].
  - destruct (resume iteration w s) as [s1|] eqn:Hstep; [|done].
    apply IH. by eapply resume_invariant.
Qed.

(** A run may be cut at any point: the prefix has a result of its own. *)
Lemma run_app schedule1 schedule2 s s' :
  run iteration (schedule1 ++ schedule2) s = Some s' →
  ∃ s1, run iteration schedule1 s = Some s1 ∧ run iteration schedule2 s1 = Some s'.
Proof using Type.
  revert s. induction schedule1 as [|w schedule1 IH]; intros s; simpl; [by eauto|].
  destruct (resume iteration w s) as [s1|]; [apply IH|done].
Qed.

(** Once every worker has returned, nothing is pending and every real job
    has been processed. *)
Lemma all_exited_completed (s : Sim T) :
  invariant N W s → all_exited W s = true → pending s = [] ∧ completed s = N.
Proof using Type.
  intros [_ Hjobs _ _ Haddr _ Hexit] Hall.
  assert (pending s = []) as Hnil.
  { destruct (pending s) as [|[w job] rest] eqn:E; [done|]. exfalso.
    destruct (Haddr w job) as (k & Hk & ->); [by left|].
    unfold all_exited in Hall. rewrite forallb_forall in Hall.
    specialize (Hall k). rewrite in_seq in Hall.
    specialize (Hall ltac:(lia)). apply bool_decide_eq_true in Hall.
    apply Hexit in Hall.
    assert (job ∈ inbox (worker_name k) ((worker_name k, job) :: rest)) as Hin.
    { apply elem_of_inbox. by left. }
    rewrite Hall in Hin. by apply elem_of_nil in Hin. }
  split; [done|]. rewrite Hnil in Hjobs. unfold real_jobs in Hjobs. simpl in Hjobs. lia.
Qed.
End EngineInvariant.

Section InitialState.
Context {T : Type} `{Double T}.
Variable RAND_MAX : Z.
Variable rand : nat → Z.
Variable MAX_WORKERS : nat.
Hypothesis pool : (0 < MAX_WORKERS)%nat.

Lemma elem_of_master w job num_jobs :
  (w, job) ∈ master RAND_MAX rand MAX_WORKERS num_jobs →
  (∃ i, (w, job) = send_job RAND_MAX rand MAX_WORKERS i)
  ∨ (∃ i, (i < MAX_WORKERS)%nat ∧ (w, job) = send_termination i).
Proof using Type.
  clear pool.
  unfold master. rewrite elem_of_app, !list_elem_of_In, !in_map_iff.
  intros [(i & E & _)|(i & E & Hi)]; [left|right]; exists i.
  - done.
  - apply in_seq in Hi. split; [lia|done].
Qed.

Lemma real_jobs_master num_jobs :
  real_jobs (master RAND_MAX rand MAX_WORKERS num_jobs) = Z.to_nat num_jobs.
Proof using Type.
  clear pool.
  unfold master, real_jobs. rewrite filter_app, length_app.
  assert (∀ l, length (filter (λ m : string * Job T, name m.2 ≠ "exit")
                         (map (send_job RAND_MAX rand MAX_WORKERS) l)) = length l) as ->.
  { induction l as [|i l IH]; [done|].
    rewrite map_cons, filter_cons, decide_True by done. simpl. by rewrite IH. }
  assert (∀ l, length (filter (λ m : string * Job T, name m.2 ≠ "exit")
                         (map (send_termination (T:=T)) l)) = 0%nat) as ->.
  { induction l as [|i l IH]; [done|].
    rewrite map_cons, filter_cons, decide_False; [done|]. simpl. tauto. }
  rewrite length_seq. lia.
Qed.

Lemma boot_invariant num_jobs :
  invariant (Z.to_nat num_jobs) MAX_WORKERS
    (boot (master RAND_MAX rand MAX_WORKERS num_jobs)).
Proof using pool.
  split; simpl.
  - done.
  - apply real_jobs_master.
  - intros w job [(i & E)|(i & _ & E)]%elem_of_master; by injection E as -> ->.
  - intros code count. by rewrite lookup_empty.
  - intros w job [(i & E)|(i & Hi & E)]%elem_of_master; injection E as -> ->.
    + exists (i mod MAX_WORKERS)%nat. split; [|done]. apply Nat.mod_upper_bound. lia.
    + by exists i.
  - intros w l1 job l2 Hbox Hname.
    assert ((w, job) ∈ master RAND_MAX rand MAX_WORKERS num_jobs) as Hin.
    { apply elem_of_inbox. rewrite Hbox. apply elem_of_app. right. by left. }
    assert (∃ k, (k < MAX_WORKERS)%nat ∧ w = worker_name k) as (k & Hk & ->).
    { apply elem_of_master in Hin as [(i & E)|(i & Hi & E)]; injection E as -> ->.
      - by destruct (job_name_not_exit i).
      - by exists i. }
    rewrite inbox_master in Hbox by done.
    destruct l2 as [|job2 l2 _] using rev_ind; [done|]. exfalso.
    rewrite app_comm_cons, app_assoc in Hbox.
    apply app_inj_tail in Hbox as [Hbox _].
    assert (In job (l1 ++ job :: l2)) as Hjob by (apply in_elt).
    rewrite <- Hbox in Hjob. apply in_map_iff in Hjob as (i & <- & _).
    by destruct (job_name_not_exit i).
  - intros w Hw. by apply not_elem_of_empty in Hw.
Qed.
End InitialState.

(** ** Runs of simgrid_cluster_with_historical_errors.cpp *)

Section HistoricalRuns.
Context {T : Type} `{Double T}.
Variable RAND_MAX : Z.
Variable rand : nat → Z.
Variable muted : bool.
Variable fuel : nat.

Lemma historical_run_invariant schedule total_jobs s :
  run (Historical.worker_iteration muted fuel) schedule
    (boot (master RAND_MAX rand HistoricalMain.MAX_WORKERS total_jobs)) = Some s →
  invariant (Z.to_nat total_jobs) HistoricalMain.MAX_WORKERS s.
Proof.
  apply run_invariant.
  - intros w job g it E. rewrite historical_iteration_exit by done. by intros [= <-].
  - intros w job g it. apply historical_iteration_job.
  - apply boot_invariant. unfold HistoricalMain.MAX_WORKERS. lia.
Qed.

(** [main] returns once [e.run()] has, with every worker gone; what it
    prints is the diagnostic of the sampler's construction, if any, and the
    summary of the globals. *)
Lemma historical_main_inv schedule j queue_name total_jobs out s :
  HistoricalMain.main RAND_MAX rand muted fuel schedule j queue_name total_jobs
  = Some (out, s) →
  run (Historical.worker_iteration muted fuel) schedule
    (boot (master RAND_MAX rand HistoricalMain.MAX_WORKERS total_jobs)) = Some s
  ∧ all_exited HistoricalMain.MAX_WORKERS s = true
  ∧ out = (HistoricalMain.build_sampler (T:=T)
             (HistoricalMain.build_dictionary j) queue_name).2
          ++ [SimulationSummary (summary total_jobs (shared s))].
Proof.
  unfold HistoricalMain.main.
  destruct (HistoricalMain.build_sampler _ _) as [sampler diagnostic].
  destruct (run _ _ _) as [s'|]; [|done].
  destruct (all_exited _ _) eqn:Hall; [|done].
  by intros [= <- <-].
Qed.

(** The run does not depend on the table or on the site. *)
Lemma historical_main_independent schedule j queue_name j' queue_name' total_jobs :
  snd <$> HistoricalMain.main RAND_MAX rand muted fuel schedule j queue_name total_jobs
  = snd <$> HistoricalMain.main RAND_MAX rand muted fuel schedule j' queue_name' total_jobs
  ∧ (last ∘ fst)
      <$> HistoricalMain.main RAND_MAX rand muted fuel schedule j queue_name total_jobs
    = (last ∘ fst)
        <$> HistoricalMain.main RAND_MAX rand muted fuel schedule j' queue_name' total_jobs.
Proof.
  unfold HistoricalMain.main.
  destruct (HistoricalMain.build_sampler _ queue_name) as [sampler diagnostic].
  destruct (HistoricalMain.build_sampler _ queue_name') as [sampler' diagnostic'].
  destruct (run _ _ _) as [s'|]; [|done].
  destruct (all_exited _ _); [|done].
  simpl. by rewrite !last_snoc.
Qed.
End HistoricalRuns.

(** The same balance in simgrid_cluster_with_errors.cpp, with its 20 jobs
    and 10 workers. *)
Lemma errors_conservation {T} `{Double T} RAND_MAX rand fuel schedule out (s : Sim T) :
  ErrorsMain.main RAND_MAX rand fuel schedule = Some (out, s) →
  g_total_success (shared s) + histogram_total (g_error_counts (shared s)) = 20
  ∧ completed s = 20%nat
  ∧ out = [SimulationSummary
             (mkSummary 20 (g_total_success (shared s)) (20 - g_total_success (shared s))
                (if 0 <? 20 - g_total_success (shared s)
                 then Some (g_error_counts (shared s)) else None))].
Proof.
  unfold ErrorsMain.main.
  destruct (run _ _ _) as [s'|] eqn:Hrun; [|done].
  destruct (all_exited _ _) eqn:Hall; [|done].
  intros [= <- <-].
  assert (invariant (Z.to_nat ErrorsMain.num_jobs) ErrorsMain.MAX_WORKERS s') as Hinv.
  { eapply run_invariant; [| | |exact Hrun].
    - intros w job g it E. rewrite errors_iteration_exit by done. by intros [= <-].
    - intros w job g it. apply errors_iteration_job.
    - apply boot_invariant. unfold ErrorsMain.MAX_WORKERS. lia. }
  destruct (all_exited_completed _ _ _ Hinv Hall) as [_ Hdone].
  pose proof (inv_conservation _ _ _ Hinv) as Hcons.
  change (Z.to_nat ErrorsMain.num_jobs) with 20%nat in Hdone.
  split_and!; [lia|done|done].
Qed.

(** C1: in every completed run of the historical-errors program, the
    successes plus the sum of the error histogram equal the number of real
    jobs processed, which is the number of jobs sent; the summary reports
    [total_failures] as [total_jobs - total_success], which for
    [total_jobs >= 0] is the sum of the histogram; the same balance holds
    after every prefix of the run; and processing one real job moves the
    balance by exactly one, through exactly one of the two counters. *)
Theorem conservation_of_outcomes :
  ∀ (T : Type) (D : Double T) (RAND_MAX : Z) (rand : nat → Z) (muted : bool)
    (fuel : nat) (schedule : list string) (j : list (string * list (string * Z)))
    (queue_name : string) (total_jobs : Z) (out : list Output) (s : Sim T),
    HistoricalMain.main RAND_MAX rand muted fuel schedule j queue_name total_jobs
    = Some (out, s) →
    g_total_success (shared s) + histogram_total (g_error_counts (shared s))
    = Z.of_nat (completed s)
    ∧ completed s = Z.to_nat total_jobs
    ∧ (∃ diagnostic details,
         out = diagnostic
               ++ [SimulationSummary
                     (mkSummary total_jobs (g_total_success (shared s))
                        (total_jobs - g_total_success (shared s)) details)])
    ∧ (0 ≤ total_jobs →
       histogram_total (g_error_counts (shared s))
       = total_jobs - g_total_success (shared s))
    ∧ (∀ schedule1 schedule2, schedule = schedule1 ++ schedule2 →
       ∃ s1, run (Historical.worker_iteration muted fuel) schedule1
               (boot (master RAND_MAX rand HistoricalMain.MAX_WORKERS total_jobs))
             = Some s1
             ∧ g_total_success (shared s1) + histogram_total (g_error_counts (shared s1))
               = Z.of_nat (completed s1))
    ∧ (∀ w job g it,
         name job ≠ "exit" →
         Historical.worker_iteration muted fuel w job g = Some it →
         (g_total_success (globals it) = g_total_success g + 1
          ∧ g_error_counts (globals it) = g_error_counts g)
         ∨ (g_total_success (globals it) = g_total_success g
            ∧ histogram_total (g_error_counts (globals it))
              = histogram_total (g_error_counts g) + 1)).
Proof.
  intros T D RAND_MAX rand muted fuel schedule j queue_name total_jobs out s Hmain.
  apply historical_main_inv in Hmain as (Hrun & Hall & ->).
  pose proof (historical_run_invariant _ _ _ _ _ _ _ Hrun) as Hinv.
  destruct (all_exited_completed _ _ _ Hinv Hall) as [_ Hdone].
  pose proof (inv_conservation _ _ _ Hinv) as Hcons.
  split_and!.
  - done.
  - done.
  - by eexists _, _.
  - intros Hpos. lia.
  - intros schedule1 schedule2 ->.
    apply run_app in Hrun as (s1 & Hrun1 & _). exists s1. split; [done|].
    by eapply inv_conservation, historical_run_invariant.
  - intros w job g it Hname Hit.
    destruct (historical_iteration_job muted fuel w job g it Hname Hit)
      as (_ & code & elapsed & _ & _ & ->).
    destruct (update_counters_once code g) as [(_ & -> & ->)|(_ & -> & _ & _ & ->)]; auto.
Qed.

Example demo_main_summary :
  (last ∘ fst) <$> demo_main "SITE_A"
  = Some (Some (SimulationSummary (mkSummary 5 2 3 (Some {[ -1 := 3 ]})))).
Proof. vm_compute. reflexivity. Qed.

Lemma conservation_of_outcomes_witness :
  ∃ out s,
    demo_main "SITE_A" = Some (out, s)
    ∧ g_total_success (shared s) + histogram_total (g_error_counts (shared s))
      = Z.of_nat (completed s)
    ∧ completed s = Z.to_nat 5
    ∧ histogram_total (g_error_counts (shared s)) = 5 - g_total_success (shared s).
Proof.
  destruct (demo_main "SITE_A") as [[out s]|] eqn:E.
  - exists out, s. split; [reflexivity|].
    destruct (conservation_of_outcomes float binary64 2147483647 demo_rand false 200
                demo_schedule demo_table "SITE_A" 5 out s E)
      as (Hbalance & Hdone & _ & Hfailures & _).
    split; [exact Hbalance|]. split; [exact Hdone|]. apply Hfailures. lia.
  - vm_compute in E. discriminate.
Defined.

(** C4: the outcome of a run of the historical-errors program does not depend
    on the error table or on the site, that is on anything the sampler is
    built from: two runs that differ only there end in the same state and
    print the same summary.  A job that arrives with error code 0 leaves the
    worker with code 0 or -1, and in the final histogram the only key is
    -1. *)
Theorem sampler_never_consulted :
  ∀ (T : Type) (D : Double T) (RAND_MAX : Z) (rand : nat → Z) (muted : bool)
    (fuel : nat) (schedule : list string) (total_jobs : Z)
    (j : list (string * list (string * Z))) (queue_name : string),
    (∀ j' queue_name',
       snd <$> HistoricalMain.main RAND_MAX rand muted fuel schedule j queue_name total_jobs
       = snd <$> HistoricalMain.main RAND_MAX rand muted fuel schedule j' queue_name'
                   total_jobs
       ∧ (last ∘ fst)
           <$> HistoricalMain.main RAND_MAX rand muted fuel schedule j queue_name total_jobs
         = (last ∘ fst)
             <$> HistoricalMain.main RAND_MAX rand muted fuel schedule j' queue_name'
                   total_jobs)
    ∧ (∀ out s,
         HistoricalMain.main RAND_MAX rand muted fuel schedule j queue_name total_jobs
         = Some (out, s) →
         ∀ code count, g_error_counts (shared s) !! code = Some count → code = -1)
    ∧ (∀ w (job job' : Job T) g it elapsed,
         error_code job = 0 →
         Historical.worker_iteration muted fuel w job g = Some it →
         processed it = Some (job', elapsed) →
         error_code job' = 0 ∨ error_code job' = -1).
Proof.
  intros T D RAND_MAX rand muted fuel schedule total_jobs j queue_name. split_and!.
  - intros j' queue_name'. apply historical_main_independent.
  - intros out s Hmain. apply historical_main_inv in Hmain as (Hrun & _ & _).
    by eapply inv_codes, historical_run_invariant.
  - intros w job job' g it elapsed Hfresh Hit Hjob.
    destruct (decide (name job = "exit")) as [E|E].
    + rewrite historical_iteration_exit in Hit by done. by injection Hit as <-.
    + destruct (historical_iteration_job muted fuel w job g it E Hit)
        as (_ & code & elapsed' & Hcode & Hproc & _).
      rewrite Hproc in Hjob. injection Hjob as <- <-. simpl. lia.
Qed.

Lemma sampler_never_consulted_witness :
  (snd <$> demo_main "SITE_A" = snd <$> demo_main "SITE_B")
  ∧ ∃ out s,
      demo_main "SITE_A" = Some (out, s)
      ∧ ∀ code count, g_error_counts (shared s) !! code = Some count → code = -1.
Proof.
  pose proof (sampler_never_consulted float binary64 2147483647 demo_rand false 200
                demo_schedule 5 demo_table "SITE_A") as (Hsame & Hcodes & _).
  split.
  - apply (Hsame demo_table "SITE_B").
  - destruct (demo_main "SITE_A") as [[out s]|] eqn:E.
    + exists out, s. split; [reflexivity|]. apply (Hcodes out s E).
    + vm_compute in E. discriminate.
Defined.

(** ** The error table and the sampler *)

Section SamplerFacts.
Implicit Types (dictionary : gmap string (gmap string Z)) (codes : gmap string Z).

(** A site that no item of the table names is not in the dictionary. *)
Lemma build_dictionary_absent (j : list (string * list (string * Z))) queue_name :
  (∀ entries, (queue_name, entries) ∉ j) →
  HistoricalMain.build_dictionary j !! queue_name = None.
Proof.
  unfold HistoricalMain.build_dictionary.
  assert (∀ dictionary, dictionary !! queue_name = None →
            (∀ entries, (queue_name, entries) ∉ j) →
            foldl (λ dictionary '(site_name, entries),
                     foldl (λ dictionary '(code, count),
                              <[site_name := <[code := count]>
                                               (default ∅ (dictionary !! site_name))]>
                                dictionary)
                           dictionary entries)
                  dictionary j !! queue_name = None) as Hgen.
  { induction j as [|[site_name entries] j IH]; intros dictionary Hnone Habsent; [done|].
    simpl. apply IH.
    - assert (site_name ≠ queue_name) as Hne.
      { intros ->. apply (Habsent entries). by left. }
      clear IH Habsent. revert dictionary Hnone.
      induction entries as [|[code count] entries IHc]; intros dictionary Hnone; [done|].
      simpl. apply IHc. by rewrite lookup_insert_ne.
    - intros entries' Hin. apply (Habsent entries'). by right. }
  intros Habsent. by apply Hgen.
Qed.

(** Copying a map entry by entry gives the map back. *)
Lemma copy_entries (l : list (string * Z)) (acc : gmap string Z) (k : string) :
  NoDup l.*1 →
  foldl (λ error_codes '(code, count), <[code := count]> error_codes) acc l !! k
  = match (list_to_map l : gmap string Z) !! k with
    | Some count => Some count
    | None => acc !! k
    end.
Proof.
  revert acc. induction l as [|[code count] l IH]; intros acc Hnd; simpl; [done|].
  apply NoDup_cons in Hnd as [Hnotin Hnd]. rewrite IH by done.
  destruct (decide (code = k)) as [->|Hne].
  - rewrite !lookup_insert_eq.
    by rewrite (not_elem_of_list_to_map_1 (M:=gmap string) l k Hnotin).
  - by rewrite !lookup_insert_ne.
Qed.

Lemma copy_map codes :
  foldl (λ error_codes '(code, count), <[code := count]> error_codes) ∅ (map_to_list codes)
  = codes.
Proof.
  apply map_eq. intros k.
  rewrite copy_entries by apply NoDup_fst_map_to_list.
  rewrite list_to_map_to_list, lookup_empty. by destruct (codes !! k).
Qed.

(** [int] addition without overflow. *)
Lemma wrap_int_small z : INT_MIN ≤ z ≤ INT_MAX → wrap_int z = z.
Proof.
  unfold INT_MIN, INT_MAX, wrap_int. intros Hz. rewrite Z.mod_small by lia. lia.
Qed.

Lemma wrap_int_add a b : wrap_int (wrap_int a + b) = wrap_int (a + b).
Proof.
  unfold wrap_int. f_equal.
  replace ((a + 2147483648) mod 4294967296 - 2147483648 + b + 2147483648)
    with ((a + 2147483648) mod 4294967296 + b) by lia.
  rewrite Zplus_mod_idemp_l. f_equal. lia.
Qed.

(** The loop "Calculate the total weight" sums the counts, as [int]s. *)
Lemma total_weight_sum (l : list (string * Z)) (acc : Z) :
  foldl (λ total_weight pair, wrap_int (total_weight + pair.2)) (wrap_int acc) l
  = wrap_int (acc + foldr (λ pair total, pair.2 + total) 0 l).
Proof.
  revert acc. induction l as [|pair l IH]; intros acc; simpl; [by rewrite Z.add_0_r|].
  rewrite wrap_int_add, IH. f_equal. lia.
Qed.

Lemma histogram_total_list codes :
  histogram_total codes = foldr (λ pair total, pair.2 + total) 0 (map_to_list codes).
Proof.
  unfold histogram_total. rewrite map_fold_foldr.
  induction (map_to_list codes) as [|[code count] l IH]; simpl; [done|]. by rewrite IH.
Qed.

Lemma total_weight_histogram codes :
  foldl (λ total_weight pair, wrap_int (total_weight + pair.2)) 0 (map_to_list codes)
  = wrap_int (histogram_total codes).
Proof.
  change 0 with (wrap_int 0) at 1. by rewrite total_weight_sum, histogram_total_list.
Qed.

(** Counts that are not negative, and add up to at most [INT_MAX], are
    added as doubles without rounding. *)
Lemma of_int_add (a c : Z) :
  0 ≤ a → 0 ≤ c → a + c ≤ INT_MAX → dadd (of_int a) (of_int c) = of_int (T:=float) (a + c).
Proof.
  unfold INT_MAX. intros Ha Hc Hsum.
  assert (∀ z, 0 ≤ z ≤ 2147483647 → 0 ≤ z < 2 ^ 53) as Hsmall.
  { intros z Hz. change (2 ^ 53) with 9007199254740992. lia. }
  destruct (decide (a + c = 0)) as [E|N].
  { assert (a = 0) as -> by lia. assert (c = 0) as -> by lia. reflexivity. }
  destruct (of_int_fval a (Hsmall a ltac:(lia))) as [Fa Ea].
  destruct (of_int_fval c (Hsmall c ltac:(lia))) as [Fc Ec].
  destruct (of_int_fval (a + c) (Hsmall (a + c) ltac:(lia))) as [Fs Es].
  destruct (add_fval (of_int a) (of_int c) Fa Fc) as [Ns E].
  rewrite Ea, Ec, <- Z.mul_add_distr_r in E.
  rewrite RN_exact in E by (apply representable_multiple; [apply Hsmall; lia|lia]).
  pose proof (fval_lt_top _ Fs) as Htop. rewrite Es in Htop.
  rewrite Z.min_l in E by lia.
  assert (0 < 2 ^ 1074) by (by apply pow2_pos).
  change (dadd (of_int a) (of_int c)) with (of_int a + of_int c)%float.
  apply fval_inj.
  - apply nonneg_lt_top; [done|]. fold (fval (of_int a + of_int c)). lia.
  - done.
  - rewrite E. apply Z.mul_pos_pos; lia.
  - by rewrite E, Es.
Qed.

Lemma weights_sum (l : list (string * Z)) (acc : Z) :
  0 ≤ acc → (∀ pair, pair ∈ l → 0 ≤ pair.2) →
  acc + foldr (λ pair total, pair.2 + total) 0 l ≤ INT_MAX →
  foldl dadd (of_int acc) (map (λ pair : string * Z, of_int pair.2) l)
  = of_int (T:=float) (acc + foldr (λ pair total, pair.2 + total) 0 l).
Proof.
  revert acc. induction l as [|pair l IH]; intros acc Hacc Hl Hsum;
    cbn [map foldl foldr] in *.
  { by rewrite Z.add_0_r. }
  assert (0 ≤ foldr (λ pair total, pair.2 + total) 0 l) as Hrest.
  { clear -Hl. induction l as [|p l IH]; simpl; [done|].
    pose proof (Hl p ltac:(right; by left)).
    assert (0 ≤ foldr (λ pair total, pair.2 + total) 0 l); [|lia].
    apply IH. intros q Hq. apply Hl. apply elem_of_cons in Hq as [->|Hq]; [by left|].
    right. by right. }
  pose proof (Hl pair ltac:(by left)) as Hpair.
  rewrite of_int_add by lia. rewrite IH; [f_equal; lia|lia| |lia].
  intros q Hq. apply Hl. by right.
Qed.

Lemma count_le_sum (l : list (string * Z)) (pair : string * Z) :
  (∀ pair, pair ∈ l → 0 ≤ pair.2) → pair ∈ l →
  pair.2 ≤ foldr (λ pair total, pair.2 + total) 0 l.
Proof.
  induction l as [|p l IH]; intros Hl Hin; [by apply elem_of_nil in Hin|]. simpl.
  assert (0 ≤ foldr (λ pair total, pair.2 + total) 0 l) as Hrest.
  { clear -Hl. induction l as [|q l IH]; simpl; [done|].
    pose proof (Hl q ltac:(right; by left)).
    assert (0 ≤ foldr (λ pair total, pair.2 + total) 0 l); [|lia].
    apply IH. intros r Hr. apply Hl. apply elem_of_cons in Hr as [->|Hr]; [by left|].
    right. by right. }
  pose proof (Hl p ltac:(by left)).
  apply elem_of_cons in Hin as [->|Hin]; [lia|].
  assert (pair.2 ≤ foldr (λ pair total, pair.2 + total) 0 l); [|lia].
  apply IH; [|done]. intros q Hq. apply Hl. by right.
Qed.

(** The probability of a code: the double quotient of its count by the
    total. *)
Lemma probability_range (count total : Z) :
  0 ≤ count ≤ total → 0 < total ≤ INT_MAX →
  let p : float := ddiv (of_int count) (of_int total) in
  dge p (of_int 0) = true
  ∧ dge (of_int 1) p = true
  ∧ (0 < count → dlt (of_int 0) p = true)
  ∧ (count = 0 → p = of_int 0).
Proof.
  intros Hcount Htotal p. unfold INT_MAX in Htotal.
  assert (ffinite (of_int 0)) as F0 by (by apply is_finite_nonneg_spec).
  assert (ffinite (of_int 1)) as F1 by (by apply is_finite_nonneg_spec).
  assert (fval (of_int 1) = 2 ^ 1074) as E1 by (by destruct (of_int_fval 1 ltac:(done))).
  assert (0 < 2 ^ 1043) as HK by (by apply pow2_pos).
  destruct (of_int_fval total ltac:(change (2 ^ 53) with 9007199254740992; lia)) as [Ft Et].
  assert (ffinite p ∧ 0 ≤ fval p ≤ 2 ^ 1074 ∧ (0 < count → 0 < fval p)
          ∧ (count = 0 → p = of_int 0)) as (Fp & Hp & Hpos & Hzero).
  { destruct (decide (count = 0)) as [->|N].
    - destruct (div_fval_zero (of_int 0) (of_int total)) as [Fp Ep]; [done|done| |].
      { rewrite Et. assert (0 < 2 ^ 1074) by (by apply pow2_pos). nia. }
      change (of_int 0 / of_int total)%float with p in Fp, Ep. split; [done|]. rewrite Ep.
      split; [split; [done|by apply Z.pow_nonneg]|]. split; [lia|]. intros _.
      apply Prim2SF_inj. unfold p. change (ddiv (of_int 0) (of_int total))
        with (of_int 0 / of_int total)%float.
      rewrite div_spec. unfold ffinite, fval in Ft, Et.
      destruct (Prim2SF (of_int total)) as [| | |[] m e] eqn:E; try done.
      cbn [ival] in Et. assert (0 < 2 ^ 1074) by (by apply pow2_pos). nia.
    - destruct (quotient_range count total ltac:(lia) ltac:(lia)) as (Fp & Hq & _).
      change (of_int count / of_int total)%float with p in Fp, Hq.
      split; [done|]. split; [lia|]. split; [lia|]. lia. }
  split_and!; [| |intros Hc|done].
  - change (PrimFloat.leb (of_int 0) p = true).
    rewrite leb_fval by (by apply ffinite_fnonneg). apply Z.leb_le.
    change (fval (of_int 0)) with 0. lia.
  - change (PrimFloat.leb p (of_int 1) = true).
    rewrite leb_fval by (by apply ffinite_fnonneg). apply Z.leb_le. lia.
  - change (PrimFloat.ltb (of_int 0) p = true).
    rewrite ltb_fval by (by apply ffinite_fnonneg). apply Z.ltb_lt.
    change (fval (of_int 0)) with 0. by apply Hpos.
Qed.
End SamplerFacts.

(** C7: when no entry of the error table carries the target site's name,
    [main] prints the "Site not found" diagnostic and the site has no error
    codes: [error_codes] is empty, there are no weights and the total weight
    is 0, so there is no error code to draw; the run goes on, and the only
    key its histogram can hold is the timeout code -1. *)
Theorem site_absent_fallback :
  ∀ (T : Type) (D : Double T) (RAND_MAX : Z) (rand : nat → Z) (muted : bool)
    (fuel : nat) (schedule : list string) (j : list (string * list (string * Z)))
    (queue_name : string) (total_jobs : Z),
    (∀ entries, (queue_name, entries) ∉ j) →
    HistoricalMain.build_sampler (T:=T) (HistoricalMain.build_dictionary j) queue_name
    = (mkSampler ∅ 0 [] [of_int 1], [SiteNotFound queue_name])
    ∧ ∀ out s,
        HistoricalMain.main RAND_MAX rand muted fuel schedule j queue_name total_jobs
        = Some (out, s) →
        out = [SiteNotFound queue_name; SimulationSummary (summary total_jobs (shared s))]
        ∧ ∀ code count, g_error_counts (shared s) !! code = Some count → code = -1.
Proof.
  intros T D RAND_MAX rand muted fuel schedule j queue_name total_jobs Habsent.
  assert (HistoricalMain.build_sampler (T:=T) (HistoricalMain.build_dictionary j) queue_name
          = (mkSampler ∅ 0 [] [of_int 1], [SiteNotFound queue_name])) as Hsampler.
  { unfold HistoricalMain.build_sampler.
    rewrite build_dictionary_absent by done. by rewrite map_to_list_empty. }
  split; [done|]. intros out s Hmain.
  apply historical_main_inv in Hmain as (Hrun & _ & ->). rewrite Hsampler. split; [done|].
  by eapply inv_codes, historical_run_invariant.
Qed.

Lemma site_absent_fallback_witness :
  HistoricalMain.build_sampler (T:=float) (HistoricalMain.build_dictionary demo_table)
    "SITE_C"
  = (mkSampler ∅ 0 [] [of_int 1], [SiteNotFound "SITE_C"])
  ∧ ∃ out s,
      demo_main "SITE_C" = Some (out, s)
      ∧ out = [SiteNotFound "SITE_C"; SimulationSummary (summary 5 (shared s))]
      ∧ ∀ code count, g_error_counts (shared s) !! code = Some count → code = -1.
Proof.
  assert (∀ entries, ("SITE_C", entries) ∉ demo_table) as Habsent.
  { intros entries Hin. unfold demo_table in Hin.
    repeat (apply elem_of_cons in Hin as [Hin|Hin]; [discriminate|]).
    by apply elem_of_nil in Hin. }
  destruct (site_absent_fallback float binary64 2147483647 demo_rand false 200
              demo_schedule demo_table "SITE_C" 5 Habsent) as [Hsampler Hrun].
  split; [exact Hsampler|].
  destruct (demo_main "SITE_C") as [[out s]|] eqn:E.
  - exists out, s. split; [reflexivity|]. apply (Hrun out s E).
  - vm_compute in E. discriminate.
Defined.

(** C8: on binary64, as the program computes, for a site present in the
    table whose counts are not negative and add up to a positive total that
    an [int] can hold, the sampler [main] builds is the discrete distribution
    over the site's (code, count) pairs: [error_codes] is the site's table,
    [total_weight] the sum of its counts, the weights add up to it without
    rounding, and the pair at each position of [error_codes] has the double
    of its count as weight and the double quotient [count / total_weight] as
    probability, which lies in [0, 1], is positive for a positive count and
    is 0 for a count of 0. *)
Theorem weighted_sampling :
  ∀ (dictionary : gmap string (gmap string Z)) (queue_name : string)
    (codes : gmap string Z),
    dictionary !! queue_name = Some codes →
    (∀ code count, codes !! code = Some count → 0 ≤ count) →
    0 < histogram_total codes ≤ INT_MAX →
    let sampler := (HistoricalMain.build_sampler (T:=float) dictionary queue_name).1 in
    (HistoricalMain.build_sampler (T:=float) dictionary queue_name).2 = []
    ∧ error_codes sampler = codes
    ∧ total_weight sampler = histogram_total codes
    ∧ foldl dadd (of_int 0) (weights sampler) = of_int (total_weight sampler)
    ∧ length (dist sampler) = size codes
    ∧ ∀ code count,
        codes !! code = Some count →
        ∃ (i : nat) (p : float),
          map_to_list (error_codes sampler) !! i = Some (code, count)
          ∧ weights sampler !! i = Some (of_int count)
          ∧ dist sampler !! i = Some p
          ∧ p = ddiv (of_int count) (of_int (total_weight sampler))
          ∧ dge p (of_int 0) = true
          ∧ dge (of_int 1) p = true
          ∧ (0 < count → dlt (of_int 0) p = true)
          ∧ (count = 0 → p = of_int 0).
Proof.
  intros dictionary queue_name codes Hsite Hcounts Htotal.
  unfold HistoricalMain.build_sampler. rewrite Hsite, copy_map. simpl.
  rewrite total_weight_histogram.
  rewrite wrap_int_small by (unfold INT_MIN, INT_MAX in *; lia).
  assert (∀ pair, pair ∈ map_to_list codes → 0 ≤ pair.2) as Hlist.
  { intros [code count] Hin. apply elem_of_map_to_list in Hin. by eapply Hcounts. }
  pose proof (weights_sum (map_to_list codes) 0 ltac:(done) Hlist) as HS.
  rewrite Z.add_0_l, <- histogram_total_list in HS. specialize (HS ltac:(lia)).
  unfold discrete_distribution.
  destruct (map_to_list codes) as [|pair l] eqn:El.
  { exfalso. rewrite histogram_total_list, El in Htotal. simpl in Htotal. lia. }
  rewrite <- El in *.
  set (weight := λ pair : string * Z, of_int (T:=float) pair.2) in *.
  set (S := foldl dadd (of_int 0) (map weight (map_to_list codes))) in *.
  replace (match map weight (map_to_list codes) with
           | [] => [of_int 1]
           | _ :: _ => map (λ w : float, ddiv w S) (map weight (map_to_list codes))
           end)
    with (map (λ w : float, ddiv w S) (map weight (map_to_list codes)))
    by (by rewrite El).
  split_and!; [done|done|done|done| |].
  - rewrite !length_map. apply length_map_to_list.
  - intros code count Hcode.
    assert ((code, count) ∈ map_to_list codes) as Hin by (by apply elem_of_map_to_list).
    pose proof (Hlist _ Hin) as Hcount. simpl in Hcount.
    apply list_elem_of_lookup in Hin as [i Hi].
    exists i, (ddiv (weight (code, count)) S).
    change (map weight (map_to_list codes)) with (weight <$> map_to_list codes).
    change (map (λ w : float, ddiv w S) (weight <$> map_to_list codes))
      with ((λ w : float, ddiv w S) <$> (weight <$> map_to_list codes)).
    rewrite !list_lookup_fmap, Hi. simpl. rewrite HS. unfold weight. simpl.
    assert (count ≤ histogram_total codes) as Hle.
    { rewrite histogram_total_list. apply (count_le_sum _ (code, count)); [done|].
      by eapply list_elem_of_lookup_2. }
    destruct (probability_range count (histogram_total codes) ltac:(lia) ltac:(lia))
      as (H0 & H1 & Hpos & Hzero).
    by split_and!.
Qed.

Lemma weighted_sampling_witness :
  let sampler :=
    (HistoricalMain.build_sampler (T:=float) (HistoricalMain.build_dictionary demo_table)
       "SITE_A").1 in
  error_codes sampler = {[ "1099" := 3; "1305" := 1; "1150" := 0 ]}
  ∧ total_weight sampler = 4
  ∧ ∃ (i : nat) (p : float),
      map_to_list (error_codes sampler) !! i = Some ("1099", 3)
      ∧ dist sampler !! i = Some p
      ∧ p = 0.75%float.
Proof.
  assert (HistoricalMain.build_dictionary demo_table !! "SITE_A"
          = Some {[ "1099" := 3; "1305" := 1; "1150" := 0 ]}) as Hsite
    by (vm_compute; reflexivity).
  assert (∀ code count,
            ({[ "1099" := 3; "1305" := 1; "1150" := 0 ]} : gmap string Z) !! code
            = Some count → 0 ≤ count) as Hcounts.
  { intros code count Hcode.
    apply lookup_insert_Some in Hcode as [[_ <-]|[_ Hcode]]; [lia|].
    apply lookup_insert_Some in Hcode as [[_ <-]|[_ Hcode]]; [lia|].
    apply lookup_singleton_Some in Hcode as [_ <-]. lia. }
  destruct (weighted_sampling (HistoricalMain.build_dictionary demo_table) "SITE_A"
              {[ "1099" := 3; "1305" := 1; "1150" := 0 ]} Hsite Hcounts
              ltac:(split; vm_compute; [reflexivity|discriminate]))
    as (_ & Hcodes & Htotal & _ & _ & Hdist).
  split; [exact Hcodes|]. split; [rewrite Htotal; vm_compute; reflexivity|].
  destruct (Hdist "1099" 3 ltac:(vm_compute; reflexivity))
    as (i & p & Hi & _ & Hp & E & _).
  exists i, p. split; [exact Hi|]. split; [exact Hp|].
  rewrite E, Htotal. vm_compute. reflexivity.
Defined.

(** * Further properties of the code *)

(** ** How long a job keeps its worker *)

(** X1: on binary64, as the program computes, the slice loop of either
    worker returns for every double, NaN, the infinities and the negative
    numbers included, within 102 turns.  A load that is not positive leaves
    elapsed at 0 and the job as it was received; a positive load up to
    10.09999999999998, the sum of 101 slices, is run to its end, with elapsed
    equal to the load; a greater load is aborted with error code -1 when
    elapsed is that sum, the first to reach the ceiling. *)
Theorem processing_time :
  ∀ (muted : bool) (fuel : nat) (w : string) (job : Job float),
    (102 ≤ fuel)%nat →
    let result :=
      if dlt ceiling_reached (load job) then
        (set_error_code job (-1), ceiling_reached, [WorkerAborting w (name job)])
      else if dlt (of_int 0) (load job) then (job, load job, [])
      else (job, of_int 0, []) in
    Errors.slice_loop fuel w job (of_int 0) = Some result
    ∧ Historical.slice_loop muted fuel w job (of_int 0)
      = Some (result.1, Historical.unless_muted muted result.2)
    ∧ ceiling_reached = 0x1.4333333333328p+3%float
    ∧ dge ceiling_reached (of_int 10) = true
    ∧ dlt (grid 100) (of_int 10) = true.
Proof.
  intros muted fuel w job Hfuel result.
  assert (Errors.slice_loop fuel w job (of_int 0) = Some result) as L.
  { rewrite binary64_slice_loop by done. unfold result.
    destruct (dlt ceiling_reached (load job)); [done|].
    by destruct (dlt (of_int 0) (load job)). }
  split; [done|]. split; [by rewrite slice_loop_agree, L|].
  split_and!; vm_compute; reflexivity.
Qed.

Lemma processing_time_witness :
  Errors.slice_loop 102 "worker0" (new_Job "job0" (-3)%float) (of_int 0)
  = Some (new_Job "job0" (-3)%float, 0%float, [])
  ∧ Errors.slice_loop 102 "worker0" (new_Job "job0" nan) (of_int 0)
    = Some (new_Job "job0" nan, 0%float, []).
Proof.
  split.
  - apply (proj1 (processing_time false 102 "worker0" (new_Job "job0" (-3)%float)
                    ltac:(lia))).
  - apply (proj1 (processing_time false 102 "worker0" (new_Job "job0" nan) ltac:(lia))).
Defined.

(** ** The counters are a tally of the job outcomes *)

Lemma get_Some_Permutation {T} w (msgs rest : list (string * Job T)) job :
  get w msgs = Some (job, rest) → msgs ≡ₚ (w, job) :: rest.
Proof.
  revert rest. induction msgs as [|[w' job'] msgs IH]; intros rest; simpl; [done|].
  destruct (decide (w' = w)) as [->|Hne]; [by intros [= -> ->]|].
  destruct (get w msgs) as [[job1 rest1]|]; [|done].
  intros [= -> <-]. rewrite (IH rest1 eq_refl). apply Permutation_swap.
Qed.

Lemma outcomes_cons {T} (outcome : Job T → option Z) code w job msgs :
  outcomes outcome code ((w, job) :: msgs)
  = ((if decide (name job ≠ "exit" ∧ outcome job = Some code) then 1 else 0)
     + outcomes outcome code msgs)%nat.
Proof. unfold outcomes. rewrite filter_cons. simpl. by case_decide. Qed.

Lemma outcomes_get {T} (outcome : Job T → option Z) code w msgs rest job :
  get w msgs = Some (job, rest) →
  outcomes outcome code msgs
  = ((if decide (name job ≠ "exit" ∧ outcome job = Some code) then 1 else 0)
     + outcomes outcome code rest)%nat.
Proof.
  intros Hget%get_Some_Permutation. rewrite <- (outcomes_cons outcome code w).
  unfold outcomes. by rewrite Hget.
Qed.

Lemma tally_update (code recorded : Z) (g : Globals) :
  tally code (update_counters recorded g)
  = tally code g + (if decide (code = recorded) then 1 else 0).
Proof.
  unfold tally, update_counters.
  destruct (decide (recorded = 0)) as [->|Hrec]; simpl.
  - destruct (decide (code = 0)); simpl; lia.
  - destruct (decide (code = 0)) as [->|Hcode]; simpl.
    + rewrite decide_False by done. lia.
    + destruct (decide (code = recorded)) as [->|Hne].
      * by rewrite lookup_insert_eq.
      * rewrite lookup_insert_ne by done. lia.
Qed.

Lemma update_counters_positive (recorded : Z) (g : Globals) :
  0 ≤ g_total_success g →
  (∀ code count, g_error_counts g !! code = Some count → 0 < count) →
  0 ≤ g_total_success (update_counters recorded g)
  ∧ ∀ code count, g_error_counts (update_counters recorded g) !! code = Some count →
                  0 < count.
Proof.
  intros Hsuccess Hcounts. unfold update_counters. case_decide; simpl.
  - split; [lia|done].
  - split; [done|]. intros code count.
    destruct (decide (code = recorded)) as [->|Hne].
    + rewrite lookup_insert_eq. intros [= <-].
      destruct (g_error_counts g !! recorded) as [old|] eqn:E; simpl; [|lia].
      specialize (Hcounts _ _ E). lia.
    + rewrite lookup_insert_ne by done. apply Hcounts.
Qed.

Section Ledger.
Context {T : Type}.
Variable iteration : string → Job T → Globals → option (Iteration T).
Variable outcome : Job T → option Z.

Hypothesis iteration_exit : ∀ w job g it,
  name job = "exit" → iteration w job g = Some it →
  continue it = false ∧ globals it = g ∧ processed it = None.
Hypothesis iteration_outcome : ∀ w job g it,
  name job ≠ "exit" → iteration w job g = Some it →
  continue it = true ∧
  ∃ code, outcome job = Some code ∧ globals it = update_counters code g.

Variable puts : list (string * Job T).
Variable W : nat.

Lemma resume_ledger w (s s' : Sim T) :
  ledger outcome puts W s → resume iteration w s = Some s' → ledger outcome puts W s'.
Proof using iteration_exit iteration_outcome.
  intros [Htally Hpositive Hsuccess Hsentinel]. unfold resume.
  case_decide as Hw; [by intros [= <-]|].
  destruct (get w (pending s)) as [[job rest]|] eqn:Hget; [|by intros [= <-]].
  destruct (iteration w job (shared s)) as [it|] eqn:Hit; [|done].
  intros [= <-].
  pose proof (get_Some _ _ _ _ Hget) as (Hin & Hothers & _ & _).
  destruct (decide (name job = "exit")) as [E|E].
  - destruct (iteration_exit _ _ _ _ E Hit) as (-> & -> & _).
    split; simpl; [|done|done|].
    + intros code. rewrite <- Htally, (outcomes_get outcome code w _ _ _ Hget).
      rewrite decide_False by tauto. done.
    + intros k Hk Hnot.
      assert (worker_name k ≠ w) as Hne.
      { intros <-. apply Hnot. apply elem_of_union. left. by apply elem_of_singleton. }
      rewrite Hothers by done. apply Hsentinel; [done|].
      intros Hex. apply Hnot. apply elem_of_union. by right.
  - destruct (iteration_outcome _ _ _ _ E Hit) as (-> & recorded & Hout & ->).
    destruct (update_counters_positive recorded (shared s) Hsuccess Hpositive)
      as [Hsuccess' Hpositive'].
    split; simpl; [|done|done|].
    + intros code. rewrite <- Htally, (outcomes_get outcome code w _ _ _ Hget).
      rewrite tally_update, Hout.
      destruct (decide (code = recorded)) as [->|Hne].
      * rewrite decide_True by done. lia.
      * rewrite decide_False; [lia|]. intros [_ [= ->]]. done.
    + intros k Hk Hnot. destruct (decide (worker_name k = w)) as [Hkw|Hkw].
      * destruct (Hsentinel k Hk Hnot) as (sentinel & Hbox & Hname).
        exists sentinel. split; [|done]. rewrite Hkw, Hin in Hbox. rewrite Hkw.
        apply elem_of_cons in Hbox as [->|Hbox]; [done|done].
      * rewrite Hothers by done. by apply Hsentinel.
Qed.

Lemma run_ledger schedule (s s' : Sim T) :
  ledger outcome puts W s → run iteration schedule s = Some s' → ledger outcome puts W s'.
Proof using iteration_exit iteration_outcome.
  revert s. induction schedule as [|w schedule IH]; intros s Hled; simpl.
  - by intros [= <-].
  - destruct (resume iteration w s) as [s1|] eqn:Hstep; [|done].
    apply IH. by eapply resume_ledger.
Qed.

(** With nothing pending, each counter is the number of jobs sent that had
    its outcome, and every worker has returned. *)
Lemma ledger_final (s : Sim T) :
  ledger outcome puts W s → pending s = [] →
  (∀ code, tally code (shared s) = Z.of_nat (outcomes outcome code puts))
  ∧ all_exited W s = true.
Proof using Type.
  intros [Htally _ _ Hsentinel] Hnil. split.
  - intros code. rewrite <- Htally, Hnil. unfold outcomes. simpl. lia.
  - unfold all_exited. apply forallb_forall. intros k Hk%in_seq.
    apply bool_decide_eq_true. destruct (decide (worker_name k ∈ exited s)) as [|Hnot]; [done|].
    destruct (Hsentinel k ltac:(lia) Hnot) as (job & Hin & _).
    rewrite Hnil in Hin. by apply elem_of_nil in Hin.
Qed.
End Ledger.

Section Outcomes.
Context {T : Type} `{Double T}.

(** The name of the worker only shows in the log. *)
Lemma slice_loop_any_worker fuel w w' (job : Job T) elapsed :
  fst <$> Errors.slice_loop fuel w job elapsed
  = fst <$> Errors.slice_loop fuel w' job elapsed.
Proof.
  revert elapsed. induction fuel as [|fuel IH]; intros elapsed; [done|].
  rewrite !slice_loop_step.
  destruct (dlt elapsed (load job)); [|done].
  destruct (dge elapsed (of_int 10)); [done|apply IH].
Qed.

Lemma errors_iteration_outcome fuel w (job : Job T) g it :
  name job ≠ "exit" →
  Errors.worker_iteration fuel w job g = Some it →
  continue it = true ∧
  ∃ code, job_outcome fuel job = Some code ∧ globals it = update_counters code g.
Proof.
  intros E. unfold Errors.worker_iteration, job_outcome. rewrite decide_False by done.
  pose proof (slice_loop_any_worker fuel w "" job (of_int 0)) as Hany.
  destruct (Errors.slice_loop fuel w job (of_int 0)) as [[[job' elapsed] warn]|]; [|done].
  destruct (Errors.slice_loop fuel "" job (of_int 0)) as [[[job1 elapsed1] warn1]|];
    [|done].
  injection Hany as <- <-. intros [= <-]. simpl. eauto.
Qed.

Lemma historical_iteration_outcome muted fuel w (job : Job T) g it :
  name job ≠ "exit" →
  Historical.worker_iteration muted fuel w job g = Some it →
  continue it = true ∧
  ∃ code, job_outcome fuel job = Some code ∧ globals it = update_counters code g.
Proof.
  intros E. rewrite worker_iteration_agree.
  destruct (Errors.worker_iteration fuel w job g) as [it'|] eqn:I; [|done].
  intros [= <-]. by apply (errors_iteration_outcome fuel w job g it').
Qed.

Variable RAND_MAX : Z.
Variable rand : nat → Z.
Variable MAX_WORKERS : nat.

Lemma boot_ledger outcome num_jobs :
  ledger outcome (master RAND_MAX rand MAX_WORKERS num_jobs) MAX_WORKERS
    (boot (master RAND_MAX rand MAX_WORKERS num_jobs)).
Proof.
  split; simpl.
  - intros code. unfold tally. simpl. rewrite lookup_empty. case_decide; simpl; lia.
  - intros code count. by rewrite lookup_empty.
  - done.
  - intros k Hk _. exists (new_Job "exit" (of_int 0)). split; [|done].
    rewrite inbox_master by done. apply elem_of_app. right. by left.
Qed.

(** The jobs sent whose outcome is [code], counted by their index. *)
Lemma outcomes_master outcome code num_jobs :
  outcomes outcome code (master RAND_MAX rand MAX_WORKERS num_jobs)
  = length (filter (λ i, outcome (new_Job ("job" +:+ to_string i)
                                    (job_time RAND_MAX (rand i))) = Some code)
                   (seq 0 (Z.to_nat num_jobs))).
Proof.
  unfold master, outcomes. rewrite filter_app, length_app.
  assert (∀ l, length (filter (λ m : string * Job T,
                                 name m.2 ≠ "exit" ∧ outcome m.2 = Some code)
                         (map (send_termination (T:=T)) l)) = 0%nat) as ->.
  { induction l as [|i l IH]; [done|].
    rewrite map_cons, filter_cons, decide_False; [done|]. simpl. tauto. }
  rewrite Nat.add_0_r.
  induction (seq 0 (Z.to_nat num_jobs)) as [|i l IH]; [done|].
  rewrite map_cons, !filter_cons. simpl.
  destruct (decide (outcome (new_Job ("job" +:+ to_string i)
                               (job_time RAND_MAX (rand i))) = Some code)) as [E|E].
  - rewrite decide_True by (split; [apply job_name_not_exit|done]). simpl. by rewrite IH.
  - rewrite decide_False by tauto. done.
Qed.
End Outcomes.

(** ** Receiving in the order of the puts *)

Section InOrder.
Context {T : Type}.
Variable iteration : string → Job T → Globals → option (Iteration T).
Variable outcome : Job T → option Z.

Hypothesis iteration_exit : ∀ w job g it,
  name job = "exit" → iteration w job g = Some it →
  continue it = false ∧ globals it = g ∧ processed it = None.
Hypothesis iteration_job : ∀ w job g it,
  name job ≠ "exit" → iteration w job g = Some it →
  continue it = true ∧
  ∃ code elapsed,
    (code = error_code job ∨ code = -1) ∧
    processed it = Some (set_error_code job code, elapsed) ∧
    globals it = update_counters code g.
Hypothesis iteration_outcome : ∀ w job g it,
  name job ≠ "exit" → iteration w job g = Some it →
  continue it = true ∧
  ∃ code, outcome job = Some code ∧ globals it = update_counters code g.
Hypothesis iteration_returns : ∀ w job g, is_Some (iteration w job g).

Variable puts : list (string * Job T).
Variables (N W : nat).

(** Every pending message is received, in the order of the puts, by the
    worker it was put to. *)
Lemma run_in_order (s : Sim T) :
  invariant N W s → ledger outcome puts W s →
  ∃ s', run iteration (map fst (pending s)) s = Some s'
        ∧ pending s' = []
        ∧ invariant N W s' ∧ ledger outcome puts W s'.
Proof using iteration_exit iteration_job iteration_outcome iteration_returns.
  remember (pending s) as msgs eqn:Hmsgs. revert s Hmsgs.
  induction msgs as [|[w job] msgs IH]; intros s Hmsgs Hinv Hled.
  - exists s. by rewrite <- Hmsgs.
  - simpl.
    assert (resume iteration w s
            = (λ it, mkSim msgs
                       (if continue it then exited s else {[w]} ∪ exited s)
                       (globals it)
                       (if processed it is Some _ then S (completed s) else completed s)
                       (trace s ++ logs it)) <$> iteration w job (shared s)) as Hstep.
    { unfold resume. rewrite decide_False.
      - rewrite <- Hmsgs. simpl. rewrite decide_True by done.
        by destruct (iteration w job (shared s)).
      - intros Hw%(inv_exited _ _ _ Hinv). rewrite <- Hmsgs in Hw.
        unfold inbox in Hw. rewrite filter_cons, decide_True in Hw by done. done. }
    destruct (iteration_returns w job (shared s)) as [it Hit].
    rewrite Hit in Hstep. simpl in Hstep. rewrite Hstep.
    apply IH; [done| |].
    + eapply resume_invariant; [apply iteration_exit|apply iteration_job|exact Hinv|exact Hstep].
    + eapply resume_ledger;
        [apply iteration_exit|apply iteration_outcome|exact Hled|exact Hstep].
Qed.
End InOrder.

(** ** What a completed run leaves in the globals *)

Lemma histogram_only_timeouts (m : gmap Z Z) :
  (∀ code count, m !! code = Some count → code = -1) →
  m = match m !! (-1) with Some count => {[ -1 := count ]} | None => ∅ end.
Proof.
  intros Hcodes. apply map_eq. intros code.
  destruct (decide (code = -1)) as [->|Hne].
  - destruct (m !! (-1)) as [count|] eqn:E; [by rewrite lookup_singleton_eq|done].
  - assert (m !! code = None) as ->.
    { destruct (m !! code) as [count|] eqn:E; [|done]. by destruct (Hne (Hcodes _ _ E)). }
    destruct (m !! (-1)); [by rewrite lookup_singleton_ne|by rewrite lookup_empty].
Qed.

Lemma histogram_total_singleton (code count : Z) :
  histogram_total ({[ code := count ]} : gmap Z Z) = count.
Proof.
  rewrite <- insert_empty, histogram_total_insert by apply lookup_empty.
  unfold histogram_total. rewrite map_fold_empty. lia.
Qed.

(** Globals with the same tallies are the same. *)
Lemma globals_by_tally (g1 g2 : Globals) :
  (∀ code, tally code g1 = tally code g2) →
  (∀ code count, g_error_counts g1 !! code = Some count → code = -1 ∧ 0 < count) →
  (∀ code count, g_error_counts g2 !! code = Some count → code = -1 ∧ 0 < count) →
  g1 = g2.
Proof.
  intros Htally H1 H2. destruct g1 as [success1 hist1], g2 as [success2 hist2].
  simpl in *. f_equal.
  - apply (Htally 0).
  - rewrite (histogram_only_timeouts hist1), (histogram_only_timeouts hist2)
      by (intros ? ? ?; by eapply proj1; eauto).
    specialize (Htally (-1)). unfold tally in Htally. simpl in Htally.
    destruct (hist1 !! (-1)) as [c1|] eqn:E1, (hist2 !! (-1)) as [c2|] eqn:E2;
      simpl in Htally.
    + by rewrite Htally.
    + destruct (H1 _ _ E1). lia.
    + destruct (H2 _ _ E2). lia.
    + done.
Qed.

Section CompletedRun.
Context {T : Type}.
Variable iteration : string → Job T → Globals → option (Iteration T).
Variable outcome : Job T → option Z.

Hypothesis iteration_exit : ∀ w job g it,
  name job = "exit" → iteration w job g = Some it →
  continue it = false ∧ globals it = g ∧ processed it = None.
Hypothesis iteration_job : ∀ w job g it,
  name job ≠ "exit" → iteration w job g = Some it →
  continue it = true ∧
  ∃ code elapsed,
    (code = error_code job ∨ code = -1) ∧
    processed it = Some (set_error_code job code, elapsed) ∧
    globals it = update_counters code g.
Hypothesis iteration_outcome : ∀ w job g it,
  name job ≠ "exit" → iteration w job g = Some it →
  continue it = true ∧
  ∃ code, outcome job = Some code ∧ globals it = update_counters code g.

Variable puts : list (string * Job T).
Variables (N W : nat).

Lemma completed_run schedule (s : Sim T) :
  invariant N W (boot puts) → ledger outcome puts W (boot puts) →
  run iteration schedule (boot puts) = Some s → all_exited W s = true →
  pending s = [] ∧ completed s = N
  ∧ (∀ code, tally code (shared s) = Z.of_nat (outcomes outcome code puts))
  ∧ (∀ code count, g_error_counts (shared s) !! code = Some count → code = -1 ∧ 0 < count)
  ∧ 0 ≤ g_total_success (shared s) ≤ Z.of_nat N
  ∧ g_error_counts (shared s)
    = (if decide (Z.of_nat N - g_total_success (shared s) = 0) then ∅
       else {[ -1 := Z.of_nat N - g_total_success (shared s) ]}).
Proof using iteration_exit iteration_job iteration_outcome.
  intros Hinv0 Hled0 Hrun Hall.
  assert (invariant N W s) as Hinv by (by eapply run_invariant).
  assert (ledger outcome puts W s) as Hled by (by eapply run_ledger).
  destruct (all_exited_completed _ _ _ Hinv Hall) as [Hnil Hdone].
  destruct (ledger_final _ _ _ _ Hled Hnil) as [Htally _].
  pose proof (inv_conservation _ _ _ Hinv) as Hcons.
  pose proof (inv_codes _ _ _ Hinv) as Hcodes.
  pose proof (ledger_positive _ _ _ _ Hled) as Hpositive.
  pose proof (ledger_success _ _ _ _ Hled) as Hsuccess.
  rewrite Hdone in Hcons.
  assert (g_error_counts (shared s)
          = (if decide (Z.of_nat N - g_total_success (shared s) = 0) then ∅
             else {[ -1 := Z.of_nat N - g_total_success (shared s) ]})
          ∧ 0 ≤ histogram_total (g_error_counts (shared s))) as [Hshape Htotal].
  { rewrite (histogram_only_timeouts _ Hcodes) in Hcons |- *.
    destruct (g_error_counts (shared s) !! (-1)) as [count|] eqn:E.
    - rewrite histogram_total_singleton in *. specialize (Hpositive _ _ E).
      rewrite decide_False by lia. split; [f_equal; lia|lia].
    - unfold histogram_total in *. rewrite map_fold_empty in *.
      rewrite decide_True by lia. done. }
  split_and!; [done|done|done| |done|lia|done].
  intros code count Hcount. split; [by eapply Hcodes|by eapply Hpositive].
Qed.
End CompletedRun.

(** ** Completed runs of the two programs *)

Section Programs.
Context {T : Type} `{Double T}.
Variable RAND_MAX : Z.
Variable rand : nat → Z.
Variable fuel : nat.

Lemma historical_completed muted schedule j queue_name total_jobs out (s : Sim T) :
  HistoricalMain.main RAND_MAX rand muted fuel schedule j queue_name total_jobs
  = Some (out, s) →
  let puts := master RAND_MAX rand HistoricalMain.MAX_WORKERS total_jobs in
  let N := Z.to_nat total_jobs in
  pending s = [] ∧ completed s = N
  ∧ (∀ code, tally code (shared s) = Z.of_nat (outcomes (job_outcome fuel) code puts))
  ∧ (∀ code count, g_error_counts (shared s) !! code = Some count → code = -1 ∧ 0 < count)
  ∧ 0 ≤ g_total_success (shared s) ≤ Z.of_nat N
  ∧ g_error_counts (shared s)
    = (if decide (Z.of_nat N - g_total_success (shared s) = 0) then ∅
       else {[ -1 := Z.of_nat N - g_total_success (shared s) ]}).
Proof.
  intros (Hrun & Hall & _)%historical_main_inv puts N.
  eapply (completed_run (Historical.worker_iteration muted fuel) (job_outcome fuel));
    [| | | | |exact Hrun|exact Hall].
  - intros w job g it E. rewrite historical_iteration_exit by done. by intros [= <-].
  - intros w job g it. apply historical_iteration_job.
  - intros w job g it. apply historical_iteration_outcome.
  - apply boot_invariant. unfold HistoricalMain.MAX_WORKERS. lia.
  - apply boot_ledger.
Qed.

Lemma errors_completed schedule out (s : Sim T) :
  ErrorsMain.main RAND_MAX rand fuel schedule = Some (out, s) →
  let puts := master RAND_MAX rand ErrorsMain.MAX_WORKERS ErrorsMain.num_jobs in
  out = [SimulationSummary (summary 20 (shared s))]
  ∧ pending s = [] ∧ completed s = 20%nat
  ∧ (∀ code, tally code (shared s) = Z.of_nat (outcomes (job_outcome fuel) code puts))
  ∧ (∀ code count, g_error_counts (shared s) !! code = Some count → code = -1 ∧ 0 < count)
  ∧ 0 ≤ g_total_success (shared s) ≤ 20
  ∧ g_error_counts (shared s)
    = (if decide (20 - g_total_success (shared s) = 0) then ∅
       else {[ -1 := 20 - g_total_success (shared s) ]}).
Proof.
  intros Hmain puts. revert Hmain. unfold ErrorsMain.main.
  destruct (run _ _ _) as [s'|] eqn:Hrun; [|done].
  destruct (all_exited _ _) eqn:Hall; [|done].
  intros [= <- <-]. split; [done|].
  change 20%nat with (Z.to_nat ErrorsMain.num_jobs).
  change 20 with (Z.of_nat (Z.to_nat ErrorsMain.num_jobs)).
  eapply (completed_run (Errors.worker_iteration fuel) (job_outcome fuel));
    [| | | | |exact Hrun|exact Hall].
  - intros w job g it E. rewrite errors_iteration_exit by done. by intros [= <-].
  - intros w job g it. apply errors_iteration_job.
  - intros w job g it. apply errors_iteration_outcome.
  - apply boot_invariant. unfold ErrorsMain.MAX_WORKERS. lia.
  - apply boot_ledger.
Qed.
End Programs.

(** X2: two completed runs of the historical-errors program on the same
    jobs (the same [rand()] values, [RAND_MAX], job count and fuel) end with
    the same counters and print the same summary, whatever the order in
    which the engine resumed the workers, whether logging was muted, and
    whatever the error table and the site. *)
Theorem summary_independent_of_schedule :
  ∀ (T : Type) (D : Double T) (RAND_MAX : Z) (rand : nat → Z) (fuel : nat)
    (total_jobs : Z)
    (muted1 muted2 : bool) (schedule1 schedule2 : list string)
    (j1 j2 : list (string * list (string * Z))) (queue_name1 queue_name2 : string)
    (out1 out2 : list Output) (s1 s2 : Sim T),
    HistoricalMain.main RAND_MAX rand muted1 fuel schedule1 j1 queue_name1 total_jobs
    = Some (out1, s1) →
    HistoricalMain.main RAND_MAX rand muted2 fuel schedule2 j2 queue_name2 total_jobs
    = Some (out2, s2) →
    shared s1 = shared s2 ∧ completed s1 = completed s2 ∧ last out1 = last out2.
Proof.
  intros T D RAND_MAX rand fuel total_jobs muted1 muted2 schedule1 schedule2 j1 j2
    queue_name1 queue_name2 out1 out2 s1 s2 Hmain1 Hmain2.
  destruct (historical_completed _ _ _ _ _ _ _ _ _ _ Hmain1)
    as (_ & Hdone1 & Htally1 & Hcounts1 & _).
  destruct (historical_completed _ _ _ _ _ _ _ _ _ _ Hmain2)
    as (_ & Hdone2 & Htally2 & Hcounts2 & _).
  apply historical_main_inv in Hmain1 as (_ & _ & ->).
  apply historical_main_inv in Hmain2 as (_ & _ & ->).
  assert (shared s1 = shared s2) as Hshared.
  { apply globals_by_tally; [|done|done]. intros code. by rewrite Htally1, Htally2. }
  split; [done|]. split; [congruence|]. by rewrite !last_snoc, Hshared.
Qed.

Lemma summary_independent_of_schedule_witness :
  ∃ out1 s1 out2 s2,
    demo_main "SITE_A" = Some (out1, s1)
    ∧ HistoricalMain.main (T:=float) 2147483647 demo_rand true 200 demo_schedule_backwards
        demo_table "SITE_B" 5 = Some (out2, s2)
    ∧ shared s1 = shared s2 ∧ last out1 = last out2.
Proof.
  destruct (demo_main "SITE_A") as [[out1 s1]|] eqn:E1;
    [|vm_compute in E1; discriminate].
  destruct (HistoricalMain.main (T:=float) 2147483647 demo_rand true 200 demo_schedule_backwards
              demo_table "SITE_B" 5) as [[out2 s2]|] eqn:E2;
    [|vm_compute in E2; discriminate].
  exists out1, s1, out2, s2. split; [reflexivity|]. split; [reflexivity|].
  destruct (summary_independent_of_schedule float binary64 2147483647 demo_rand 200 5
              false true demo_schedule demo_schedule_backwards demo_table demo_table
              "SITE_A" "SITE_B" out1 out2 s1 s2 E1 E2) as (Hshared & _ & Hlast).
  split; [exact Hshared|exact Hlast].
Defined.

(** X3: in a completed run of the historical-errors program with a
    non-negative job count, the number of successes lies between 0 and the
    job count; the error histogram is empty when no job failed and otherwise
    is the single entry of the timeout code -1 with the number of failed
    jobs; the summary printed last reports exactly these, with the failure
    details only when a job failed. *)
Theorem summary_shape :
  ∀ (T : Type) (D : Double T) (RAND_MAX : Z) (rand : nat → Z) (muted : bool)
    (fuel : nat) (schedule : list string) (j : list (string * list (string * Z)))
    (queue_name : string) (total_jobs : Z) (out : list Output) (s : Sim T),
    0 ≤ total_jobs →
    HistoricalMain.main RAND_MAX rand muted fuel schedule j queue_name total_jobs
    = Some (out, s) →
    let success := g_total_success (shared s) in
    let failures := total_jobs - success in
    0 ≤ success ≤ total_jobs
    ∧ g_error_counts (shared s)
      = (if decide (failures = 0) then ∅ else {[ -1 := failures ]})
    ∧ last out
      = Some (SimulationSummary
                (mkSummary total_jobs success failures
                   (if decide (failures = 0) then None else Some {[ -1 := failures ]}))).
Proof.
  intros T D RAND_MAX rand muted fuel schedule j queue_name total_jobs out s Hjobs Hmain
    success failures.
  destruct (historical_completed _ _ _ _ _ _ _ _ _ _ Hmain)
    as (_ & _ & _ & _ & Hrange & Hshape).
  apply historical_main_inv in Hmain as (_ & _ & ->).
  rewrite Z2Nat.id in Hrange, Hshape by done.
  fold success in Hrange, Hshape. fold failures in Hshape.
  split; [done|]. split; [done|].
  rewrite last_snoc. unfold summary. fold success. fold failures. rewrite Hshape.
  do 3 f_equal. destruct (decide (failures = 0)) as [E|E].
  - rewrite E. done.
  - assert ((0 <? failures) = true) as -> by (apply Z.ltb_lt; unfold failures; lia). done.
Qed.

Lemma summary_shape_witness :
  ∃ out s,
    demo_main "SITE_A" = Some (out, s)
    ∧ 0 ≤ g_total_success (shared s) ≤ 5
    ∧ g_error_counts (shared s)
      = (if decide (5 - g_total_success (shared s) = 0) then ∅
         else {[ -1 := 5 - g_total_success (shared s) ]}).
Proof.
  destruct (demo_main "SITE_A") as [[out s]|] eqn:E; [|vm_compute in E; discriminate].
  exists out, s. split; [reflexivity|].
  destruct (summary_shape float binary64 2147483647 demo_rand false 200 demo_schedule
              demo_table "SITE_A" 5 out s ltac:(lia) E) as (Hrange & Hshape & _).
  split; [exact Hrange|exact Hshape].
Defined.

(** X4: with a job count of zero or below, [master] sends no job: a
    completed run of the historical-errors program leaves the counters as
    they were initialised, and the summary reports no success, the job count
    itself (zero or negative) as the number of failed jobs, and no failure
    details. *)
Theorem no_jobs_requested :
  ∀ (T : Type) (D : Double T) (RAND_MAX : Z) (rand : nat → Z) (muted : bool)
    (fuel : nat) (schedule : list string) (j : list (string * list (string * Z)))
    (queue_name : string) (total_jobs : Z) (out : list Output) (s : Sim T),
    total_jobs ≤ 0 →
    HistoricalMain.main RAND_MAX rand muted fuel schedule j queue_name total_jobs
    = Some (out, s) →
    shared s = globals_init
    ∧ completed s = 0%nat
    ∧ last out = Some (SimulationSummary (mkSummary total_jobs 0 total_jobs None)).
Proof.
  intros T D RAND_MAX rand muted fuel schedule j queue_name total_jobs out s Hjobs Hmain.
  destruct (historical_completed _ _ _ _ _ _ _ _ _ _ Hmain)
    as (_ & Hdone & _ & _ & Hrange & Hshape).
  apply historical_main_inv in Hmain as (_ & _ & ->).
  replace (Z.to_nat total_jobs) with 0%nat in * by lia.
  assert (g_total_success (shared s) = 0) as Hsuccess by lia.
  rewrite Hsuccess in Hshape. simpl in Hshape.
  assert (shared s = globals_init) as ->.
  { destruct (shared s) as [success hist]. simpl in *. by rewrite Hsuccess, Hshape. }
  split; [done|]. split; [done|].
  rewrite last_snoc. unfold summary. simpl. rewrite Z.sub_0_r.
  assert ((0 <? total_jobs) = false) as -> by (apply Z.ltb_ge; lia). done.
Qed.

Lemma no_jobs_requested_witness :
  ∃ out s,
    HistoricalMain.main (T:=float) 2147483647 demo_rand false 200 demo_schedule demo_table
      "SITE_A" (-3) = Some (out, s)
    ∧ shared s = globals_init
    ∧ last out = Some (SimulationSummary (mkSummary (-3) 0 (-3) None)).
Proof.
  destruct (HistoricalMain.main (T:=float) 2147483647 demo_rand false 200 demo_schedule demo_table
              "SITE_A" (-3)) as [[out s]|] eqn:E; [|vm_compute in E; discriminate].
  exists out, s. split; [reflexivity|].
  destruct (no_jobs_requested float binary64 2147483647 demo_rand false 200 demo_schedule
              demo_table "SITE_A" (-3) out s ltac:(lia) E) as (Hshared & _ & Hlast).
  split; [exact Hshared|exact Hlast].
Defined.

(** ** Termination of the two programs *)

Section Binary64Programs.
Variable RAND_MAX : Z.
Variable rand : nat → Z.
Variable fuel : nat.
Hypothesis enough : (102 ≤ fuel)%nat.

Lemma binary64_errors_returns w (job : Job float) g :
  is_Some (Errors.worker_iteration fuel w job g).
Proof using enough.
  unfold Errors.worker_iteration. case_decide; [by eexists|].
  rewrite binary64_slice_loop by done.
  destruct (dlt ceiling_reached (load job)); [by eexists|].
  destruct (dlt (of_int 0) (load job)); by eexists.
Qed.

Lemma binary64_historical_returns muted w (job : Job float) g :
  is_Some (Historical.worker_iteration muted fuel w job g).
Proof using enough.
  rewrite worker_iteration_agree.
  destruct (binary64_errors_returns w job g) as [it ->]. by eexists.
Qed.

(** The outcome of a fresh job is decided by its load alone. *)
Lemma binary64_job_outcome n (l : float) :
  job_outcome fuel (new_Job n l) = Some (if dlt ceiling_reached l then -1 else 0).
Proof using enough.
  unfold job_outcome. rewrite binary64_slice_loop by done.
  unfold new_Job. cbn [load name].
  destruct (dlt ceiling_reached l); [done|]. by destruct (dlt (of_int 0) l).
Qed.

Lemma binary64_historical_in_order muted j queue_name total_jobs :
  ∃ out s,
    HistoricalMain.main (T:=float) RAND_MAX rand muted fuel
      (map fst (master (T:=float) RAND_MAX rand HistoricalMain.MAX_WORKERS total_jobs))
      j queue_name total_jobs = Some (out, s).
Proof using enough.
  set (puts := master (T:=float) RAND_MAX rand HistoricalMain.MAX_WORKERS total_jobs).
  destruct (run_in_order (Historical.worker_iteration muted fuel) (job_outcome fuel))
    with (puts := puts) (N := Z.to_nat total_jobs) (W := HistoricalMain.MAX_WORKERS)
         (s := boot puts) as (s & Hrun & Hnil & Hinv & Hled).
  - intros w job g it E. rewrite historical_iteration_exit by done. by intros [= <-].
  - intros w job g it. apply historical_iteration_job.
  - intros w job g it. apply historical_iteration_outcome.
  - intros w job g. apply binary64_historical_returns.
  - apply boot_invariant. unfold HistoricalMain.MAX_WORKERS. lia.
  - apply boot_ledger.
  - destruct (ledger_final _ _ _ _ Hled Hnil) as [_ Hall].
    unfold HistoricalMain.main.
    destruct (HistoricalMain.build_sampler _ _) as [sampler diagnostic].
    change (pending (boot puts)) with puts in Hrun. fold puts.
    rewrite Hrun, Hall. by eexists _, _.
Qed.

Lemma binary64_errors_in_order :
  ∃ out s,
    ErrorsMain.main (T:=float) RAND_MAX rand fuel
      (map fst (master (T:=float) RAND_MAX rand ErrorsMain.MAX_WORKERS ErrorsMain.num_jobs))
    = Some (out, s).
Proof using enough.
  set (puts := master (T:=float) RAND_MAX rand ErrorsMain.MAX_WORKERS ErrorsMain.num_jobs).
  destruct (run_in_order (Errors.worker_iteration fuel) (job_outcome fuel))
    with (puts := puts) (N := Z.to_nat ErrorsMain.num_jobs) (W := ErrorsMain.MAX_WORKERS)
         (s := boot puts) as (s & Hrun & Hnil & Hinv & Hled).
  - intros w job g it E. rewrite errors_iteration_exit by done. by intros [= <-].
  - intros w job g it. apply errors_iteration_job.
  - intros w job g it. apply errors_iteration_outcome.
  - intros w job g. apply binary64_errors_returns.
  - apply boot_invariant. unfold ErrorsMain.MAX_WORKERS. lia.
  - apply boot_ledger.
  - destruct (ledger_final _ _ _ _ Hled Hnil) as [_ Hall].
    change (pending (boot puts)) with puts in Hrun.
    unfold ErrorsMain.main. fold puts. rewrite Hrun, Hall. by eexists _, _.
Qed.
End Binary64Programs.

(** X5: on binary64, as the two programs compute, both terminate: with
    fuel for 102 turns of the slice loop, and the workers receiving their
    messages in the order in which [master] put them, every worker returns
    and [main] prints its summary, for every job count (the historical-errors
    program), every error table and site, and every sequence of [rand()]
    values and every [RAND_MAX], those that make the load infinite or NaN
    included. *)
Theorem programs_terminate :
  ∀ (RAND_MAX : Z) (rand : nat → Z) (fuel : nat),
    (102 ≤ fuel)%nat →
    (∀ (muted : bool) (j : list (string * list (string * Z))) (queue_name : string)
       (total_jobs : Z),
       ∃ out s,
         HistoricalMain.main (T:=float) RAND_MAX rand muted fuel
           (map fst (master (T:=float) RAND_MAX rand HistoricalMain.MAX_WORKERS total_jobs))
           j queue_name total_jobs = Some (out, s))
    ∧ ∃ out s,
        ErrorsMain.main (T:=float) RAND_MAX rand fuel
          (map fst (master (T:=float) RAND_MAX rand ErrorsMain.MAX_WORKERS
                      ErrorsMain.num_jobs))
        = Some (out, s).
Proof.
  intros RAND_MAX rand fuel Hfuel. split.
  - intros muted j queue_name total_jobs. by apply binary64_historical_in_order.
  - by apply binary64_errors_in_order.
Qed.

Lemma programs_terminate_witness :
  ∃ out s,
    HistoricalMain.main (T:=float) 32767 (λ i, Z.of_nat i * 2000) false 102
      (map fst (master (T:=float) 32767 (λ i, Z.of_nat i * 2000)
                  HistoricalMain.MAX_WORKERS 7))
      demo_table "SITE_A" 7 = Some (out, s).
Proof.
  apply (proj1 (programs_terminate 32767 (λ i, Z.of_nat i * 2000) 102 ltac:(lia))
           false demo_table "SITE_A" 7).
Defined.

(** X6: on binary64, in every completed run of the historical-errors
    program, whatever the schedule, the successes reported are the jobs whose
    generated load does not exceed 10.09999999999998, the elapsed time at
    which the ceiling test first holds, and the failures counted under the
    timeout code are the jobs whose load exceeds it. *)
Theorem successes_are_loads_within_ceiling :
  ∀ (RAND_MAX : Z) (rand : nat → Z) (muted : bool) (fuel : nat)
    (schedule : list string) (j : list (string * list (string * Z)))
    (queue_name : string) (total_jobs : Z) (out : list Output) (s : Sim float),
    (102 ≤ fuel)%nat →
    HistoricalMain.main RAND_MAX rand muted fuel schedule j queue_name total_jobs
    = Some (out, s) →
    let jobs := seq 0 (Z.to_nat total_jobs) in
    g_total_success (shared s)
    = Z.of_nat (length (filter (λ i, dlt ceiling_reached (job_time RAND_MAX (rand i)) = false)
                          jobs))
    ∧ default 0 (g_error_counts (shared s) !! (-1))
      = Z.of_nat (length (filter (λ i, dlt ceiling_reached (job_time RAND_MAX (rand i)) = true)
                            jobs)).
Proof.
  intros RAND_MAX rand muted fuel schedule j queue_name total_jobs out s Hfuel Hmain jobs.
  destruct (historical_completed _ _ _ _ _ _ _ _ _ _ Hmain) as (_ & _ & Htally & _).
  pose proof (Htally 0) as Hsuccess. pose proof (Htally (-1)) as Hfailed.
  rewrite outcomes_master in Hsuccess, Hfailed. unfold tally in Hsuccess, Hfailed.
  simpl in Hsuccess, Hfailed. fold jobs in Hsuccess, Hfailed.
  rewrite Hsuccess, Hfailed. split; do 2 f_equal; apply list_filter_iff; intros i;
    rewrite (binary64_job_outcome fuel Hfuel); destruct (dlt _ _); naive_solver.
Qed.

Lemma successes_are_loads_within_ceiling_witness :
  ∃ out s,
    HistoricalMain.main (T:=float) 32767 (λ i, Z.of_nat i * 5000) false 102
      (map fst (master (T:=float) 32767 (λ i, Z.of_nat i * 5000)
                  HistoricalMain.MAX_WORKERS 7))
      demo_table "SITE_A" 7 = Some (out, s)
    ∧ g_total_success (shared s) = 5.
Proof.
  destruct (binary64_historical_in_order 32767 (λ i, Z.of_nat i * 5000) 102 ltac:(lia)
              false demo_table "SITE_A" 7) as (out & s & Hmain).
  exists out, s. split; [exact Hmain|].
  destruct (successes_are_loads_within_ceiling 32767 (λ i, Z.of_nat i * 5000) false 102
              _ demo_table "SITE_A" 7 out s ltac:(lia) Hmain) as [-> _].
  vm_compute. reflexivity.
Defined.

(** X7: every completed run of simgrid_cluster_with_errors.cpp has
    processed its 20 jobs; the successes lie between 0 and 20, the histogram
    is empty or the single entry of the timeout code with the number of
    failed jobs, the output is the one summary of these, and any other
    completed run on the same [rand()] values, under whatever schedule,
    prints the same. *)
Theorem errors_run_summary :
  ∀ (T : Type) (D : Double T) (RAND_MAX : Z) (rand : nat → Z) (fuel : nat)
    (schedule : list string) (out : list Output) (s : Sim T),
    ErrorsMain.main RAND_MAX rand fuel schedule = Some (out, s) →
    let success := g_total_success (shared s) in
    completed s = 20%nat
    ∧ 0 ≤ success ≤ 20
    ∧ out = [SimulationSummary
               (mkSummary 20 success (20 - success)
                  (if decide (20 - success = 0) then None
                   else Some {[ -1 := 20 - success ]}))]
    ∧ ∀ schedule' out' s',
        ErrorsMain.main RAND_MAX rand fuel schedule' = Some (out', s') →
        out' = out ∧ shared s' = shared s.
Proof.
  intros T D RAND_MAX rand fuel schedule out s Hmain success.
  destruct (errors_completed _ _ _ _ _ _ Hmain)
    as (-> & _ & Hdone & Htally & Hcounts & Hrange & Hshape).
  fold success in Hrange, Hshape.
  split; [done|]. split; [done|]. split.
  - unfold summary. fold success. rewrite Hshape. do 2 f_equal.
    destruct (decide (20 - success = 0)) as [E|E].
    + by rewrite E.
    + by assert ((0 <? 20 - success) = true) as -> by (apply Z.ltb_lt; lia).
  - intros schedule' out' s' Hmain'.
    destruct (errors_completed _ _ _ _ _ _ Hmain') as (-> & _ & _ & Htally' & Hcounts' & _).
    assert (shared s' = shared s) as ->; [|done].
    apply globals_by_tally; [|done|done]. intros code. by rewrite Htally, Htally'.
Qed.

Lemma errors_run_summary_witness :
  ∃ out s,
    demo_errors_main = Some (out, s)
    ∧ completed s = 20%nat
    ∧ out = [SimulationSummary
               (mkSummary 20 (g_total_success (shared s)) (20 - g_total_success (shared s))
                  (if decide (20 - g_total_success (shared s) = 0) then None
                   else Some {[ -1 := 20 - g_total_success (shared s) ]}))].
Proof.
  destruct demo_errors_main as [[out s]|] eqn:E; [|vm_compute in E; discriminate].
  exists out, s. split; [reflexivity|].
  destruct (errors_run_summary float binary64 2147483647 demo_rand 200 _ out s E)
    as (Hdone & _ & Hout & _).
  split; [exact Hdone|exact Hout].
Defined.

(** ** Logging *)

Section Muted.
Context {T : Type}.
Variable iteration : string → Job T → Globals → option (Iteration T).
Hypothesis silent : ∀ w job g it, iteration w job g = Some it → logs it = [].

Lemma run_silent schedule (s s' : Sim T) :
  trace s = [] → run iteration schedule s = Some s' → trace s' = [].
Proof using silent.
  revert s. induction schedule as [|w schedule IH]; intros s Hs; simpl.
  - by intros [= <-].
  - destruct (resume iteration w s) as [s1|] eqn:Hstep; [|done].
    apply IH. unfold resume in Hstep.
    case_decide; [by injection Hstep as <-|].
    destruct (get w (pending s)) as [[job rest]|]; [|by injection Hstep as <-].
    destruct (iteration w job (shared s)) as [it|] eqn:Hit; [|done].
    injection Hstep as <-. simpl. rewrite Hs. simpl. by eapply silent.
Qed.
End Muted.

(** X8: with [--mute] the workers of the historical-errors program log
    nothing in the whole run, whatever the schedule and even when the run is
    cut short; without it, every pass of a worker's loop logs at least one
    line. *)
Theorem muted_workers_log_nothing :
  ∀ (T : Type) (D : Double T) (RAND_MAX : Z) (rand : nat → Z) (fuel : nat)
    (schedule : list string) (total_jobs : Z) (s : Sim T),
    run (Historical.worker_iteration true fuel) schedule
      (boot (master RAND_MAX rand HistoricalMain.MAX_WORKERS total_jobs)) = Some s →
    trace s = []
    ∧ ∀ w job g it,
        Historical.worker_iteration false fuel w job g = Some it → logs it ≠ [].
Proof.
  intros T D RAND_MAX rand fuel schedule total_jobs s Hrun. split.
  - refine (run_silent (Historical.worker_iteration true fuel) _ schedule
              (boot (master RAND_MAX rand HistoricalMain.MAX_WORKERS total_jobs)) s
              eq_refl Hrun).
    intros w job g it. rewrite worker_iteration_agree.
    destruct (Errors.worker_iteration fuel w job g); [|done]. by intros [= <-].
  - intros w job g it. unfold Historical.worker_iteration.
    case_decide; [by intros [= <-]|].
    destruct (Historical.slice_loop false fuel w job (of_int 0)) as [[[job' e] warn]|];
      [|done].
    by intros [= <-].
Qed.

Lemma muted_workers_log_nothing_witness :
  ∃ s : Sim float,
    run (Historical.worker_iteration true 200) demo_schedule
      (boot (master 2147483647 demo_rand HistoricalMain.MAX_WORKERS 5)) = Some s
    ∧ trace s = [].
Proof.
  destruct (run (Historical.worker_iteration (T:=float) true 200) demo_schedule
              (boot (master 2147483647 demo_rand HistoricalMain.MAX_WORKERS 5)))
    as [s|] eqn:E; [|vm_compute in E; discriminate].
  exists s. split; [reflexivity|].
  apply (muted_workers_log_nothing float binary64 2147483647 demo_rand 200 demo_schedule
           5 s E).
Defined.

(** ** Recording outcomes in any order *)

(** X9: the counter update under the lock commutes: recording the outcomes
    of two jobs in either order leaves the same success count and the same
    histogram. *)
Theorem update_counters_commute :
  ∀ (code1 code2 : Z) (g : Globals),
    update_counters code1 (update_counters code2 g)
    = update_counters code2 (update_counters code1 g).
Proof.
  intros code1 code2 g. unfold update_counters.
  destruct (decide (code1 = 0)) as [E1|E1], (decide (code2 = 0)) as [E2|E2]; simpl;
    try done.
  destruct (decide (code1 = code2)) as [->|Hne]; [done|].
  rewrite !lookup_insert_ne by done. f_equal. by apply insert_insert_ne.
Qed.

(** ** The command line *)

Lemma takes_value_not_mute key : takes_value key → key ≠ "--mute".
Proof. by intros [->|[->| ->]]. Qed.

(** Scanning a command line made of whole arguments, then what follows. *)
Lemma scan_arguments_app arguments tail muted args :
  Forall proper_argument arguments →
  scan_arguments (command_line arguments ++ tail) muted args
  = scan_arguments tail (muted || existsb is_mute arguments) (settings arguments args).
Proof.
  intros Hproper. revert muted args.
  induction Hproper as [|a arguments Ha _ IH]; intros muted args.
  - simpl. by rewrite orb_false_r.
  - unfold command_line in *. simpl. destruct a as [|key value|token]; simpl in *.
    + rewrite IH. by rewrite orb_true_r.
    + rewrite decide_False by (by apply takes_value_not_mute).
      rewrite decide_True by done. by rewrite IH.
    + destruct Ha as [Hmute Hvalue].
      rewrite decide_False by done. rewrite decide_False by done.
      by rewrite IH.
Qed.

Lemma pair_induction {A} (P : list A → Prop) :
  P [] → (∀ x, P [x]) → (∀ x y l, P l → P (y :: l) → P (x :: y :: l)) → ∀ l, P l.
Proof.
  intros Hnil Hone Htwo l.
  assert (P l ∧ ∀ x, P (x :: l)) as [? _]; [|done].
  induction l as [|y l [IH1 IH2]]; [by split|].
  split; [apply IH2|]. intros x. apply Htwo; [done|apply IH2].
Qed.

(** Whatever the tokens, a setting in the scanned map was there before or
    stands in the tokens, the option followed by its value; each setting
    made costs two tokens; and the flag is raised only by a "--mute". *)
Lemma scan_arguments_sound tokens :
  ∀ muted args muted' args',
    scan_arguments tokens muted args = (muted', inr args') →
    (∀ key value, args' !! key = Some value →
       args !! key = Some value
       ∨ ∃ i, tokens !! i = Some key ∧ tokens !! S i = Some value)
    ∧ (2 * size args' ≤ 2 * size args + length tokens)%nat
    ∧ (muted' = true → muted = true ∨ "--mute" ∈ tokens).
Proof.
  induction tokens as [|key|key next tokens IH2 IH1] using pair_induction;
    intros muted args muted' args'.
  - intros [= <- <-]. split_and!; [by left|lia|by left].
  - simpl. case_decide as Hmute; [|case_decide; [done|]]; intros [= <- <-].
    + split_and!; [by left|simpl; lia|]. intros _. right. rewrite Hmute. by left.
    + split_and!; [by left|simpl; lia|by left].
  - cbn [scan_arguments]. case_decide as Hmute; [|case_decide as Hvalue].
    + intros (Hkeys & Hsize & Hflag)%IH1. split_and!.
      * intros k v [?|(i & ? & ?)]%Hkeys; [by left|right; by exists (S i)].
      * simpl in *. lia.
      * intros _. right. rewrite Hmute. by left.
    + intros (Hkeys & Hsize & Hflag)%IH2. split_and!.
      * intros k v [Hkv|(i & ? & ?)]%Hkeys; [|right; by exists (S (S i))].
        destruct (decide (key = k)) as [->|Hne].
        -- rewrite lookup_insert_eq in Hkv. injection Hkv as ->. right. by exists 0%nat.
        -- rewrite lookup_insert_ne in Hkv by done. by left.
      * pose proof (map_size_insert key next args) as Hins.
        destruct (args !! key); unfold id in Hins; simpl; lia.
      * intros [?|Hin]%Hflag; [by left|]. right. by do 2 right.
    + intros (Hkeys & Hsize & Hflag)%IH1. split_and!.
      * intros k v [?|(i & ? & ?)]%Hkeys; [by left|right; by exists (S i)].
      * simpl in *. lia.
      * intros [?|Hin]%Hflag; [by left|]. right. by right.
Qed.

Lemma stoi_range str n : stoi str = stoi_value n → INT_MIN ≤ n ≤ INT_MAX.
Proof.
  unfold stoi. destruct (match skip_spaces str with
                         | String "-"%char rest => (true, rest)
                         | String "+"%char rest => (false, rest)
                         | _ => (false, skip_spaces str)
                         end) as [negative digits].
  destruct (read_digits None digits) as [magnitude|]; [|done].
  destruct (_ && _) eqn:E; [|done]. intros [= <-].
  apply andb_true_iff in E as [?%Z.leb_le ?%Z.leb_le]. done.
Qed.

(** What [parseArguments] does after the loop. *)
Lemma parseArguments_scan argv muted args :
  scan_arguments (drop 1 argv) false ∅ = (muted, inr args) →
  parseArguments argv
  = match args !! "--input", args !! "--n", args !! "--queue" with
    | None, _, _ => (muted, inl "Error: Missing --input argument.")
    | Some _, None, _ => (muted, inl "Error: Missing --n argument.")
    | Some _, Some _, None => (muted, inl "Error: Missing --queue argument.")
    | Some input_file, Some number, Some queue_name =>
      match stoi number with
      | stoi_value n => (muted, inr (input_file, n, queue_name))
      | stoi_invalid_argument =>
        (muted, inl "Error: Invalid value for --n. It must be an integer.")
      | stoi_out_of_range => (muted, inl "Error: Value for --n is out of range.")
      end
    end.
Proof.
  intros Hscan. unfold parseArguments. rewrite Hscan.
  by destruct (args !! "--input"), (args !! "--n"), (args !! "--queue").
Qed.

Lemma parseArguments_inv argv muted input_file n queue_name :
  parseArguments argv = (muted, inr (input_file, n, queue_name)) →
  ∃ args number,
    scan_arguments (drop 1 argv) false ∅ = (muted, inr args)
    ∧ args !! "--input" = Some input_file
    ∧ args !! "--n" = Some number
    ∧ args !! "--queue" = Some queue_name
    ∧ stoi number = stoi_value n.
Proof.
  unfold parseArguments.
  destruct (scan_arguments (drop 1 argv) false ∅) as [muted' [message|args]]; [done|].
  destruct (args !! "--input") as [f|] eqn:Ef; [|done].
  destruct (args !! "--n") as [number|] eqn:En; [|done].
  destruct (args !! "--queue") as [q|] eqn:Eq; [|done].
  destruct (stoi number) as [n'| |] eqn:Es; [|done|done].
  intros [= <- <- <- <-]. by exists args, number.
Qed.

Lemma settings_app arguments more args :
  settings (arguments ++ more) args = settings more (settings arguments args).
Proof. unfold settings. by rewrite foldl_app. Qed.

Lemma settings_untouched more key args :
  Forall (λ a, ∀ value, a ≠ ValueOption key value) more →
  settings more args !! key = args !! key.
Proof.
  intros Hmore. revert args. induction Hmore as [|a more Ha _ IH]; intros args; [done|].
  simpl. destruct a as [|key' value'|token]; rewrite IH; [done| |done].
  apply lookup_insert_ne. intros ->. by apply (Ha value').
Qed.

(** X10: on a command line made of "--mute" flags, options with their
    values and other tokens, in any order and any number, [parseArguments]
    takes for each option the value of its last setting, ignores the other
    tokens, raises [muted] exactly when a "--mute" is present, reports the
    first of --input, --n, --queue that is not set, and otherwise returns
    the input file, the job count read by [stoi] and the queue name. *)
Theorem parse_command_line :
  ∀ (prog : string) (arguments : list Argument),
    Forall proper_argument arguments →
    let args := settings arguments ∅ in
    let muted := existsb is_mute arguments in
    parseArguments (prog :: command_line arguments)
    = match args !! "--input", args !! "--n", args !! "--queue" with
      | None, _, _ => (muted, inl "Error: Missing --input argument.")
      | Some _, None, _ => (muted, inl "Error: Missing --n argument.")
      | Some _, Some _, None => (muted, inl "Error: Missing --queue argument.")
      | Some input_file, Some number, Some queue_name =>
        match stoi number with
        | stoi_value n => (muted, inr (input_file, n, queue_name))
        | stoi_invalid_argument =>
          (muted, inl "Error: Invalid value for --n. It must be an integer.")
        | stoi_out_of_range => (muted, inl "Error: Value for --n is out of range.")
        end
      end
    ∧ ∀ key value before after,
        arguments = before ++ ValueOption key value :: after →
        Forall (λ a, ∀ value', a ≠ ValueOption key value') after →
        args !! key = Some value.
Proof.
  intros prog arguments Hproper args muted. split.
  - apply parseArguments_scan. simpl. rewrite drop_0.
    rewrite <- (app_nil_r (command_line arguments)).
    by rewrite scan_arguments_app.
  - intros key value before after -> Hafter. unfold args.
    rewrite settings_app. simpl. rewrite settings_untouched by done.
    apply lookup_insert_eq.
Qed.

Lemma parse_command_line_witness :
  parseArguments
    ["prog"; "--input"; "a.json"; "--mute"; "--n"; "12"; "verbose"; "--queue"; "Q";
     "--n"; "7"]
  = (true, inr ("a.json", 7, "Q")).
Proof.
  assert (Forall proper_argument
            [ValueOption "--input" "a.json"; MuteFlag; ValueOption "--n" "12";
             OtherToken "verbose"; ValueOption "--queue" "Q"; ValueOption "--n" "7"])
    as Hproper.
  { repeat apply Forall_cons_2; try apply Forall_nil_2; simpl; unfold takes_value;
      first [exact I | by left | by (right; left) | by (right; right)
            | split; [discriminate|intros [?|[?|?]]; discriminate] ]. }
  exact (proj1 (parse_command_line "prog" _ Hproper)).
Defined.

(** What a returned tuple says of the command line. *)
Lemma parseArguments_sound :
  ∀ (argv : list string) (muted : bool) (input_file : string) (n : Z)
    (queue_name : string),
    parseArguments argv = (muted, inr (input_file, n, queue_name)) →
    (7 ≤ length argv)%nat
    ∧ (∃ i, argv !! S i = Some "--input" ∧ argv !! S (S i) = Some input_file)
    ∧ (∃ i number, argv !! S i = Some "--n" ∧ argv !! S (S i) = Some number
                   ∧ stoi number = stoi_value n)
    ∧ (∃ i, argv !! S i = Some "--queue" ∧ argv !! S (S i) = Some queue_name)
    ∧ INT_MIN ≤ n ≤ INT_MAX
    ∧ (muted = true → "--mute" ∈ argv).
Proof.
  intros argv muted input_file n queue_name
    (args & number & Hscan & Hinput & Hn & Hqueue & Hstoi)%parseArguments_inv.
  destruct (scan_arguments_sound _ _ _ _ _ Hscan) as (Hkeys & Hsize & Hflag).
  assert (∀ key value, args !! key = Some value →
            ∃ i, argv !! S i = Some key ∧ argv !! S (S i) = Some value) as Hpos.
  { intros key value [Habs|(i & Hi & HSi)]%Hkeys; [by rewrite lookup_empty in Habs|].
    exists i. rewrite !lookup_drop in Hi, HSi. done. }
  split_and!.
  - assert (3 ≤ size args)%nat as Hthree.
    { rewrite <- size_dom.
      transitivity (size ({[ "--input"; "--n"; "--queue" ]} : gset string)); [done|].
      apply subseteq_size. intros key Hkey. apply elem_of_dom.
      apply elem_of_union in Hkey as [Hkey|Hkey%elem_of_singleton];
        [apply elem_of_union in Hkey as [Hkey%elem_of_singleton|Hkey%elem_of_singleton]|];
        subst key; by eexists. }
    rewrite map_size_empty, length_drop in Hsize. lia.
  - by apply Hpos.
  - destruct (Hpos _ _ Hn) as (i & ? & ?). by exists i, number.
  - by apply Hpos.
  - by eapply stoi_range.
  - by eapply stoi_range.
  - intros [?|Hin]%Hflag; [done|].
    rewrite <- (take_drop 1 argv). apply elem_of_app. by right.
Qed.

(** X11: whatever the command line, when [parseArguments] returns a tuple
    the command line has at least seven tokens; each of --input, --n and
    --queue stands in it, after the program name, directly followed by the
    value returned for it, the job count being what [stoi] reads from the
    value of --n and lying within [int]; and [muted] is raised only if a
    "--mute" token is present. *)
Theorem parse_sound :
  ∀ (argv : list string) (muted : bool) (input_file : string) (n : Z)
    (queue_name : string),
    parseArguments argv = (muted, inr (input_file, n, queue_name)) →
    (7 ≤ length argv)%nat
    ∧ (∃ i, argv !! S i = Some "--input" ∧ argv !! S (S i) = Some input_file)
    ∧ (∃ i number, argv !! S i = Some "--n" ∧ argv !! S (S i) = Some number
                   ∧ stoi number = stoi_value n)
    ∧ (∃ i, argv !! S i = Some "--queue" ∧ argv !! S (S i) = Some queue_name)
    ∧ INT_MIN ≤ n ≤ INT_MAX
    ∧ (muted = true → "--mute" ∈ argv).
Proof. apply parseArguments_sound. Qed.

Lemma parse_sound_witness :
  (7 ≤ length ["prog"; "--queue"; "Q"; "--mute"; "--n"; " -4x"; "--input"; "a.json"])%nat
  ∧ INT_MIN ≤ -4 ≤ INT_MAX.
Proof.
  destruct (parse_sound
              ["prog"; "--queue"; "Q"; "--mute"; "--n"; " -4x"; "--input"; "a.json"]
              true "a.json" (-4) "Q" ltac:(vm_compute; reflexivity))
    as (Hlength & _ & _ & _ & Hrange & _).
  split; [exact Hlength|exact Hrange].
Defined.

(** X12: an option that takes a value and stands last on the command line
    makes [parseArguments] throw "Missing value for" that option, whatever
    well-formed arguments come before it and whether or not the required
    options are set among them; [muted] is raised if a "--mute" came
    before. *)
Theorem missing_value_reported :
  ∀ (prog : string) (arguments : list Argument) (key : string),
    Forall proper_argument arguments → takes_value key →
    parseArguments (prog :: command_line arguments ++ [key])
    = (existsb is_mute arguments, inl ("Error: Missing value for " +:+ key)).
Proof.
  intros prog arguments key Hproper Hkey. unfold parseArguments. simpl.
  rewrite drop_0, scan_arguments_app by done. simpl.
  rewrite decide_False by (by apply takes_value_not_mute).
  by rewrite decide_True by done.
Qed.

Lemma missing_value_reported_witness :
  parseArguments ["prog"; "--mute"; "--n"; "3"; "--input"]
  = (true, inl "Error: Missing value for --input").
Proof.
  assert (Forall proper_argument [MuteFlag; ValueOption "--n" "3"]) as Hproper.
  { repeat apply Forall_cons_2; try apply Forall_nil_2; simpl; unfold takes_value;
      first [exact I | by (right; left)]. }
  exact (missing_value_reported "prog" _ "--input" Hproper ltac:(by left)).
Defined.

(** X13: [main] starts a simulation only from a command line of at least
    seven tokens: with fewer than five it prints the usage line and leaves
    [muted] alone; with five or six the usage test passes and
    [parseArguments] throws, so [main] ends with the message of the
    exception. *)
Theorem startup_needs_seven_tokens :
  ∀ (argv : list string),
    ((length argv < 5)%nat → main_startup argv = (false, PrintUsage))
    ∧ ((5 ≤ length argv < 7)%nat →
       ∃ muted message, main_startup argv = (muted, ParseFailure message))
    ∧ (∀ muted input_file total_jobs queue_name,
         main_startup argv = (muted, Arguments_parsed input_file total_jobs queue_name) →
         (7 ≤ length argv)%nat
         ∧ parseArguments argv = (muted, inr (input_file, total_jobs, queue_name))).
Proof.
  intros argv. unfold main_startup.
  destruct (Z.of_nat (length argv) <? 5) eqn:Husage.
  - apply Z.ltb_lt in Husage. split_and!; [done|lia|done].
  - apply Z.ltb_ge in Husage.
    destruct (parseArguments argv) as [muted [message|[[input_file n] queue_name]]] eqn:E.
    + split_and!; [lia|by eauto|done].
    + pose proof (parseArguments_sound _ _ _ _ _ E) as [Hlength _].
      split_and!; [lia|lia|]. by intros ? ? ? ? [= <- <- <- <-].
Qed.

Lemma startup_needs_seven_tokens_witness :
  main_startup ["prog"; "--n"; "3"; "--mute"] = (false, PrintUsage)
  ∧ ∃ muted message,
      main_startup ["prog"; "--n"; "3"; "--queue"; "Q"; "--mute"]
      = (muted, ParseFailure message).
Proof.
  split.
  - apply (proj1 (startup_needs_seven_tokens ["prog"; "--n"; "3"; "--mute"])).
    simpl. lia.
  - apply (proj1 (proj2 (startup_needs_seven_tokens
                           ["prog"; "--n"; "3"; "--queue"; "Q"; "--mute"]))).
    simpl. lia.
Defined.

(** ** The dictionary built from the JSON object *)

Section DictionaryFacts.
Implicit Types (dictionary : gmap string (gmap string Z)).







End DictionaryFacts.



(** The sum of two counts that an [int] cannot hold wraps around. *)
Example total_weight_wraps :
  total_weight
    (HistoricalMain.build_sampler (T:=float)
       (HistoricalMain.build_dictionary [("SITE_A", [("a", 2147483647); ("b", 1)])])
       "SITE_A").1
  = -2147483648.
Proof. vm_compute. reflexivity. Qed.

(** ** The weights *)

(** X15: on binary64, for a site present in the table whose counts are
    not negative and add up to at most [INT_MAX], the weights that [main]
    hands to the distribution add up, without any rounding, to the double of
    the [total_weight] it computes in its own loop. *)
Theorem weights_add_up_to_total_weight :
  ∀ (dictionary : gmap string (gmap string Z)) (queue_name : string)
    (codes : gmap string Z),
    dictionary !! queue_name = Some codes →
    (∀ code count, codes !! code = Some count → 0 ≤ count) →
    histogram_total codes ≤ INT_MAX →
    let sampler := (HistoricalMain.build_sampler (T:=float) dictionary queue_name).1 in
    total_weight sampler = histogram_total codes
    ∧ foldl dadd (of_int 0) (weights sampler) = of_int (total_weight sampler).
Proof.
  intros dictionary queue_name codes Hsite Hcounts Htotal.
  unfold HistoricalMain.build_sampler. rewrite Hsite, copy_map.
  cbv zeta. cbn [fst weights total_weight].
  rewrite total_weight_histogram.
  assert (∀ pair, pair ∈ map_to_list codes → 0 ≤ pair.2) as Hlist.
  { intros [code count] Hin. apply elem_of_map_to_list in Hin. by eapply Hcounts. }
  assert (0 ≤ histogram_total codes) as Hpos.
  { rewrite histogram_total_list. clear -Hlist.
    induction (map_to_list codes) as [|p l IH]; simpl; [done|].
    pose proof (Hlist p ltac:(by left)).
    assert (0 ≤ foldr (λ pair total, pair.2 + total) 0 l); [|lia].
    apply IH. intros q Hq. apply Hlist. by right. }
  rewrite wrap_int_small by (unfold INT_MIN, INT_MAX in *; lia).
  split; [done|].
  pose proof (weights_sum (map_to_list codes) 0 ltac:(done) Hlist) as HS.
  rewrite Z.add_0_l, <- histogram_total_list in HS. by apply HS.
Qed.

Lemma weights_add_up_to_total_weight_witness :
  foldl dadd (of_int 0)
    (weights (HistoricalMain.build_sampler (T:=float)
                (HistoricalMain.build_dictionary demo_table) "SITE_A").1)
  = 4%float.
Proof.
  assert (∀ code count,
            ({[ "1099" := 3; "1305" := 1; "1150" := 0 ]} : gmap string Z) !! code
            = Some count → 0 ≤ count) as Hcounts.
  { intros code count Hcode.
    apply lookup_insert_Some in Hcode as [[_ <-]|[_ Hcode]]; [lia|].
    apply lookup_insert_Some in Hcode as [[_ <-]|[_ Hcode]]; [lia|].
    apply lookup_singleton_Some in Hcode as [_ <-]. lia. }
  assert (HistoricalMain.build_dictionary demo_table !! "SITE_A"
          = Some {[ "1099" := 3; "1305" := 1; "1150" := 0 ]}) as Hsite
    by (vm_compute; reflexivity).
  destruct (weights_add_up_to_total_weight (HistoricalMain.build_dictionary demo_table)
              "SITE_A" {[ "1099" := 3; "1305" := 1; "1150" := 0 ]}
              Hsite Hcounts ltac:(vm_compute; discriminate))
    as [Htotal ->].
  rewrite Htotal. vm_compute. reflexivity.
Defined.

(** ** How the slice loop ends *)

Lemma slice_loop_exit {T} `{Double T} fuel w (job job' : Job T) elapsed elapsed' warn :
  Errors.slice_loop fuel w job elapsed = Some (job', elapsed', warn) →
  (job' = job ∧ warn = [] ∧ dlt elapsed' (load job) = false)
  ∨ (job' = set_error_code job (-1) ∧ warn = [WorkerAborting w (name job)]
     ∧ dlt elapsed' (load job) = true ∧ dge elapsed' (of_int 10) = true).
Proof.
  revert elapsed. induction fuel as [|fuel IH]; intros elapsed; [done|].
  rewrite slice_loop_step.
  destruct (dlt elapsed (load job)) eqn:Hrun; [|intros [= <- <- <-]; by left].
  destruct (dge elapsed (of_int 10)) eqn:Hceiling; [|apply IH].
  intros [= <- <- <-]. by right.
Qed.

(** X16: on any arithmetic, binary64 included, the slice loop of either
    worker ends in one of two ways: the job is left as it was received and
    [elapsed < load] no longer holds, or the job gets error code -1 while
    work remains ([elapsed < load]) and the ceiling is reached
    ([elapsed >= 10.0]).  The name and the load of the job are never
    changed. *)
Theorem slice_loop_exit_conditions :
  ∀ (T : Type) (D : Double T) (muted : bool) (fuel : nat) (w : string)
    (job job' : Job T) (elapsed elapsed' : T) (warn : list (Log T)),
    Errors.slice_loop fuel w job elapsed = Some (job', elapsed', warn)
    ∨ Historical.slice_loop muted fuel w job elapsed = Some (job', elapsed', warn) →
    name job' = name job ∧ load job' = load job
    ∧ ((job' = job ∧ dlt elapsed' (load job) = false)
       ∨ (job' = set_error_code job (-1)
          ∧ dlt elapsed' (load job) = true ∧ dge elapsed' (of_int 10) = true)).
Proof.
  intros T D muted fuel w job job' elapsed elapsed' warn Hloop.
  assert (∃ warn', Errors.slice_loop fuel w job elapsed = Some (job', elapsed', warn'))
    as [warn' Hloop'].
  { destruct Hloop as [Hloop|Hloop]; [by eauto|].
    rewrite slice_loop_agree in Hloop.
    destruct (Errors.slice_loop fuel w job elapsed) as [[[job1 elapsed1] warn1]|]; [|done].
    injection Hloop as <- <- _. by eauto. }
  apply slice_loop_exit in Hloop' as [(-> & _ & Hdone)|(-> & _ & Hrun & Hceiling)].
  - split_and!; [done|done|by left].
  - split_and!; [done|done|by right].
Qed.

Lemma slice_loop_exit_conditions_witness :
  dlt 10.5%float (load (new_Job "job0" 12%float)) = true
  ∧ dge 10.5%float (of_int 10) = true.
Proof.
  destruct (slice_loop_exit_conditions float binary64 false 3 "worker0"
              (new_Job "job0" 12%float) (mkJob "job0" 12%float (-1))
              10.5%float 10.5%float [WorkerAborting "worker0" "job0"]
              ltac:(left; vm_compute; reflexivity))
    as (_ & _ & [[Hsame _]|(_ & Hrun & Hceiling)]).
  - discriminate Hsame.
  - split; [exact Hrun|exact Hceiling].
Defined.
